(** * Ex3/mazes.py: maze generation and markups, a shallow embedding

    The Python module keeps a rectangular [Grid] of [Cell] objects.  Every
    cell owns a dictionary [links] of the cells it is connected to; the six
    generation algorithms mutate these dictionaries, the [Markup] classes
    compute per-cell tables over them.

    Conventions of the embedding:
    - a [Cell] object is addressed by its coordinates, the very data that
      [Cell.__eq__] and [Cell.__hash__] use; inside one grid the coordinates
      determine the object, so [is] and [==] agree;
    - Python dictionaries keep insertion order, and [max], [min] and
      [all_links] observe it: a dictionary is an association list with
      unique keys, oldest entry first;
    - the mutable part of the program (the [links] of all cells and the
      state of the [random] module) is a [World] threaded by a monad whose
      outcomes are a value, a Python exception, or running out of loop fuel;
    - [while] loops take fuel; [for] loops over lists are structural. *)

From Stdlib Require Import ZArith QArith Qround Lia Lqa String.
From stdpp Require Import base tactics option list numbers strings relations.

Local Open Scope Z_scope.

(** ** Cells *)

Record Cell := mkCell { row : Z; column : Z }.

#[global] Instance Cell_eq_dec : EqDecision Cell.
Proof. solve_decision. Defined.

(** [Cell.__lt__]: row-major order. *)
Definition Cell_lt (self other : Cell) : bool :=
  if bool_decide (row self < row other) then true
  else if bool_decide (row self = row other) && bool_decide (column self < column other)
       then true
       else false.

(** ** Ordered dictionaries *)

Module Dict.
Section Dict.
Context {K V : Type} `{EqDecision K}.

Definition t := list (K * V).

Definition empty : t := [].

(** [d[k] = v]: an existing key keeps its position. *)
Fixpoint set (k : K) (v : V) (d : t) : t :=
match d with
| [] => [(k, v)]
| (k', v') :: d' =>
    if decide (k = k') then (k', v) :: d' else (k', v') :: set k v d'
end.

(** [d.get(k)] *)
Fixpoint get (k : K) (d : t) : option V :=
match d with
| [] => None
| (k', v') :: d' => if decide (k = k') then Some v' else get k d'
end.

(** [k in d] *)
Definition mem (k : K) (d : t) : bool :=
match get k d with Some _ => true | None => false end.

(** [del d[k]]; [None] stands for [KeyError]. *)
Fixpoint del (k : K) (d : t) : option t :=
match d with
| [] => None
| (k', v') :: d' =>
    if decide (k = k') then Some d'
    else match del k d' with
         | Some d'' => Some ((k', v') :: d'')
         | None => None
         end
end.

(** [list(d.keys())] *)
Definition keys (d : t) : list K := fst <$> d.
End Dict.
Arguments t : clear implicits.
End Dict.

(** ** Exceptions, outcomes and the world *)

Inductive exn :=
| AssertionError | KeyError | IndexError | ValueError | ZeroDivisionError
| AttributeError.

Inductive outcome (A : Type) :=
| Ret (a : A)
| Raise (e : exn)
| OutOfFuel.
Arguments Ret {A} a.
Arguments Raise {A} e.
Arguments OutOfFuel {A}.

(** The [links] dictionary of every cell, and the state of the [random]
    module: an arbitrary sequence of raw integer draws and the number
    consumed. *)
Record World := mkWorld {
  links : Cell -> Dict.t Cell bool;
  rng : nat -> Z;
  rng_pos : nat
}.

Definition M (A : Type) : Type := World -> outcome A * World.

#[global] Instance M_ret : MRet M := fun A a w => (Ret a, w).
#[global] Instance M_bind : MBind M := fun A B f m w =>
  match m w with
  | (Ret a, w') => f a w'
  | (Raise e, w') => (Raise e, w')
  | (OutOfFuel, w') => (OutOfFuel, w')
  end.

Definition raise {A} (e : exn) : M A := fun w => (Raise e, w).
Definition out_of_fuel {A} : M A := fun w => (OutOfFuel, w).
Definition get_links (c : Cell) : M (Dict.t Cell bool) := fun w => (Ret (links w c), w).
Definition put_links (c : Cell) (d : Dict.t Cell bool) : M unit := fun w =>
  (Ret tt, mkWorld (fun c' => if decide (c' = c) then d else links w c') (rng w) (rng_pos w)).
Definition draw : M Z := fun w =>
  (Ret (rng w (rng_pos w)), mkWorld (links w) (rng w) (S (rng_pos w))).
Definition assert (b : bool) : M unit := if b then mret tt else raise AssertionError.

Definition assert_o (b : bool) : outcome unit :=
  if b then Ret tt else Raise AssertionError.

(** Code that only reads the world returns a plain [outcome]. *)
#[global] Instance outcome_ret : MRet outcome := fun A a => Ret a.
#[global] Instance outcome_bind : MBind outcome := fun A B f m =>
  match m with
  | Ret a => f a
  | Raise e => Raise e
  | OutOfFuel => OutOfFuel
  end.

(** [for x in l: body x] *)
Fixpoint for_each {A} (l : list A) (body : A -> M unit) : M unit :=
  match l with
  | [] => mret tt
  | x :: l' => body x ;; for_each l' body
  end.

(** ** Cell operations *)

(** [self.links[cell] = True] *)
Definition links_add (self cell : Cell) : M unit :=
  d ← get_links self; put_links self (Dict.set cell true d).

(** [del self.links[cell]] *)
Definition links_del (self cell : Cell) : M unit :=
  d ← get_links self;
  match Dict.del cell d with
  | Some d' => put_links self d'
  | None => raise KeyError
  end.

(** [Cell.link]; the inner call [cell.link(self, bidirectional=False)] is
    the body with the second branch not taken. *)
Definition link (self cell : Cell) (bidirectional : bool) : M unit :=
  links_add self cell ;;
  if bidirectional then links_add cell self else mret tt.

(** [Cell.unlink] *)
Definition unlink (self cell : Cell) (bidirectional : bool) : M unit :=
  links_del self cell ;;
  if bidirectional then links_del cell self else mret tt.

(** [Cell.is_linked], [Cell.all_links], [Cell.link_count]: reads. *)
Definition is_linked (w : World) (self cell : Cell) : bool := Dict.mem cell (links w self).
Definition all_links (w : World) (self : Cell) : list Cell := Dict.keys (links w self).
Definition link_count (w : World) (self : Cell) : nat := length (links w self).

(** ** The grid *)

Record Grid := mkGrid { num_rows : Z; num_columns : Z }.

(** [Grid.__init__]: both dimensions are asserted positive and every cell
    created by [create_cells] starts with [links = {}]. *)
Definition create_links : M unit := fun w =>
  (Ret tt, mkWorld (fun _ => Dict.empty) (rng w) (rng_pos w)).
Definition Grid_init (nr nc : Z) : M Grid :=
  assert (bool_decide (nr > 0)) ;;
  assert (bool_decide (nc > 0)) ;;
  create_links ;;
  mret (mkGrid nr nc).

(** The attributes set once by [connect_cells]. *)
Definition north (g : Grid) (c : Cell) : option Cell :=
  if bool_decide (row c > 0) then Some (mkCell (row c - 1) (column c)) else None.
Definition south (g : Grid) (c : Cell) : option Cell :=
  if bool_decide (row c < num_rows g - 1) then Some (mkCell (row c + 1) (column c)) else None.
Definition west (g : Grid) (c : Cell) : option Cell :=
  if bool_decide (column c > 0) then Some (mkCell (row c) (column c - 1)) else None.
Definition east (g : Grid) (c : Cell) : option Cell :=
  if bool_decide (column c < num_columns g - 1) then Some (mkCell (row c) (column c + 1)) else None.

(** [Cell.neighbors] *)
Definition neighbors (g : Grid) (c : Cell) : list Cell :=
  omap id [north g c; south g c; east g c; west g c].

(** [Grid.cell_at] *)
Definition cell_at (g : Grid) (r c : Z) : option Cell :=
  if bool_decide (0 <= r < num_rows g) && bool_decide (0 <= c < num_columns g)
  then Some (mkCell r c) else None.

(** [Grid.each_row] and [Grid.each_cell] *)
Definition each_row (g : Grid) : list (list Cell) :=
  (fun r => (fun c => mkCell r c) <$> seqZ 0 (num_columns g)) <$> seqZ 0 (num_rows g).
Definition each_cell (g : Grid) : list Cell := mjoin (each_row g).

(** [Grid.size] *)
Definition size (g : Grid) : Z := num_columns g * num_rows g.

(** [Grid.deadends] *)
Definition deadends (g : Grid) (w : World) : list Cell :=
  filter (fun c => link_count w c = 1%nat) (each_cell g).

(** ** The [random] module *)

(** [random.choice(seq)]: [IndexError] on an empty sequence. *)
Definition choice {A} (l : list A) : M A :=
  match l with
  | [] => raise IndexError
  | x :: _ => d ← draw; mret (nth (Z.to_nat (d mod Z.of_nat (length l))) l x)
  end.

(** [random.randint(a, b)] *)
Definition randint (a b : Z) : M Z :=
  if bool_decide (b < a) then raise ValueError
  else d ← draw; mret (a + d mod (b - a + 1)).

(** [random.random()]: a multiple of 2^-53 in [0, 1). *)
Definition random : M Q :=
  d ← draw; mret (d mod 2 ^ 53 # 2 ^ 53)%Q.

(** [Grid.random_cell] *)
Definition random_cell (g : Grid) : M Cell :=
  r ← randint 0 (num_rows g - 1);
  c ← randint 0 (num_columns g - 1);
  mret (mkCell r c).

(** ** Loops *)

(** [for x in l] with the local variables of the loop in [s]. *)
Fixpoint for_fold {A S} (l : list A) (s : S) (body : A -> S -> M S) : M S :=
  match l with
  | [] => mret s
  | x :: l' => s' ← body x s; for_fold l' s' body
  end.

(** [while cond: body], at most [fuel] iterations. *)
Fixpoint while {S} (fuel : nat) (cond : S -> bool) (body : S -> M S) (s : S) : M S :=
  if cond s then
    match fuel with
    | O => out_of_fuel
    | S fuel' => s' ← body s; while fuel' cond body s'
    end
  else mret s.

(** [l.remove(x)]: the first occurrence; [None] stands for [ValueError]. *)
Fixpoint remove_first {A} `{EqDecision A} (x : A) (l : list A) : option (list A) :=
  match l with
  | [] => None
  | y :: l' => if decide (x = y) then Some l'
               else match remove_first x l' with
                    | Some l'' => Some (y :: l'')
                    | None => None
                    end
  end.

Definition list_remove_M (x : Cell) (l : list Cell) : M (list Cell) :=
  match remove_first x l with
  | Some l' => mret l'
  | None => raise ValueError
  end.

(** [cell.link(other)] where [other] is an attribute that may be [None]:
    [Cell.link] asserts that its argument is a [Cell]. *)
Definition link_opt (self : Cell) (other : option Cell) : M unit :=
  match other with
  | Some o => link self o true
  | None => raise AssertionError
  end.

(** ** Generation algorithms *)

(** The list [neighbors] that [binary_tree] builds for a cell: its north
    and its east neighbor, where they exist. *)
Definition binary_tree_neighbors (g : Grid) (cell : Cell) : list Cell :=
  option_list (north g cell) ++ option_list (east g cell).

Definition binary_tree (g : Grid) : M unit :=
  for_each (each_cell g) (fun cell =>
    let nbrs := binary_tree_neighbors g cell in
    match nbrs with
    | [] => mret tt
    | _ => n ← choice nbrs; link cell n true
    end).

(** The body of the inner loop of [sidewinder], for one cell and the
    current [run]; it returns the new [run].  [odds] is the exact value of
    the float argument; comparisons of floats are exact. *)
Definition sidewinder_cell (g : Grid) (odds : Q) (cell : Cell) (run : list Cell)
  : M (list Cell) :=
  let run := run ++ [cell] in
  keep ← (if bool_decide (row cell = 0) then mret true
          else r ← random; mret (negb (Qle_bool r odds)));
  if keep && bool_decide (is_Some (east g cell)) then
    link_opt cell (east g cell) ;; mret run
  else if bool_decide (row cell > 0) then
    cell' ← choice run;
    link_opt cell' (north g cell') ;;
    mret []
  else mret run.

Definition sidewinder (g : Grid) (odds : Q) : M unit :=
  assert (Qle_bool 0 odds) ;;
  assert (negb (Qle_bool 1 odds)) ;;
  for_each (each_row g) (fun row_cells =>
    for_fold row_cells [] (sidewinder_cell g odds) ;; mret tt).

(** The counters that only feed the final [print] are left out of the
    loop states below. *)
Definition aldous_broder (fuel : nat) (g : Grid) : M unit :=
  current ← random_cell g;
  while fuel
    (fun '(current, visited) => bool_decide (Z.of_nat (length visited) < size g))
    (fun '(current, visited) =>
       neighbor ← choice (neighbors g current);
       if bool_decide (neighbor ∈ visited) then mret (neighbor, visited)
       else link neighbor current true ;; mret (neighbor, visited ++ [neighbor]))
    (current, [current]) ;;
  mret tt.

(** [while path[-1] != next: path.pop()]; the path is kept newest first,
    so [path[-1]] is the head.  An exhausted path is [IndexError]. *)
Fixpoint pop_until (next : Cell) (path : list Cell) : M (list Cell) :=
  match path with
  | [] => raise IndexError
  | c :: path' => if decide (c = next) then mret path else pop_until next path'
  end.

(** The loop-erased walk of [wilson] and [hybrid], path newest first. *)
Definition erased_walk (fuel : nat) (g : Grid) (unvisited : list Cell) (start : Cell)
  : M (list Cell) :=
  while fuel
    (fun path => match path with
                 | [] => false
                 | c :: _ => bool_decide (c ∈ unvisited)
                 end)
    (fun path =>
       match path with
       | [] => raise IndexError
       | c :: _ =>
           next ← choice (neighbors g c);
           if bool_decide (next ∈ path) then pop_until next path
           else mret (next :: path)
       end)
    [start].

(** [for i in range(len(path) - 1): path[i].link(path[i + 1]);
    unvisited.remove(path[i])], on the path oldest first. *)
Fixpoint link_path (path : list Cell) (unvisited : list Cell) : M (list Cell) :=
  match path with
  | a :: (b :: _) as path' =>
      link a b true ;;
      unvisited' ← list_remove_M a unvisited;
      link_path path' unvisited'
  | _ => mret unvisited
  end.

(** The outer loop shared by [wilson] and [hybrid]. *)
Definition wilson_loop (fuel : nat) (g : Grid) (unvisited : list Cell) : M (list Cell) :=
  while fuel
    (fun unvisited => bool_decide (0 < length unvisited)%nat)
    (fun unvisited =>
       start ← choice unvisited;
       path ← erased_walk fuel g unvisited start;
       link_path (reverse path) unvisited)
    unvisited.

Definition wilson (fuel : nat) (g : Grid) : M unit :=
  first ← random_cell g;
  unvisited ← list_remove_M first (each_cell g);
  wilson_loop fuel g unvisited ;;
  mret tt.

(** [threshold] is the exact value of the float argument and the product
    [grid.size() * threshold] is taken exactly. *)
Definition hybrid (fuel : nat) (g : Grid) (threshold : Q) : M unit :=
  current ← random_cell g;
  unvisited ← list_remove_M current (each_cell g);
  '(_, unvisited) ←
    while fuel
      (fun '(current, unvisited) =>
         negb (Qle_bool (inject_Z (Z.of_nat (length unvisited)))
                        (inject_Z (size g) * threshold)))
      (fun '(current, unvisited) =>
         neighbor ← choice (neighbors g current);
         if bool_decide (neighbor ∈ unvisited) then
           link neighbor current true ;;
           unvisited' ← list_remove_M neighbor unvisited;
           mret (neighbor, unvisited')
         else mret (neighbor, unvisited))
      (current, unvisited);
  wilson_loop fuel g unvisited ;;
  mret tt.

(** The stack is kept newest first: [stack[-1]] is the head. *)
Definition recursive_backtracker (fuel : nat) (g : Grid) (start_cell : option Cell)
  : M unit :=
  start_cell ← match start_cell with
               | Some c => mret c
               | None => random_cell g
               end;
  while fuel
    (fun '(visited, stack) => match stack with [] => false | _ => true end)
    (fun '(visited, stack) =>
       match stack with
       | [] => raise IndexError
       | current :: stack' =>
           let unvisited_neighbors :=
             filter (fun n => n ∉ visited) (neighbors g current) in
           match unvisited_neighbors with
           | [] => mret (visited, stack')
           | _ =>
               neighbor ← choice unvisited_neighbors;
               link current neighbor true ;;
               mret (visited ++ [neighbor], neighbor :: stack)
           end
       end)
    ([start_cell], [start_cell]) ;;
  mret tt.

(** ** Markups *)

Record Markup (V : Type) := mkMarkup { marks : Dict.t Cell V; default : V }.
Arguments mkMarkup {V} marks default.
Arguments marks {V} m.
Arguments default {V} m.

(** [max(seq, key=...)] and [min(seq, key=...)]: the first extremal item
    wins; an empty sequence is [ValueError]; an exception of the key
    function propagates.  [better k kbest] says that key [k] replaces the
    best key so far. *)
Fixpoint extremum_from {A K} (better : K -> K -> bool) (key : A -> outcome K)
    (best : A) (kbest : K) (l : list A) : outcome A :=
  match l with
  | [] => Ret best
  | x :: l' =>
      k ← key x;
      if better k kbest then extremum_from better key x k l'
      else extremum_from better key best kbest l'
  end.

Definition extremum {A K} (better : K -> K -> bool) (key : A -> outcome K)
    (l : list A) : outcome A :=
  match l with
  | [] => Raise ValueError
  | x :: l' => k ← key x; extremum_from better key x k l'
  end.

Section Markup.
Context {V : Type}.

(** [Markup.__init__] *)
Definition Markup_init (default : V) : Markup V := mkMarkup Dict.empty default.

(** [Markup.__setitem__] *)
Definition setitem (m : Markup V) (cell : Cell) (value : V) : Markup V :=
  mkMarkup (Dict.set cell value (marks m)) (default m).

(** [Markup.__getitem__] *)
Definition getitem (m : Markup V) (cell : Cell) : V :=
  match Dict.get cell (marks m) with
  | Some v => v
  | None => default m
  end.

(** [Markup.set_item_at] *)
Definition set_item_at (g : Grid) (m : Markup V) (r c : Z) (value : V)
  : outcome (Markup V) :=
  assert_o (bool_decide (r >= 0) && bool_decide (r < num_rows g)) ;;
  assert_o (bool_decide (c >= 0) && bool_decide (c < num_columns g)) ;;
  match cell_at g r c with
  | Some cell => Ret (setitem m cell value)
  | None => Raise IndexError
  end.

(** [Markup.get_item_at]: [self.marks.get(cell)], whose result is
    [None] for a missing key. *)
Definition get_item_at (g : Grid) (m : Markup V) (r c : Z) : outcome (option V) :=
  assert_o (bool_decide (r >= 0) && bool_decide (r < num_rows g)) ;;
  assert_o (bool_decide (c >= 0) && bool_decide (c < num_columns g)) ;;
  match cell_at g r c with
  | Some cell => Ret (Dict.get cell (marks m))
  | None => Raise IndexError
  end.

(** The natural order of the values, as [<]. *)
Context (ltb : V -> V -> bool).

(** [Markup.max] and [Markup.min] *)
Definition Markup_max (m : Markup V) : outcome Cell :=
  extremum (fun k kbest => ltb kbest k) (fun c => Ret (getitem m c))
           (Dict.keys (marks m)).
Definition Markup_min (m : Markup V) : outcome Cell :=
  extremum (fun k kbest => ltb k kbest) (fun c => Ret (getitem m c))
           (Dict.keys (marks m)).
End Markup.

(** ** DijkstraMarkup *)

(** The order of the tuples [(dist, cell)] in the frontier. *)
Definition tuple_lt (x y : Z * Cell) : bool :=
  if bool_decide (x.1 = y.1) then Cell_lt x.2 y.2 else bool_decide (x.1 < y.1).

(** [heapq] keeps the frontier in an array; the loop only observes which
    item [heappop] returns, the least one, so the frontier is a plain list
    and [heappop] extracts its least item. *)
Definition heappush (frontier : list (Z * Cell)) (x : Z * Cell) : list (Z * Cell) :=
  frontier ++ [x].

Definition heap_least (x : Z * Cell) (l : list (Z * Cell)) : Z * Cell :=
  foldl (fun best y => if tuple_lt y best then y else best) x l.

Definition heappop (frontier : list (Z * Cell)) : outcome ((Z * Cell) * list (Z * Cell)) :=
  match frontier with
  | [] => Raise IndexError
  | x :: l =>
      let least := heap_least x l in
      match remove_first least frontier with
      | Some rest => Ret (least, rest)
      | None => Raise IndexError
      end
  end.

(** The body of [for neighbor in cell.all_links()]. *)
Definition relax (dist : Z) (st : Markup Z * list (Z * Cell)) (neighbor : Cell)
  : Markup Z * list (Z * Cell) :=
  let '(m, frontier) := st in
  if negb (Dict.mem neighbor (marks m)) || bool_decide (dist + 1 < getitem m neighbor)
  then (setitem m neighbor (dist + 1), heappush frontier (dist + 1, neighbor))
  else st.

Fixpoint dijkstra_loop (fuel : nat) (w : World) (m : Markup Z)
    (frontier : list (Z * Cell)) : outcome (Markup Z) :=
  match frontier with
  | [] => Ret m
  | _ =>
      match fuel with
      | O => OutOfFuel
      | S fuel' =>
          '((dist, cell), frontier') ← heappop frontier;
          if bool_decide (dist > getitem m cell) then dijkstra_loop fuel' w m frontier'
          else
            let '(m', frontier'') :=
              foldl (relax dist) (m, frontier') (all_links w cell) in
            dijkstra_loop fuel' w m' frontier''
      end
  end.

(** [DijkstraMarkup.__init__] *)
Definition DijkstraMarkup (fuel : nat) (w : World) (root_cell : Cell) (default : Z)
  : outcome (Markup Z) :=
  let m := setitem (Markup_init default) root_cell 0 in
  dijkstra_loop fuel w m [(0, root_cell)].

(** [DijkstraMarkup.farthest_cell] *)
Definition farthest_cell (m : Markup Z) : outcome (Cell * Z) :=
  cell ← extremum (fun k kbest => match k, kbest with
                                  | Some a, Some b => bool_decide (b < a)
                                  | _, _ => false
                                  end)
                  (fun c => Ret (Dict.get c (marks m))) (Dict.keys (marks m));
  Ret (cell, getitem m cell).

(** ** ShortestPathMarkup *)

Section ShortestPath.
Context {Mk : Type}.

(** The table holds markers, the default inherited from
    [DijkstraMarkup] is the integer 0. *)
Definition path_value : Type := Z + Mk.

(** [self.marks[cell]]: [KeyError] for a missing key. *)
Definition marks_lookup (dm : Markup Z) (cell : Cell) : outcome Z :=
  match Dict.get cell (marks dm) with
  | Some d => Ret d
  | None => Raise KeyError
  end.

(** [while current is not start_cell] *)
Fixpoint walk_back (fuel : nat) (w : World) (dm : Markup Z) (start_cell : Cell)
    (path_marker : Mk) (path : Dict.t Cell path_value) (current : Cell)
  : outcome (Dict.t Cell path_value) :=
  if decide (current = start_cell) then Ret path
  else
    match fuel with
    | O => OutOfFuel
    | S fuel' =>
        let path := Dict.set current (inr path_marker) path in
        next ← extremum (fun k kbest => bool_decide (k < kbest)) (marks_lookup dm)
                 (all_links w current);
        walk_back fuel' w dm start_cell path_marker path next
    end.

(** [ShortestPathMarkup.__init__] *)
Definition ShortestPathMarkup (fuel : nat) (g : Grid) (w : World)
    (start_cell goal_cell : Cell) (path_marker non_path_marker end_marker : Mk)
  : outcome (Markup path_value) :=
  dm ← DijkstraMarkup fuel w start_cell 0;
  let path := foldl (fun path cell => Dict.set cell (inr non_path_marker) path)
                    Dict.empty (each_cell g) in
  path ← walk_back fuel w dm start_cell path_marker path goal_cell;
  let path := Dict.set start_cell (inr end_marker) path in
  let path := Dict.set goal_cell (inr end_marker) path in
  Ret (mkMarkup path (inl (default dm))).
End ShortestPath.

(** ** ColorizedMarkup *)

(** The table holds colour triplets, the default is [Markup]'s [' ']. *)
Definition color_value : Type := string + list Z.

Record ColorizedMarkup := mkColorized {
  cm_markup : Markup color_value;
  channel : string
}.

(** [assert channel in 'RGB']: a substring test. *)
Definition ColorizedMarkup_init (channel : string) : outcome ColorizedMarkup :=
  assert_o (bool_decide (channel ∈ [EmptyString; "R"; "G"; "B"; "RG"; "GB"; "RGB"]%string)) ;;
  Ret (mkColorized (Markup_init (inl " "%string)) channel).

(** [round] on an exact rational: ties go to the even integer. *)
Definition py_round (q : Q) : Z :=
  let f := Qfloor q in
  match Qcompare (q - inject_Z f) (1 # 2) with
  | Lt => f
  | Gt => f + 1
  | Eq => if Z.even f then f else f + 1
  end.

(** [ColorizedMarkup.intensity_colorize].  The quotient and the products
    are computed on exact rationals, without the rounding of binary64. *)
Definition intensity_colorize (g : Grid) (self : ColorizedMarkup) (markup : Markup Z)
  : outcome ColorizedMarkup :=
  max ← Markup_max Z.ltb markup;
  let max_value := getitem markup max in
  m ← foldl (fun acc c =>
        m ← acc;
        let cell_value := getitem markup c in
        if bool_decide (max_value = 0) then Raise ZeroDivisionError
        else
          let intensity := (inject_Z (max_value - cell_value) / inject_Z max_value)%Q in
          let dark := py_round (255 * intensity) in
          let bright := py_round (127 * intensity) + 128 in
          if bool_decide (channel self = "R"%string) then
            Ret (setitem m c (inr [bright; dark; dark]))
          else if bool_decide (channel self = "G"%string) then
            Ret (setitem m c (inr [dark; bright; dark]))
          else Ret (setitem m c (inr [dark; dark; bright])))
      (Ret (cm_markup self)) (each_cell g);
  Ret (mkColorized m (channel self)).

(** [if not start_row]: both [None] and [0] are falsy. *)
Definition or_center (start : option Z) (extent : Z) : Z :=
  match start with
  | None => extent `div` 2
  | Some v => if bool_decide (v = 0) then extent `div` 2 else v
  end.

(** The cell handed to [DijkstraMarkup] by [colorize_dijkstra]. *)
Definition dijkstra_source (g : Grid) (start_row start_column : option Z) : option Cell :=
  cell_at g (or_center start_row (num_rows g)) (or_center start_column (num_columns g)).

(** [ColorizedMarkup.colorize_dijkstra]; handing [None] to
    [DijkstraMarkup] ends in [AttributeError] at [cell.all_links()]. *)
Definition colorize_dijkstra (fuel : nat) (g : Grid) (w : World) (self : ColorizedMarkup)
    (start_row start_column : option Z) : outcome ColorizedMarkup :=
  match dijkstra_source g start_row start_column with
  | Some start_cell =>
      dm ← DijkstraMarkup fuel w start_cell 0;
      intensity_colorize g self dm
  | None => Raise AttributeError
  end.

(** ** Vocabulary of the properties *)

Definition in_grid (g : Grid) (c : Cell) : Prop :=
  0 <= row c < num_rows g /\ 0 <= column c < num_columns g.

Definition wf_grid (g : Grid) : Prop := 0 < num_rows g /\ 0 < num_columns g.

(** A freshly constructed grid: no cell has any link. *)
Definition unlinked (w : World) : Prop := forall c, links w c = [].

(** Every [links] dictionary has unique keys. *)
Definition dict_ok (w : World) : Prop := forall c, NoDup (all_links w c).

Definition symmetric (w : World) : Prop :=
  forall a b, is_linked w a b = is_linked w b a.

(** Reachability through links. *)
Definition reach (w : World) : Cell -> Cell -> Prop :=
  rtc (fun a b => is_linked w a b = true).

Definition connected (g : Grid) (w : World) : Prop :=
  forall a b, in_grid g a -> in_grid g b -> reach w a b.

Definition links_in_grid (g : Grid) (w : World) : Prop :=
  forall a b, is_linked w a b = true -> in_grid g a /\ in_grid g b.

(** A link relation on cells, such as [is_linked w]. *)
Definition rel : Type := Cell -> Cell -> bool.

(** The undirected links of the grid: the pairs [a <= b] in the order of
    [Cell.__lt__] that are linked in either direction. *)
Definition undirected (E : rel) (p : Cell * Cell) : bool :=
  negb (Cell_lt p.2 p.1) && (E p.1 p.2 || E p.2 p.1).

Definition n_links (g : Grid) (E : rel) : nat :=
  length (filter (fun p => undirected E p = true)
                 (list_prod (each_cell g) (each_cell g))).

Definition undirected_links (g : Grid) (w : World) : list (Cell * Cell) :=
  filter (fun p => undirected (is_linked w) p = true)
         (list_prod (each_cell g) (each_cell g)).

(** The link graph is a spanning tree of the grid. *)
Definition spanning_tree (g : Grid) (w : World) : Prop :=
  links_in_grid g w /\ symmetric w /\ connected g w /\
  Z.of_nat (length (undirected_links g w)) = size g - 1.

(** The relation [E] is a tree on the cells selected by [V]: the
    invariant of the algorithms that grow the maze from one cell. *)
Definition tree_on (g : Grid) (V : Cell -> bool) (E : rel) : Prop :=
  (forall c, V c = true -> in_grid g c) /\
  (forall a b, E a b = true -> V a = true /\ V b = true) /\
  (forall a b, E a b = E b a) /\
  (forall a b, V a = true -> V b = true -> rtc (fun x y => E x y = true) a b) /\
  (n_links g E + 1 = length (filter (fun c => V c = true) (each_cell g)))%nat.

(** The relation made of the pairs of a list, in both directions. *)
Definition edge_in (L : list (Cell * Cell)) : rel :=
  fun x y => bool_decide ((x, y) ∈ L \/ (y, x) ∈ L).

(** The consecutive pairs of a list. *)
Fixpoint consec (l : list Cell) : list (Cell * Cell) :=
  match l with
  | a :: l' => match l' with
               | b :: _ => (a, b) :: consec l'
               | [] => []
               end
  | [] => []
  end.

(** ** Specifications of monadic code *)

(** [post partial m w Q]: from [w], [m] raises no exception and its result
    and final world satisfy [Q]; running out of fuel is accepted only when
    [partial] is set. *)
Definition post (partial : bool) {A} (m : M A) (w : World) (Q : A -> World -> Prop) : Prop :=
  match m w with
  | (Ret a, w') => Q a w'
  | (Raise _, _) => False
  | (OutOfFuel, _) => partial = true
  end.

(** The world [w'] is [w] with the links of [L] added. *)
Definition extends (w w' : World) (L : list (Cell * Cell)) : Prop :=
  rng w' = rng w /\
  (forall x y, is_linked w' x y = is_linked w x y || edge_in L x y) /\
  (dict_ok w -> dict_ok w').




(** The state in which a script of [link] and [unlink] calls leaves the
    cells. *)
Definition linkage_ok (w : World) : Prop := dict_ok w /\ symmetric w.

(** ** Loop invariants *)





#[global] Instance in_grid_dec g c : Decision (in_grid g c).
Proof. unfold in_grid. apply _. Defined.




(** [binary_tree]: the links made while the cells [cells] were visited,
    one for every cell that has a north or an east neighbor. *)
Definition bt_trace (g : Grid) (cells : list Cell) (L : list (Cell * Cell)) : Prop :=
  L.*1 = filter (fun c => binary_tree_neighbors g c <> []) cells /\
  forall c p, (c, p) ∈ L -> p ∈ binary_tree_neighbors g c.

(** The number of steps north and east from a cell to the top-right
    corner. *)
Definition bt_rank (g : Grid) (c : Cell) : nat :=
  Z.to_nat (row c + (num_columns g - 1 - column c)).

(** [sidewinder]: the cells of the rows above row [n]. *)
Definition rows_above (g : Grid) (n : Z) (c : Cell) : bool :=
  bool_decide (in_grid g c) && bool_decide (row c < n).

(** [sidewinder], inside row [r], whose cells are [l]: the cells visited so
    far are closed runs followed by the current [run]; the closed runs are
    part of the tree [E]; the cells of the current run are linked in a
    chain that already reaches the next cell of the row. *)
Definition sw_inv (g : Grid) (r : Z) (l : list Cell) (pre run : list Cell) (w : World)
  : Prop :=
  exists (closed : list Cell) (E : rel),
    pre = closed ++ run /\
    (r = 0 -> closed = [] /\ forall a b, E a b = false) /\
    (0 < r -> tree_on g (fun c => rows_above g r c || bool_decide (c ∈ closed)) E) /\
    (0 < r -> length pre = length l -> run = []) /\
    (forall x y, is_linked w x y =
                 E x y || edge_in (consec (run ++ take 1 (drop (length pre) l))) x y).

(** [sidewinder], between two rows. *)
Definition sw_rows_inv (g : Grid) (rows : list (list Cell)) (w : World) : Prop :=
  match rows with
  | [] => forall a b, is_linked w a b = false
  | _ => tree_on g (rows_above g (Z.of_nat (length rows))) (is_linked w)
  end.

(** ** Distances *)

(** A walk of [n] links from [a]. *)
Inductive walk (w : World) (a : Cell) : Cell -> nat -> Prop :=
| walk_nil : walk w a a 0
| walk_snoc b c n : walk w a b n -> is_linked w b c = true -> walk w a c (S n).

(** [d] is the least number of links from [a] to [b]. *)
Definition distance (w : World) (a b : Cell) (d : Z) : Prop :=
  0 <= d /\ walk w a b (Z.to_nat d) /\ forall n, walk w a b n -> d <= Z.of_nat n.

(** Every cell linked to [c] is marked with at most [d + 1]. *)
Definition relaxed (w : World) (m : Markup Z) (c : Cell) (d : Z) : Prop :=
  forall n, n ∈ all_links w c ->
    exists d', Dict.get n (marks m) = Some d' /\ d' <= d + 1.

(** The marks of [m'] are those of [m], possibly lowered, and new ones. *)
Definition marks_le (m m' : Markup Z) : Prop :=
  forall c d, Dict.get c (marks m) = Some d ->
    exists d', Dict.get c (marks m') = Some d' /\ d' <= d.

(** The loop of [DijkstraMarkup]: a mark is the length of some walk from
    the root, a frontier item is not below the mark of its cell, and a
    marked cell either waits in the frontier with its mark or has all its
    links relaxed. *)
Definition dj_inv (g : Grid) (w : World) (root : Cell) (m : Markup Z)
    (frontier : list (Z * Cell)) : Prop :=
  Dict.get root (marks m) = Some 0 /\
  NoDup (Dict.keys (marks m)) /\
  (forall c d, Dict.get c (marks m) = Some d ->
     in_grid g c /\ 0 <= d < Z.of_nat (length (marks m)) /\ walk w root c (Z.to_nat d)) /\
  (forall d c, (d, c) ∈ frontier ->
     exists d', Dict.get c (marks m) = Some d' /\ d' <= d) /\
  (forall c d, Dict.get c (marks m) = Some d ->
     (d, c) ∈ frontier \/ relaxed w m c d).

(** The same while the links of [cell], marked [dist], are relaxed;
    [seen] are the links already handled. *)
Definition relax_inv (g : Grid) (w : World) (root cell : Cell) (dist : Z)
    (seen : list Cell) (m : Markup Z) (frontier : list (Z * Cell)) : Prop :=
  Dict.get root (marks m) = Some 0 /\
  NoDup (Dict.keys (marks m)) /\
  (forall c d, Dict.get c (marks m) = Some d ->
     in_grid g c /\ 0 <= d < Z.of_nat (length (marks m)) /\ walk w root c (Z.to_nat d)) /\
  (forall d c, (d, c) ∈ frontier ->
     exists d', Dict.get c (marks m) = Some d' /\ d' <= d) /\
  (forall c d, Dict.get c (marks m) = Some d ->
     c = cell \/ (d, c) ∈ frontier \/ relaxed w m c d) /\
  Dict.get cell (marks m) = Some dist /\
  (forall n, n ∈ seen -> exists d', Dict.get n (marks m) = Some d' /\ d' <= dist + 1).

(** The measure of the loop: the marks can only go down, and every push
    lowers one. *)
Definition dj_potential (g : Grid) (m : Markup Z) (c : Cell) : nat :=
  match Dict.get c (marks m) with
  | Some d => Z.to_nat d
  | None => length (each_cell g)
  end.

Definition dj_measure (g : Grid) (m : Markup Z) (frontier : list (Z * Cell)) : nat :=
  sum_list_with (dj_potential g m) (each_cell g) + length frontier.

(** ** Paths *)

(** The cells of a 1-row grid are linked in a line: each cell to the one
    on its east and the one on its west, and to no other. *)
Definition linked_in_line (g : Grid) (w : World) : Prop :=
  forall a b, is_linked w a b = true <->
    in_grid g a /\ in_grid g b /\
    (column b = column a + 1 \/ column b = column a - 1).

(** [p] is a simple chain of linked cells from [a] to [b]. *)
Definition chain (w : World) (a b : Cell) (p : list Cell) : Prop :=
  head p = Some a /\ last p = Some b /\ NoDup p /\
  forall x y, (x, y) ∈ consec p -> is_linked w x y = true.

Section PathMarks.
Context {Mk : Type} `{EqDecision Mk}.

(** The cells whose value is [path_marker] are the cells of a chain of
    [D + 1] cells from [start] to [goal]. *)
Definition path_marker_chain (g : Grid) (w : World) (m : Markup (Z + Mk))
    (start goal : Cell) (path_marker : Mk) (D : Z) : Prop :=
  exists p, chain w start goal p /\ Z.of_nat (length p) = D + 1 /\
    forall c, in_grid g c -> (c ∈ p <-> getitem m c = inr path_marker).

(** The values that [ShortestPathMarkup] leaves: [end_marker] at both
    ends of a chain of [D + 1] cells from [start] to [goal],
    [path_marker] on the cells between them, [non_path_marker] on every
    other cell of the grid. *)
Definition shortest_path_marked (g : Grid) (w : World) (m : Markup (Z + Mk))
    (start goal : Cell) (path_marker non_path_marker end_marker : Mk) (D : Z) : Prop :=
  exists p, chain w start goal p /\ Z.of_nat (length p) = D + 1 /\
    forall c, in_grid g c ->
      getitem m c = inr (if decide (c = start \/ c = goal) then end_marker
                         else if decide (c ∈ p) then path_marker
                         else non_path_marker).
End PathMarks.

(** ** LongestPathMarkup *)

(** Code that reads the world, inside code that changes it. *)
Definition read {A} (f : World -> outcome A) : M A := fun w => (f w, w).

Section LongestPath.
Context {Mk : Type}.

(** [LongestPathMarkup.__init__]: the two [DijkstraMarkup] and the
    [ShortestPathMarkup] read the links and leave the world as
    [random_cell] left it. *)
Definition LongestPathMarkup (fuel : nat) (g : Grid)
    (path_marker non_path_marker end_marker : Mk) : M (Markup (@path_value Mk)) :=
  start_cell ← random_cell g;
  read (fun w =>
    dm ← DijkstraMarkup fuel w start_cell 0;
    '(farthest, _) ← farthest_cell dm;
    dm ← DijkstraMarkup fuel w farthest 0;
    '(next_farthest, _) ← farthest_cell dm;
    ShortestPathMarkup fuel g w farthest next_farthest
                       path_marker non_path_marker end_marker).
End LongestPath.

(** The triplet that [intensity_colorize] stores for a channel. *)
Definition rgb (channel : string) (bright dark : Z) : list Z :=
  if bool_decide (channel = "R"%string) then [bright; dark; dark]
  else if bool_decide (channel = "G"%string) then [dark; bright; dark]
  else [dark; dark; bright].

(** ** Safety *)

(** Links join neighboring cells of the grid only. *)
Definition links_adjacent (g : Grid) (w : World) : Prop :=
  forall a b, is_linked w a b = true -> in_grid g a /\ b ∈ neighbors g a.

(** [safe m w Q E]: from [w], when [m] returns, [Q] holds of its result
    and of the final world; when it raises or runs out of fuel, [E] holds
    of the world it stopped in. *)
Definition safe {A} (m : M A) (w : World) (Q : A -> World -> Prop) (E : World -> Prop)
  : Prop :=
  match m w with
  | (Ret a, w') => Q a w'
  | (_, w') => E w'
  end.

(** The paths of the loop-erased walk: cells of the grid, each next to
    the one before. *)
Definition path_ok (g : Grid) (path : list Cell) : Prop :=
  (forall c, c ∈ path -> in_grid g c) /\
  (forall x y, (x, y) ∈ consec path -> y ∈ neighbors g x).

(** ** Grid.__str__ *)

Definition newline : string := String (Ascii.ascii_of_nat 10) EmptyString.

(** [s * n] *)
Fixpoint str_mul (s : string) (n : nat) : string :=
  match n with
  | O => EmptyString
  | S n' => s +:+ str_mul s n'
  end.

(** ['{:^3s}'.format(s)]: [s] centered in a field of width 3, the odd
    space of padding on the right; a longer [s] is not cut. *)
Definition center3 (s : string) : string :=
  let pad := (3 - String.length s)%nat in
  let left := (pad / 2)%nat in
  str_mul " " left +:+ s +:+ str_mul " " (pad - left).

Section GridStr.
Context {V : Type}.
(** [str(cell_value)] for the values of the markup. *)
Context (str : V -> string).

(** The body of the first [for cell in row]. *)
Definition str_cell (g : Grid) (w : World) (markup : Markup V)
    (ret_val : string) (cell : Cell) : string :=
  let ret_val := ret_val +:+ center3 (str (getitem markup cell)) in
  match east g cell with
  | None => ret_val +:+ "|"
  | Some e => if is_linked w e cell then ret_val +:+ " " else ret_val +:+ "|"
  end.

(** The body of the second [for cell in row]. *)
Definition str_floor (g : Grid) (w : World) (ret_val : string) (cell : Cell) : string :=
  match south g cell with
  | None => ret_val +:+ "---+"
  | Some s => if is_linked w s cell then ret_val +:+ "   +" else ret_val +:+ "---+"
  end.

(** [Grid.__str__], with [markup] the markup given to [set_markup]. *)
Definition Grid_str (g : Grid) (w : World) (markup : Markup V) : string :=
  foldl (fun ret_val row =>
           let ret_val := ret_val +:+ "|" in
           let ret_val := foldl (str_cell g w markup) ret_val row in
           let ret_val := ret_val +:+ newline +:+ "+" in
           let ret_val := foldl (str_floor g w) ret_val row in
           ret_val +:+ newline)
        ("+" +:+ str_mul "---+" (Z.to_nat (num_columns g)) +:+ newline)
        (each_row g).
End GridStr.

(** The concatenation of a list of strings. *)
Definition str_join (l : list string) : string := foldr String.append EmptyString l.

(** ** Choosing the draws *)




(** The boustrophedon path through the grid: row 0 eastwards, row 1
    westwards, and so on. *)
Definition snake (g : Grid) (k : nat) : Cell :=
  let q := Z.of_nat k `div` num_columns g in
  let j := Z.of_nat k `mod` num_columns g in
  mkCell q (if Z.even q then j else num_columns g - 1 - j).

(** * Proofs *)

(** ** Dictionaries *)

Section DictFacts.
Context {K V : Type} `{EqDecision K}.
Implicit Types (d : Dict.t K V) (k : K) (v : V).

Lemma dict_get_set k k' v d :
  Dict.get k (Dict.set k' v d) = if decide (k = k') then Some v else Dict.get k d.
Proof.
  induction d as [|[k0 v0] d IH]; simpl.
  - repeat case_decide; done.
  - repeat (case_decide; simpl; simplify_eq); try done.
Qed.

Lemma dict_mem_set k k' v d :
  Dict.mem k (Dict.set k' v d) = bool_decide (k = k') || Dict.mem k d.
Proof.
  unfold Dict.mem. rewrite dict_get_set.
  case_decide; case_bool_decide; simplify_eq; done.
Qed.

Lemma dict_mem_keys k d : Dict.mem k d = true <-> k ∈ Dict.keys d.
Proof.
  unfold Dict.mem, Dict.keys. induction d as [|[k0 v0] d IH]; simpl.
  - split; [done|]. intros Hk. inversion Hk.
  - case_decide; simplify_eq.
    + split; [intros _; left | done].
    + rewrite IH. split; [by right|].
      intros Hk. inversion Hk; simplify_eq; done.
Qed.

Lemma dict_mem_false_keys k d : Dict.mem k d = false <-> k ∉ Dict.keys d.
Proof.
  rewrite <- dict_mem_keys. destruct (Dict.mem k d); naive_solver.
Qed.

Lemma dict_keys_set_in k v d :
  k ∈ Dict.keys d -> Dict.keys (Dict.set k v d) = Dict.keys d.
Proof.
  unfold Dict.keys. induction d as [|[k0 v0] d IH]; simpl; intros Hk.
  - inversion Hk.
  - case_decide; simplify_eq; simpl; [done|].
    f_equal. apply IH. inversion Hk; simplify_eq; done.
Qed.

Lemma dict_keys_set_notin k v d :
  k ∉ Dict.keys d -> Dict.keys (Dict.set k v d) = Dict.keys d ++ [k].
Proof.
  unfold Dict.keys. induction d as [|[k0 v0] d IH]; simpl; intros Hk; [done|].
  case_decide; simplify_eq; simpl.
  - destruct Hk. left.
  - f_equal. apply IH. intros Hin. apply Hk. by right.
Qed.

Lemma dict_keys_set_NoDup k v d :
  NoDup (Dict.keys d) -> NoDup (Dict.keys (Dict.set k v d)).
Proof.
  intros Hnd. destruct (decide (k ∈ Dict.keys d)) as [Hin|Hin].
  - by rewrite dict_keys_set_in.
  - rewrite dict_keys_set_notin by done.
    apply NoDup_app. split_and!; [done| |apply NoDup_singleton].
    intros x Hx Hx'. apply list_elem_of_singleton in Hx'. by subst.
Qed.

Lemma dict_length_set k v d :
  length (Dict.set k v d) = if Dict.mem k d then length d else S (length d).
Proof.
  unfold Dict.mem. induction d as [|[k0 v0] d IH]; simpl; [done|].
  case_decide; simplify_eq; simpl; [done|].
  rewrite IH. by destruct (Dict.get k d).
Qed.

Lemma dict_del_None k d : Dict.del k d = None <-> Dict.mem k d = false.
Proof.
  unfold Dict.mem. induction d as [|[k0 v0] d IH]; simpl; [done|].
  case_decide; simplify_eq; [done|].
  destruct (Dict.del k d); destruct (Dict.get k d); split; try done;
    intros; exfalso; by (destruct IH as [IH1 IH2]; (discriminate IH1 || discriminate IH2)).
Qed.

Lemma dict_del_Some k d d' :
  Dict.del k d = Some d' ->
  NoDup (Dict.keys d) ->
  NoDup (Dict.keys d') /\
  forall k', Dict.get k' d' = if decide (k' = k) then None else Dict.get k' d.
Proof.
  revert d'. induction d as [|[k0 v0] d IH]; simpl; intros d' Hdel Hnd; [done|].
  apply NoDup_cons in Hnd as [Hk0 Hnd].
  case_decide as Hk; [subst k0; injection Hdel as <-|].
  - split; [done|]. intros k'. repeat case_decide; simplify_eq; try done.
    destruct (Dict.get k d) eqn:Hg; [|done].
    destruct Hk0. apply dict_mem_keys. unfold Dict.mem. by rewrite Hg.
  - destruct (Dict.del k d) as [d''|] eqn:Hd; [|done]. simplify_eq.
    destruct (IH d'' eq_refl Hnd) as [Hnd' Hget]. split.
    + simpl. apply NoDup_cons. split; [|done].
      intros Hin. apply Hk0. apply dict_mem_keys in Hin. apply dict_mem_keys.
      unfold Dict.mem in *. rewrite Hget in Hin. by case_decide.
    + intros k'. simpl. rewrite Hget. repeat case_decide; simplify_eq; done.
Qed.
End DictFacts.

(** ** The monad *)

Lemma bind_run {A B} (m : M A) (f : A -> M B) w :
  (m ≫= f) w = match m w with
               | (Ret a, w') => f a w'
               | (Raise e, w') => (Raise e, w')
               | (OutOfFuel, w') => (OutOfFuel, w')
               end.
Proof. reflexivity. Qed.

Lemma bind_ret_run {A B} (m : M A) (f : A -> M B) w a w' :
  m w = (Ret a, w') -> (m ≫= f) w = f a w'.
Proof. intros Hm. by rewrite bind_run, Hm. Qed.

Lemma bind_raise_run {A B} (m : M A) (f : A -> M B) w e w' :
  m w = (Raise e, w') -> (m ≫= f) w = (Raise e, w').
Proof. intros Hm. by rewrite bind_run, Hm. Qed.

(** ** [link] and [unlink] *)

Lemma links_add_run a b w :
  links_add a b w =
  (Ret tt, mkWorld (fun c => if decide (c = a) then Dict.set b true (links w a) else links w c)
                   (rng w) (rng_pos w)).
Proof. reflexivity. Qed.

Lemma is_linked_links_add a b w w' x y :
  links_add a b w = (Ret tt, w') ->
  is_linked w' x y = is_linked w x y || bool_decide (x = a /\ y = b).
Proof.
  rewrite links_add_run. intros [= <-]. unfold is_linked. simpl.
  case_decide; subst.
  - rewrite dict_mem_set. rewrite orb_comm. f_equal.
    apply bool_decide_ext. naive_solver.
  - rewrite bool_decide_eq_false_2 by naive_solver. by rewrite orb_false_r.
Qed.

Lemma dict_ok_links_add a b w w' :
  links_add a b w = (Ret tt, w') -> dict_ok w -> dict_ok w'.
Proof.
  rewrite links_add_run. intros [= <-] Hok c. unfold all_links. simpl.
  case_decide; subst; [|apply Hok]. apply dict_keys_set_NoDup, Hok.
Qed.

Lemma link_run a b w :
  exists w', link a b true w = (Ret tt, w') /\
    rng w' = rng w /\ rng_pos w' = rng_pos w /\
    (forall x y, is_linked w' x y =
       is_linked w x y || bool_decide (x = a /\ y = b) || bool_decide (x = b /\ y = a)) /\
    (dict_ok w -> dict_ok w').
Proof.
  unfold link. rewrite bind_run, links_add_run.
  eexists. split; [apply links_add_run|]. split_and!; try done.
  - intros x y.
    rewrite (is_linked_links_add b a _ _ x y (links_add_run _ _ _)).
    by rewrite (is_linked_links_add a b w _ x y (links_add_run _ _ _)).
  - intros Hok. eapply dict_ok_links_add; [apply links_add_run|].
    eapply dict_ok_links_add; [apply links_add_run|done].
Qed.

Lemma links_del_run a b w :
  links_del a b w =
  match Dict.del b (links w a) with
  | Some d' => (Ret tt, mkWorld (fun c => if decide (c = a) then d' else links w c)
                                (rng w) (rng_pos w))
  | None => (Raise KeyError, w)
  end.
Proof. unfold links_del. rewrite bind_run. simpl. by destruct (Dict.del _ _). Qed.

Lemma links_del_fail a b w :
  is_linked w a b = false -> links_del a b w = (Raise KeyError, w).
Proof.
  intros Hl. rewrite links_del_run.
  apply dict_del_None in Hl. unfold Dict.t in *. by rewrite Hl.
Qed.

Lemma links_del_ok a b w :
  is_linked w a b = true -> dict_ok w ->
  exists w', links_del a b w = (Ret tt, w') /\
    rng w' = rng w /\ rng_pos w' = rng_pos w /\
    (forall x y, is_linked w' x y = is_linked w x y && negb (bool_decide (x = a /\ y = b))) /\
    (forall c, c <> a -> links w' c = links w c) /\
    dict_ok w'.
Proof.
  intros Hl Hok. rewrite links_del_run.
  destruct (Dict.del b (links w a)) as [d'|] eqn:Hdel.
  2:{ apply dict_del_None in Hdel. unfold is_linked in Hl. congruence. }
  destruct (dict_del_Some _ _ _ Hdel (Hok a)) as [Hnd Hget].
  eexists. split; [done|]. split_and!; try done.
  - intros x y. unfold is_linked, Dict.mem. simpl. case_decide; subst.
    + rewrite Hget. case_decide; subst.
      * rewrite bool_decide_eq_true_2 by done. by rewrite andb_false_r.
      * rewrite bool_decide_eq_false_2 by naive_solver. by rewrite andb_true_r.
    + rewrite bool_decide_eq_false_2 by naive_solver. by rewrite andb_true_r.
  - intros c Hc. simpl. by case_decide.
  - intros c. unfold all_links. simpl. case_decide; subst; [done|apply Hok].
Qed.







Lemma linkage_ok_Grid_init nr nc w g w' :
  Grid_init nr nc w = (Ret g, w') -> linkage_ok w' /\ unlinked w'.
Proof.
  unfold Grid_init, assert.
  repeat case_bool_decide; cbv [mbind M_bind mret M_ret raise create_links]; try done.
  intros [= <- <-]. split; [split|].
  - intros c. apply NoDup_nil_2.
  - by intros a b.
  - by intros c.
Qed.


(** C10: when [A] is linked to [B] but [B] is not linked to [A],
    [A.unlink(B)] ends in [KeyError] after [B] was removed from the links
    of [A]: the state at the exception differs from the initial one, and
    the links of [B] were not touched. *)
Theorem unlink_not_atomic (w : World) (A B : Cell) :
  dict_ok w ->
  is_linked w A B = true -> is_linked w B A = false ->
  exists w', unlink A B true w = (Raise KeyError, w') /\
    is_linked w' A B = false /\
    links w' B = links w B /\
    links w' A <> links w A.
Proof.
  intros Hok Hab Hba.
  assert (A <> B) as Hne by (intros ->; congruence).
  destruct (links_del_ok A B w Hab Hok) as (w1 & Hrun & _ & _ & Hl1 & Hframe & _).
  exists w1. unfold unlink. rewrite (bind_ret_run _ _ _ _ _ Hrun).
  assert (is_linked w1 B A = false) as Hba1.
  { rewrite Hl1, Hba. done. }
  rewrite (links_del_fail B A w1 Hba1). split_and!; try done.
  - rewrite Hl1, Hab. by rewrite bool_decide_eq_true_2.
  - by apply Hframe.
  - intros Heq. assert (is_linked w1 A B = true) as Hc.
    { unfold is_linked. by rewrite Heq. }
    rewrite Hl1, Hab in Hc. by rewrite bool_decide_eq_true_2 in Hc.
Qed.

(** ** The grid *)

Lemma elem_of_each_cell g c : c ∈ each_cell g <-> in_grid g c.
Proof.
  unfold each_cell, each_row, in_grid. rewrite list_elem_of_join. split.
  - intros (l & Hc & Hl). apply list_elem_of_fmap in Hl as (r & -> & Hr).
    apply list_elem_of_fmap in Hc as (k & -> & Hk).
    apply elem_of_seqZ in Hr, Hk. simpl. lia.
  - intros [Hr Hk]. exists ((fun k => mkCell (row c) k) <$> seqZ 0 (num_columns g)).
    split.
    + apply list_elem_of_fmap. exists (column c). split; [by destruct c|].
      apply elem_of_seqZ. lia.
    + apply list_elem_of_fmap. exists (row c). split; [done|].
      apply elem_of_seqZ. lia.
Qed.

Lemma cell_at_in_grid g r c :
  0 <= r < num_rows g -> 0 <= c < num_columns g -> cell_at g r c = Some (mkCell r c).
Proof.
  intros Hr Hc. unfold cell_at.
  by rewrite !bool_decide_eq_true_2.
Qed.

Lemma cell_at_Some g r c x : cell_at g r c = Some x -> x = mkCell r c /\ in_grid g x.
Proof.
  unfold cell_at, in_grid. repeat case_bool_decide; simpl; intros [= <-]; simpl; done.
Qed.

(** ** C6 *)

(** C6: [sidewinder] checks [0 <= odds < 1] before anything else; with
    [odds = 1.0], and with any [odds] outside the range, the call ends in
    [AssertionError] and the world (links and random state) is the one it
    was called in. *)
Theorem sidewinder_odds_precondition (g : Grid) (w : World) (odds : Q) :
  (odds < 0 \/ 1 <= odds)%Q ->
  sidewinder g odds w = (Raise AssertionError, w) /\
  sidewinder g 1 w = (Raise AssertionError, w).
Proof.
  intros Hodds. split; [|reflexivity].
  unfold sidewinder, assert.
  destruct (Qle_bool 0 odds) eqn:H0; [|reflexivity].
  destruct (Qle_bool 1 odds) eqn:H1; [reflexivity|].
  exfalso. apply Qle_bool_iff in H0.
  destruct Hodds as [Hlt|Hge].
  - by apply Qlt_not_le in Hlt.
  - apply Qle_bool_iff in Hge. congruence.
Qed.

Lemma sidewinder_odds_precondition_witness :
  sidewinder (mkGrid 2 2) 1 (mkWorld (fun _ => []) (fun _ => 0) 0) =
    (Raise AssertionError, mkWorld (fun _ => []) (fun _ => 0) 0) /\
  sidewinder (mkGrid 2 2) 1 (mkWorld (fun _ => []) (fun _ => 0) 0) =
    (Raise AssertionError, mkWorld (fun _ => []) (fun _ => 0) 0).
Proof.
  apply (sidewinder_odds_precondition (mkGrid 2 2) _ 1).
  right. apply Qle_refl.
Defined.

(** ** C8 *)

(** C8: for in-bounds coordinates of a cell that was never marked,
    [get_item_at] returns [None] while [__getitem__] of the same cell
    returns the markup's default. *)
Theorem get_item_at_unmarked {V} (g : Grid) (m : Markup V) (r c : Z) :
  0 <= r < num_rows g -> 0 <= c < num_columns g ->
  Dict.get (mkCell r c) (marks m) = None ->
  cell_at g r c = Some (mkCell r c) /\
  get_item_at g m r c = Ret None /\
  getitem m (mkCell r c) = default m.
Proof.
  intros Hr Hc Hget. split; [by apply cell_at_in_grid|]. split.
  - unfold get_item_at, assert_o.
    rewrite !bool_decide_eq_true_2 by lia. simpl.
    rewrite cell_at_in_grid by done. cbv [mbind outcome_bind]. by rewrite Hget.
  - unfold getitem. by rewrite Hget.
Qed.

Lemma get_item_at_unmarked_witness :
  cell_at (mkGrid 3 3) 1 2 = Some (mkCell 1 2) /\
  get_item_at (mkGrid 3 3) (setitem (Markup_init " "%string) (mkCell 0 0) "x"%string) 1 2
    = Ret None /\
  getitem (setitem (Markup_init " "%string) (mkCell 0 0) "x"%string) (mkCell 1 2)
    = " "%string.
Proof.
  apply (get_item_at_unmarked (mkGrid 3 3)
           (setitem (Markup_init " "%string) (mkCell 0 0) "x"%string) 1 2);
    [simpl; lia | simpl; lia | reflexivity].
Defined.

(** ** Extrema *)

Lemma extremum_from_total {A K} (better : K -> K -> bool) (f : A -> K) best l :
  exists x, extremum_from better (fun a => Ret (f a)) best (f best) l = Ret x /\
            (x = best \/ x ∈ l).
Proof.
  revert best. induction l as [|y l IH]; intros best; simpl.
  - exists best. by split; [|left].
  - cbv [mbind outcome_bind]. destruct (better (f y) (f best)).
    + destruct (IH y) as (x & -> & Hx). exists x. split; [done|].
      right. destruct Hx as [->|Hx]; [left|by right].
    + destruct (IH best) as (x & -> & Hx). exists x. split; [done|].
      destruct Hx as [->|Hx]; [by left|right; by right].
Qed.

Lemma extremum_total {A K} (better : K -> K -> bool) (f : A -> K) l :
  l <> [] ->
  exists x, extremum better (fun a => Ret (f a)) l = Ret x /\ x ∈ l.
Proof.
  destruct l as [|y l]; [done|]. intros _. simpl. cbv [mbind outcome_bind].
  destruct (extremum_from_total better f y l) as (x & -> & Hx).
  exists x. split; [done|]. destruct Hx as [->|Hx]; [left|by right].
Qed.

(** [max] returns an item whose key is not below any other key. *)
Lemma max_from_upper (f : Cell -> Z) best l x :
  extremum_from (fun k kbest => Z.ltb kbest k) (fun a => Ret (f a)) best (f best) l = Ret x ->
  f best <= f x /\ forall y, y ∈ l -> f y <= f x.
Proof.
  revert best. induction l as [|y l IH]; intros best; simpl.
  - intros [= <-]. split; [lia|]. intros y Hy. inversion Hy.
  - cbv [mbind outcome_bind]. destruct (Z.ltb_spec (f best) (f y)) as [Hlt|Hge]; intros Hx.
    + apply IH in Hx as [H1 H2]. split; [lia|].
      intros z Hz. inversion Hz; subst; auto.
    + apply IH in Hx as [H1 H2]. split; [lia|].
      intros z Hz. inversion Hz; subst; [lia|auto].
Qed.

Lemma Markup_max_upper (m : Markup Z) c :
  Markup_max Z.ltb m = Ret c ->
  forall y, y ∈ Dict.keys (marks m) -> getitem m y <= getitem m c.
Proof.
  unfold Markup_max, extremum. destruct (Dict.keys (marks m)) as [|k l]; [done|].
  cbv [mbind outcome_bind]. intros Hx y Hy.
  apply max_from_upper in Hx as [H1 H2].
  inversion Hy; subst; auto.
Qed.

Lemma dict_get_keys {K V} `{EqDecision K} (k : K) (v : V) (d : Dict.t K V) :
  Dict.get k d = Some v -> k ∈ Dict.keys d.
Proof. intros Hg. apply dict_mem_keys. unfold Dict.mem. by rewrite Hg. Qed.

(** ** intensity_colorize *)

Lemma outcome_foldl_raise {A B} (step : outcome B -> A -> outcome B) e l :
  (forall c, step (Raise e) c = Raise e) ->
  foldl step (Raise e) l = Raise e.
Proof. intros Hstep. induction l as [|x l IH]; simpl; [done|]. by rewrite Hstep. Qed.

Lemma outcome_foldl_ret {A B} (step : outcome B -> A -> outcome B) l m :
  (forall m c, exists m', step (Ret m) c = Ret m') ->
  exists m', foldl step (Ret m) l = Ret m'.
Proof.
  intros Hstep. revert m. induction l as [|x l IH]; intros m; simpl; [eauto|].
  destruct (Hstep m x) as [m' ->]. apply IH.
Qed.

Lemma each_cell_wf g : wf_grid g -> mkCell 0 0 ∈ each_cell g.
Proof. intros [Hr Hc]. apply elem_of_each_cell. unfold in_grid. simpl. lia. Qed.

Lemma intensity_colorize_zero g self markup c :
  wf_grid g ->
  Markup_max Z.ltb markup = Ret c -> getitem markup c = 0 ->
  intensity_colorize g self markup = Raise ZeroDivisionError.
Proof.
  intros Hwf Hmax H0. unfold intensity_colorize. rewrite Hmax.
  cbv [mbind outcome_bind]. rewrite H0.
  apply each_cell_wf in Hwf. destruct (each_cell g) as [|x l]; [inversion Hwf|].
  simpl. by rewrite outcome_foldl_raise.
Qed.

Lemma intensity_colorize_nonzero g self markup c :
  Markup_max Z.ltb markup = Ret c -> getitem markup c <> 0 ->
  exists r, intensity_colorize g self markup = Ret r.
Proof.
  intros Hmax H0. unfold intensity_colorize. rewrite Hmax.
  cbv [mbind outcome_bind].
  match goal with
  | |- context [foldl ?step (Ret ?m) ?l] =>
      assert (exists m', foldl step (Ret m) l = Ret m') as [m' ->]; [|eauto]
  end.
  apply outcome_foldl_ret.
  intros m c0. simpl. rewrite (bool_decide_eq_false_2 (getitem markup c = 0)) by done.
  repeat case_bool_decide; eauto.
Qed.

(** ** C7 *)

(** C7: [Markup.max] and [Markup.min] of an empty table end in
    [ValueError] (an empty-sequence error); [intensity_colorize] of a
    markup whose maximum value is 0 ends in [ZeroDivisionError]; when some
    cell is marked with a positive value, [max] and [min] return a cell and
    [intensity_colorize] returns normally. *)
Theorem degenerate_markup_extrema (g : Grid) (self : ColorizedMarkup) (markup : Markup Z) :
  wf_grid g ->
  (marks markup = [] ->
     Markup_max Z.ltb markup = Raise ValueError /\
     Markup_min Z.ltb markup = Raise ValueError) /\
  (forall c, Markup_max Z.ltb markup = Ret c -> getitem markup c = 0 ->
     intensity_colorize g self markup = Raise ZeroDivisionError) /\
  (forall c v, Dict.get c (marks markup) = Some v -> 0 < v ->
     (exists cmax, Markup_max Z.ltb markup = Ret cmax /\ 0 < getitem markup cmax) /\
     (exists cmin, Markup_min Z.ltb markup = Ret cmin) /\
     (exists r, intensity_colorize g self markup = Ret r)).
Proof.
  intros Hwf. split_and!.
  - intros Hm. unfold Markup_max, Markup_min. by rewrite Hm.
  - intros c. by apply intensity_colorize_zero.
  - intros c v Hget Hv.
    assert (Dict.keys (marks markup) <> []) as Hne.
    { apply dict_get_keys in Hget. intros Hnil. rewrite Hnil in Hget. inversion Hget. }
    destruct (extremum_total (fun k kbest => Z.ltb kbest k) (getitem markup) _ Hne)
      as (cmax & Hmax & _).
    destruct (extremum_total (fun k kbest => Z.ltb k kbest) (getitem markup) _ Hne)
      as (cmin & Hmin & _).
    assert (0 < getitem markup cmax) as Hpos.
    { pose proof (Markup_max_upper markup cmax Hmax c (dict_get_keys _ _ _ Hget)) as Hle.
      unfold getitem in Hle at 1. rewrite Hget in Hle. lia. }
    split_and!; [by exists cmax|by exists cmin|].
    apply (intensity_colorize_nonzero g self markup cmax Hmax). lia.
Qed.

Lemma degenerate_markup_extrema_witness :
  Markup_max Z.ltb (Markup_init 0) = Raise ValueError /\
  (exists r, intensity_colorize (mkGrid 1 2)
               (mkColorized (Markup_init (inl " "%string)) "R")
               (setitem (setitem (Markup_init 0) (mkCell 0 0) 0) (mkCell 0 1) 1) = Ret r) /\
  intensity_colorize (mkGrid 1 2) (mkColorized (Markup_init (inl " "%string)) "R")
    (setitem (Markup_init 0) (mkCell 0 0) 0) = Raise ZeroDivisionError.
Proof.
  assert (wf_grid (mkGrid 1 2)) as Hwf by (unfold wf_grid; simpl; lia).
  split_and!.
  - apply (degenerate_markup_extrema (mkGrid 1 2)
             (mkColorized (Markup_init (inl " "%string)) "R") (Markup_init 0) Hwf).
    reflexivity.
  - apply (degenerate_markup_extrema (mkGrid 1 2)
             (mkColorized (Markup_init (inl " "%string)) "R")
             (setitem (setitem (Markup_init 0) (mkCell 0 0) 0) (mkCell 0 1) 1) Hwf)
      with (c := mkCell 0 1) (v := 1); [reflexivity|lia].
  - apply (degenerate_markup_extrema (mkGrid 1 2)
             (mkColorized (Markup_init (inl " "%string)) "R")
             (setitem (Markup_init 0) (mkCell 0 0) 0) Hwf)
      with (c := mkCell 0 0); reflexivity.
Defined.


Lemma unlink_not_atomic_witness :
  let w := (link (mkCell 0 0) (mkCell 0 1) false (mkWorld (fun _ => []) (fun _ => 0) 0)).2 in
  exists w', unlink (mkCell 0 0) (mkCell 0 1) true w = (Raise KeyError, w') /\
    is_linked w' (mkCell 0 0) (mkCell 0 1) = false /\
    links w' (mkCell 0 1) = links w (mkCell 0 1) /\
    links w' (mkCell 0 0) <> links w (mkCell 0 0).
Proof.
  intros w. apply (unlink_not_atomic w (mkCell 0 0) (mkCell 0 1)).
  - intros c. unfold all_links, w. simpl. case_decide.
    + apply NoDup_singleton.
    + apply NoDup_nil_2.
  - reflexivity.
  - reflexivity.
Defined.

(** ** Counting *)

Section Counting.
Context {A : Type} `{EqDecision A}.
Context (P Q : A -> Prop) `{!forall x, Decision (P x)} `{!forall x, Decision (Q x)}.

Lemma filter_ext_in (l : list A) :
  (forall y, y ∈ l -> (P y <-> Q y)) -> filter Q l = filter P l.
Proof.
  induction l as [|a l IH]; intros Hext; [done|].
  assert (P a <-> Q a) as Ha by (apply Hext; left).
  assert (filter Q l = filter P l) as Hl.
  { apply IH. intros y Hy. apply Hext. by right. }
  destruct (decide (P a)) as [HP|HP].
  - rewrite !filter_cons_True by tauto. by rewrite Hl.
  - rewrite !filter_cons_False by tauto. done.
Qed.

Lemma filter_length_flip (l : list A) (x : A) :
  NoDup l -> x ∈ l -> ~ P x -> Q x ->
  (forall y, y ∈ l -> y <> x -> (P y <-> Q y)) ->
  length (filter Q l) = S (length (filter P l)).
Proof.
  induction l as [|a l IH]; intros Hnd Hx HP HQ Hext; [inversion Hx|].
  apply NoDup_cons in Hnd as [Ha Hnd].
  destruct (decide (a = x)) as [->|Hne].
  - rewrite filter_cons_True, filter_cons_False by done. simpl. f_equal.
    f_equal. apply filter_ext_in. intros y Hy. apply Hext; [by right|].
    intros ->. done.
  - assert (x ∈ l) as Hxl by (inversion Hx; subst; done).
    assert (P a <-> Q a) as Hiff by (apply Hext; [left|done]).
    assert (length (filter Q l) = S (length (filter P l))) as Hl.
    { apply IH; try done. intros y Hy. apply Hext. by right. }
    destruct (decide (P a)) as [HPa|HPa].
    + rewrite !filter_cons_True by tauto. simpl. by rewrite Hl.
    + rewrite !filter_cons_False by tauto. done.
Qed.

Lemma filter_length_all (l : list A) :
  length (filter P l) = length l -> forall y, y ∈ l -> P y.
Proof.
  induction l as [|a l IH]; intros Hlen y Hy; [inversion Hy|].
  pose proof (length_filter P l) as Hle.
  destruct (decide (P a)) as [HPa|HPa].
  - rewrite filter_cons_True in Hlen by done. simpl in Hlen.
    inversion Hy; subst; [done|]. apply IH; [lia|done].
  - rewrite filter_cons_False in Hlen by done. simpl in Hlen. lia.
Qed.

Lemma filter_length_True (l : list A) :
  (forall y, y ∈ l -> P y) -> length (filter P l) = length l.
Proof.
  induction l as [|a l IH]; intros Hall; [done|].
  rewrite filter_cons_True by (apply Hall; left). simpl. f_equal.
  apply IH. intros y Hy. apply Hall. by right.
Qed.

Lemma filter_length_False (l : list A) :
  (forall y, y ∈ l -> ~ P y) -> length (filter P l) = 0%nat.
Proof.
  induction l as [|a l IH]; intros Hall; [done|].
  rewrite filter_cons_False by (apply Hall; left).
  apply IH. intros y Hy. apply Hall. by right.
Qed.
End Counting.

Lemma NoDup_list_prod {A B} (l : list A) (k : list B) :
  NoDup l -> NoDup k -> NoDup (list_prod l k).
Proof.
  intros Hl Hk. induction Hl as [|a l Ha Hl IH]; simpl; [constructor|].
  apply NoDup_app. split_and!; [|  |done].
  - by apply (NoDup_fmap_2 (fun y => (a, y))).
  - intros [x y] Hxy Hin. apply list_elem_of_fmap in Hxy as (y' & [= -> ->] & _).
    rewrite <- list_cprod_list_prod in Hin. apply list_elem_of_cprod in Hin as [Hin _].
    done.
Qed.

(** ** The grid *)

Lemma NoDup_cells (rows cols : list Z) :
  NoDup rows -> NoDup cols ->
  NoDup (mjoin ((fun r => (fun c => mkCell r c) <$> cols) <$> rows)).
Proof.
  intros Hr Hc. induction Hr as [|r rows Hr Hrows IH]; simpl; [constructor|].
  apply NoDup_app. split_and!; [| |done].
  - apply (NoDup_fmap_2_strong (fun c => mkCell r c)); [by intros ???? [=]|done].
  - intros c Hc1 Hc2. apply list_elem_of_fmap in Hc1 as (k & -> & _).
    apply list_elem_of_join in Hc2 as (l & Hk & Hl).
    apply list_elem_of_fmap in Hl as (r' & -> & Hr').
    apply list_elem_of_fmap in Hk as (k' & [= -> ->] & _). done.
Qed.

Lemma NoDup_each_cell g : NoDup (each_cell g).
Proof. apply NoDup_cells; apply NoDup_seqZ. Qed.

Lemma length_cells (rows cols : list Z) :
  length (mjoin ((fun r => (fun c => mkCell r c) <$> cols) <$> rows))
  = (length rows * length cols)%nat.
Proof.
  induction rows as [|r rows IH]; csimpl; [done|].
  by rewrite length_app, length_fmap, IH.
Qed.

Lemma length_each_cell g : wf_grid g -> Z.of_nat (length (each_cell g)) = size g.
Proof.
  intros [Hr Hc]. unfold each_cell, each_row, size.
  rewrite length_cells, !length_seqZ. lia.
Qed.

Lemma Cell_lt_irrefl a : Cell_lt a a = false.
Proof.
  unfold Cell_lt. repeat case_bool_decide; simpl; try done; lia.
Qed.

Lemma Cell_lt_asym a b : Cell_lt a b = true -> Cell_lt b a = false.
Proof.
  unfold Cell_lt. repeat case_bool_decide; simpl; try done; lia.
Qed.

Lemma Cell_lt_total a b : a <> b -> Cell_lt a b = false -> Cell_lt b a = true.
Proof.
  unfold Cell_lt. destruct a as [r1 c1], b as [r2 c2]. simpl.
  intros Hne. repeat case_bool_decide; simpl; try done;
    destruct Hne; f_equal; lia.
Qed.

(** ** Trees of links *)

Lemma undirected_ext (E E' : rel) p :
  (E p.1 p.2 || E p.2 p.1 = E' p.1 p.2 || E' p.2 p.1) ->
  undirected E p = undirected E' p.
Proof. unfold undirected. by intros ->. Qed.

Lemma undirected_mono (E E' : rel) p :
  (forall x y, E x y = true -> E' x y = true) ->
  undirected E p = true -> undirected E' p = true.
Proof.
  unfold undirected. intros Hle HE.
  apply andb_true_iff in HE as [-> HE]. simpl.
  apply orb_true_iff in HE as [HE|HE]; apply Hle in HE; rewrite HE;
    by rewrite ?orb_true_r.
Qed.

(** A new link between two distinct cells of the grid is one more
    undirected link. *)
Lemma n_links_add g (E E' : rel) a b :
  in_grid g a -> in_grid g b -> a <> b ->
  E a b = false -> E b a = false ->
  (forall x y, E' x y = E x y || bool_decide (x = a /\ y = b) || bool_decide (x = b /\ y = a)) ->
  n_links g E' = S (n_links g E).
Proof.
  intros Ha Hb Hne Hab Hba HE'. unfold n_links.
  set (p0 := if Cell_lt a b then (a, b) else (b, a)).
  assert (undirected E' p0 = true /\ undirected E p0 = false /\
          (p0 = (a, b) \/ p0 = (b, a)) /\
          undirected E' (p0.2, p0.1) = false) as (H1 & H2 & H3 & H4).
  { unfold p0, undirected. destruct (Cell_lt a b) eqn:Hlt; simpl.
    - rewrite (Cell_lt_asym _ _ Hlt), Hlt, !HE', Hab, Hba. simpl.
      rewrite (bool_decide_eq_true_2 (a = a /\ b = b)) by done. auto.
    - rewrite Hlt, (Cell_lt_total _ _ Hne Hlt), !HE', Hab, Hba. simpl.
      rewrite (bool_decide_eq_true_2 (a = a /\ b = b)) by done.
      rewrite !orb_true_r. auto. }
  apply (filter_length_flip _ _ _ p0).
  - apply NoDup_list_prod; apply NoDup_each_cell.
  - rewrite <- list_cprod_list_prod. apply list_elem_of_cprod.
    rewrite !elem_of_each_cell. destruct H3 as [-> | ->]; done.
  - by rewrite H2.
  - done.
  - intros [x y] _ Hp. simpl.
    destruct (decide ((x = a /\ y = b) \/ (x = b /\ y = a))) as [Hxy|Hxy].
    + assert ((x, y) = (p0.2, p0.1)) as ->.
      { destruct H3 as [Hp0|Hp0]; rewrite Hp0 in *; simpl;
          destruct Hxy as [[-> ->]|[-> ->]]; done. }
      rewrite H4. split; [|done]. intros HE.
      rewrite <- H4. apply (undirected_mono E E'); [|done].
      intros u v Huv. rewrite HE', Huv. done.
    + rewrite (undirected_ext E' E); [done|]. simpl. rewrite !HE'.
      rewrite !bool_decide_eq_false_2 by tauto. by rewrite !orb_false_r.
Qed.

Lemma n_links_ext g (E E' : rel) :
  (forall a b, E a b = E' a b) -> n_links g E = n_links g E'.
Proof.
  intros Hext. unfold n_links. f_equal. apply filter_ext_in.
  intros p _. unfold undirected. by rewrite !Hext.
Qed.

Lemma n_links_empty g (E : rel) : (forall a b, E a b = false) -> n_links g E = 0%nat.
Proof.
  intros HE. unfold n_links. apply filter_length_False.
  intros p _. unfold undirected. rewrite !HE. by rewrite andb_false_r.
Qed.

Lemma rtc_rel_sym (E : rel) a b :
  (forall x y, E x y = E y x) ->
  rtc (fun x y => E x y = true) a b -> rtc (fun x y => E x y = true) b a.
Proof.
  intros Hsym Hab. induction Hab as [|x y z Hxy _ IH]; [done|].
  eapply rtc_r; [exact IH|]. by rewrite Hsym.
Qed.

Lemma rtc_rel_mono (E E' : rel) a b :
  (forall x y, E x y = true -> E' x y = true) ->
  rtc (fun x y => E x y = true) a b -> rtc (fun x y => E' x y = true) a b.
Proof. intros Hle. apply rtc_subrel. intros x y. apply Hle. Qed.

Lemma tree_ext g (V V' : Cell -> bool) (E E' : rel) :
  (forall c, V c = V' c) -> (forall a b, E a b = E' a b) ->
  tree_on g V E -> tree_on g V' E'.
Proof.
  intros HV HE (T1 & T2 & T3 & T4 & T5). split_and!.
  - intros c. rewrite <- HV. apply T1.
  - intros a b. rewrite <- HE, <- !HV. apply T2.
  - intros a b. rewrite <- !HE. apply T3.
  - intros a b. rewrite <- !HV. intros Ha Hb.
    eapply rtc_rel_mono; [|by apply T4]. intros x y. by rewrite HE.
  - rewrite <- (n_links_ext g E E' HE), T5. f_equal.
    apply filter_ext_in. intros c _. by rewrite HV.
Qed.

Lemma tree_single g (V : Cell -> bool) (E : rel) r :
  in_grid g r ->
  (forall c, V c = bool_decide (c = r)) -> (forall a b, E a b = false) ->
  tree_on g V E.
Proof.
  intros Hr HV HE. split_and!.
  - intros c. rewrite HV. intros ->%bool_decide_eq_true. done.
  - intros a b. by rewrite HE.
  - intros a b. by rewrite !HE.
  - intros a b. rewrite !HV. intros ->%bool_decide_eq_true ->%bool_decide_eq_true. done.
  - rewrite (n_links_empty g E HE). simpl.
    rewrite (filter_length_flip (fun _ => False) (fun c => V c = true) (each_cell g) r).
    + rewrite (filter_length_False (fun _ => False)); [done|]. by intros ? _ ?.
    + apply NoDup_each_cell.
    + by apply elem_of_each_cell.
    + tauto.
    + rewrite HV. by apply bool_decide_eq_true.
    + intros y _ Hy. rewrite HV. split; [done|].
      by intros ?%bool_decide_eq_true.
Qed.

(** Linking a cell outside the tree to a cell of the tree. *)
Lemma tree_add_leaf g (V V' : Cell -> bool) (E E' : rel) a b :
  tree_on g V E ->
  V a = true -> V b = false -> in_grid g b ->
  (forall x y, E' x y = E x y || bool_decide (x = a /\ y = b) || bool_decide (x = b /\ y = a)) ->
  (forall c, V' c = V c || bool_decide (c = b)) ->
  tree_on g V' E'.
Proof.
  intros (T1 & T2 & T3 & T4 & T5) Ha Hb Hbg HE' HV'.
  assert (a <> b) as Hne by (intros ->; congruence).
  assert (forall x y, E x y = true -> E' x y = true) as Hle.
  { intros x y Hxy. by rewrite HE', Hxy. }
  assert (forall x y, E' x y = E' y x) as Hsym.
  { intros x y. rewrite !HE', (T3 x y). rewrite <- !orb_assoc. f_equal.
    rewrite orb_comm. f_equal; apply bool_decide_ext; tauto. }
  assert (forall x, V' x = true -> rtc (fun x y => E' x y = true) x a) as Hto.
  { intros x. rewrite HV'. intros [Hx| ->%bool_decide_eq_true]%orb_true_iff.
    - eapply rtc_rel_mono; [exact Hle|]. by apply T4.
    - apply rtc_once. rewrite HE'.
      rewrite (bool_decide_eq_true_2 (b = b /\ a = a)) by done. by rewrite orb_true_r. }
  split_and!.
  - intros c. rewrite HV'. intros [Hc| ->%bool_decide_eq_true]%orb_true_iff; auto.
  - intros x y. rewrite HE', !HV'.
    intros [[Hxy|[-> ->]%bool_decide_eq_true]%orb_true_iff
           |[-> ->]%bool_decide_eq_true]%orb_true_iff.
    + apply T2 in Hxy as [-> ->]. done.
    + rewrite Ha. rewrite (bool_decide_eq_true_2 (b = b)) by done.
      by rewrite orb_true_r.
    + rewrite Ha. rewrite (bool_decide_eq_true_2 (b = b)) by done.
      by rewrite orb_true_r.
  - done.
  - intros x y Hx Hy. etrans; [by apply Hto|].
    apply rtc_rel_sym; [done|]. by apply Hto.
  - rewrite (n_links_add g E E' a b); auto.
    + simpl. rewrite T5.
      symmetry. apply (filter_length_flip _ _ _ b).
      * apply NoDup_each_cell.
      * by apply elem_of_each_cell.
      * congruence.
      * rewrite HV'. rewrite (bool_decide_eq_true_2 (b = b)) by done.
        by rewrite orb_true_r.
      * intros y _ Hy. rewrite HV'. rewrite bool_decide_eq_false_2 by done.
        by rewrite orb_false_r.
    + destruct (E a b) eqn:Hab; [|done]. apply T2 in Hab as [_ ?]. congruence.
    + destruct (E b a) eqn:Hab; [|done]. apply T2 in Hab as [? _]. congruence.
Qed.

Lemma edge_in_nil x y : edge_in [] x y = false.
Proof.
  unfold edge_in. apply bool_decide_eq_false_2. intros [H|H]; inversion H.
Qed.

Lemma edge_in_cons a b L x y :
  edge_in ((a, b) :: L) x y =
  edge_in L x y || bool_decide (x = a /\ y = b) || bool_decide (x = b /\ y = a).
Proof.
  apply eq_true_iff_eq. unfold edge_in.
  rewrite !orb_true_iff, !bool_decide_eq_true, !elem_of_cons. naive_solver.
Qed.

Lemma edge_in_app L1 L2 x y :
  edge_in (L1 ++ L2) x y = edge_in L1 x y || edge_in L2 x y.
Proof.
  apply eq_true_iff_eq. unfold edge_in.
  rewrite !orb_true_iff, !bool_decide_eq_true, !elem_of_app. tauto.
Qed.

Lemma edge_in_sym L x y : edge_in L x y = edge_in L y x.
Proof. unfold edge_in. apply bool_decide_ext. tauto. Qed.

Lemma edge_in_true L x y : edge_in L x y = true <-> (x, y) ∈ L \/ (y, x) ∈ L.
Proof. unfold edge_in. apply bool_decide_eq_true. Qed.

(** Linking several new cells, each to a cell of the tree. *)
Lemma tree_add_leaves g (L : list (Cell * Cell)) :
  forall (V V' : Cell -> bool) (E E' : rel),
  tree_on g V E ->
  NoDup L.*1 ->
  (forall c p, (c, p) ∈ L -> V c = false /\ in_grid g c /\ V p = true) ->
  (forall x y, E' x y = E x y || edge_in L x y) ->
  (forall c, V' c = V c || bool_decide (c ∈ L.*1)) ->
  tree_on g V' E'.
Proof.
  induction L as [|[c p] L IH]; intros V V' E E' HT Hnd HL HE' HV'.
  - eapply tree_ext; [| |exact HT].
    + intros x. rewrite HV'. apply eq_true_iff_eq.
      rewrite orb_true_iff, bool_decide_eq_true. simpl. rewrite elem_of_nil. tauto.
    + intros x y. by rewrite HE', edge_in_nil, orb_false_r.
  - simpl in Hnd. apply NoDup_cons in Hnd as [Hc Hnd].
    destruct (HL c p) as (Hc1 & Hc2 & Hp); [left|].
    set (V1 := fun x => V x || bool_decide (x = c)).
    set (E1 := fun x y => E x y || bool_decide (x = p /\ y = c) || bool_decide (x = c /\ y = p)).
    assert (tree_on g V1 E1) as HT1 by (by eapply (tree_add_leaf g V V1 E E1 p c)).
    apply (IH V1 V' E1 E' HT1 Hnd).
    + intros c' p' Hin. destruct (HL c' p') as (H1 & H2 & H3); [by right|].
      unfold V1. rewrite H1, H3. split_and!; try done. simpl.
      apply bool_decide_eq_false_2. intros ->. apply Hc.
      apply list_elem_of_fmap. by exists (c, p').
    + intros x y. rewrite HE', edge_in_cons. unfold E1.
      destruct (E x y), (edge_in L x y); simpl; try done;
        repeat case_bool_decide; try done; exfalso; tauto.
    + intros x. rewrite HV'. unfold V1. apply eq_true_iff_eq.
      rewrite !orb_true_iff, !bool_decide_eq_true. simpl. rewrite elem_of_cons. tauto.
Qed.

Lemma consec_cons a b l : consec (a :: b :: l) = (a, b) :: consec (b :: l).
Proof. reflexivity. Qed.

(** Linking a chain of new cells whose last cell is in the tree. *)
Lemma tree_add_chain g (l : list Cell) :
  forall (V V' : Cell -> bool) (E E' : rel) (t : Cell),
  tree_on g V E ->
  V t = true -> NoDup l ->
  (forall c, c ∈ l -> V c = false /\ in_grid g c) ->
  (forall x y, E' x y = E x y || edge_in (consec (l ++ [t])) x y) ->
  (forall c, V' c = V c || bool_decide (c ∈ l)) ->
  tree_on g V' E'.
Proof.
  induction l as [|p0 l IH]; intros V V' E E' t HT Ht Hnd Hl HE' HV'.
  - eapply tree_ext; [| |exact HT].
    + intros x. rewrite HV'. apply eq_true_iff_eq.
      rewrite orb_true_iff, bool_decide_eq_true, elem_of_nil. tauto.
    + intros x y. by rewrite HE', edge_in_nil, orb_false_r.
  - apply NoDup_cons in Hnd as [Hp0 Hnd].
    destruct (Hl p0) as [Hp0V Hp0g]; [left|].
    set (V1 := fun x => V x || bool_decide (x ∈ l)).
    set (E1 := fun x y => E x y || edge_in (consec (l ++ [t])) x y).
    assert (tree_on g V1 E1) as HT1.
    { apply (IH V V1 E E1 t); try done. intros c Hc. apply Hl. by right. }
    assert (exists h rest, l ++ [t] = h :: rest /\ V1 h = true) as (h & rest & Heq & Hh).
    { destruct l as [|h l']; simpl.
      - exists t, []. split; [done|]. unfold V1. by rewrite Ht.
      - exists h, (l' ++ [t]). split; [done|]. unfold V1.
        rewrite (bool_decide_eq_true_2 (h ∈ h :: l')) by left. by rewrite orb_true_r. }
    apply (tree_add_leaf g V1 V' E1 E' h p0 HT1 Hh); try done.
    + unfold V1. rewrite Hp0V. simpl. by apply bool_decide_eq_false_2.
    + intros x y. rewrite HE'. unfold E1.
      rewrite <- app_comm_cons, Heq, consec_cons, edge_in_cons.
      destruct (E x y), (edge_in (consec (h :: rest)) x y); simpl; try done;
        repeat case_bool_decide; try done; exfalso; tauto.
    + intros x. rewrite HV'. unfold V1. apply eq_true_iff_eq.
      rewrite !orb_true_iff, !bool_decide_eq_true, elem_of_cons. tauto.
Qed.

(** A tree that covers the grid is a spanning tree. *)
Lemma tree_spanning g w (V : Cell -> bool) :
  wf_grid g ->
  tree_on g V (is_linked w) ->
  (forall c, in_grid g c -> V c = true) ->
  spanning_tree g w.
Proof.
  intros Hwf (T1 & T2 & T3 & T4 & T5) Hall. split_and!.
  - intros a b Hab. apply T2 in Hab as [Ha Hb]. auto.
  - intros a b. apply T3.
  - intros a b Ha Hb. apply T4; auto.
  - unfold undirected_links. fold (n_links g (is_linked w)).
    rewrite <- (length_each_cell g Hwf).
    rewrite <- (filter_length_True (fun c => V c = true) (each_cell g)).
    + lia.
    + intros c Hc. apply Hall. by apply elem_of_each_cell.
Qed.

(** ** Rules for [post] *)

Lemma post_ret p {A} (a : A) w (Q : A -> World -> Prop) : Q a w -> post p (mret a) w Q.
Proof. done. Qed.

Lemma post_bind p {A B} (m : M A) (f : A -> M B) w (Q : B -> World -> Prop) :
  post p m w (fun a w' => post p (f a) w' Q) -> post p (m ≫= f) w Q.
Proof.
  unfold post. rewrite bind_run. by destruct (m w) as [[a|e|] w'].
Qed.

Lemma post_mono p {A} (m : M A) w (Q Q' : A -> World -> Prop) :
  post p m w Q -> (forall a w', Q a w' -> Q' a w') -> post p m w Q'.
Proof.
  unfold post. destruct (m w) as [[a|e|] w']; auto.
Qed.


Lemma post_total {A} (m : M A) w (Q : A -> World -> Prop) :
  post false m w Q -> exists a w', m w = (Ret a, w') /\ Q a w'.
Proof.
  unfold post. destruct (m w) as [[a|e|] w']; try done. eauto.
Qed.


(** ** Worlds that only gain links *)

Lemma extends_refl w : extends w w [].
Proof.
  split_and!; try done. intros x y. by rewrite edge_in_nil, orb_false_r.
Qed.

Lemma extends_trans w w' w'' L L' :
  extends w w' L -> extends w' w'' L' -> extends w w'' (L ++ L').
Proof.
  intros (H1 & H2 & H3) (H1' & H2' & H3'). split_and!.
  - congruence.
  - intros x y. by rewrite H2', H2, edge_in_app, orb_assoc.
  - auto.
Qed.

Lemma extends_ext w w' L L' :
  (forall x y, edge_in L x y = edge_in L' x y) -> extends w w' L -> extends w w' L'.
Proof.
  intros Hext (H1 & H2 & H3). split_and!; try done.
  intros x y. by rewrite H2, Hext.
Qed.

Lemma post_draw p w (Q : Z -> World -> Prop) :
  (forall d w', extends w w' [] -> Q d w') -> post p draw w Q.
Proof.
  intros HQ. unfold post, draw. apply HQ. split_and!; try done.
  intros x y. by rewrite edge_in_nil, orb_false_r.
Qed.

Lemma post_choice p {A} (l : list A) w (Q : A -> World -> Prop) :
  l <> [] ->
  (forall x w', x ∈ l -> extends w w' [] -> Q x w') ->
  post p (choice l) w Q.
Proof.
  intros Hne HQ. destruct l as [|x0 l]; [done|]. unfold choice.
  apply post_bind, post_draw. intros d w' Hw'. apply post_ret, HQ; [|done].
  apply list_elem_of_In, nth_In.
  assert (0 <= d `mod` Z.of_nat (length (x0 :: l)) < Z.of_nat (length (x0 :: l))).
  { apply Z.mod_pos_bound. simpl. lia. }
  lia.
Qed.


Lemma post_random p w (Q : Q -> World -> Prop) :
  (forall x w', extends w w' [] -> Q x w') -> post p random w Q.
Proof.
  intros HQ. unfold random. apply post_bind, post_draw. intros d w' Hw'.
  by apply post_ret, HQ.
Qed.


Lemma post_link p a b w (Q : unit -> World -> Prop) :
  (forall w', extends w w' [(a, b)] -> Q tt w') -> post p (link a b true) w Q.
Proof.
  intros HQ. unfold post.
  destruct (link_run a b w) as (w' & -> & Hrng & _ & Hl & Hok).
  apply HQ. split_and!; try done.
  intros x y. by rewrite Hl, edge_in_cons, edge_in_nil, <- orb_assoc.
Qed.

Lemma post_assert p b w (Q : unit -> World -> Prop) :
  b = true -> Q tt w -> post p (assert b) w Q.
Proof. by intros ->. Qed.

(** ** Rules for loops *)

Lemma post_for_fold_gen p {A S} (body : A -> S -> M S)
    (I : list A -> S -> World -> Prop) (l : list A) :
  forall pre s w,
  I pre s w ->
  (forall pre' x suf s w, pre ++ l = pre' ++ x :: suf -> I pre' s w ->
     post p (body x s) w (fun s' w' => I (pre' ++ [x]) s' w')) ->
  post p (for_fold l s body) w (fun s' w' => I (pre ++ l) s' w').
Proof.
  induction l as [|x l IH]; intros pre s w HI Hbody; simpl.
  - apply post_ret. by rewrite app_nil_r.
  - apply post_bind. eapply post_mono; [by apply (Hbody pre x l)|].
    intros s' w' HI'. simpl. replace (pre ++ x :: l) with ((pre ++ [x]) ++ l)
      by (by rewrite <- app_assoc).
    apply IH; [done|]. intros pre' y suf s0 w0 Heq. apply (Hbody pre' y suf).
    by rewrite <- Heq, <- app_assoc.
Qed.

Lemma post_for_fold p {A S} (body : A -> S -> M S)
    (I : list A -> S -> World -> Prop) (l : list A) s w :
  I [] s w ->
  (forall pre x suf s w, l = pre ++ x :: suf -> I pre s w ->
     post p (body x s) w (fun s' w' => I (pre ++ [x]) s' w')) ->
  post p (for_fold l s body) w (fun s' w' => I l s' w').
Proof. intros HI Hbody. by apply (post_for_fold_gen p body I l []). Qed.

Lemma post_for_each_gen p {A} (body : A -> M unit)
    (I : list A -> World -> Prop) (l : list A) :
  forall pre w,
  I pre w ->
  (forall pre' x suf w, pre ++ l = pre' ++ x :: suf -> I pre' w ->
     post p (body x) w (fun _ w' => I (pre' ++ [x]) w')) ->
  post p (for_each l body) w (fun _ w' => I (pre ++ l) w').
Proof.
  induction l as [|x l IH]; intros pre w HI Hbody; simpl.
  - apply post_ret. by rewrite app_nil_r.
  - apply post_bind. eapply post_mono; [by apply (Hbody pre x l)|].
    intros [] w' HI'. simpl. replace (pre ++ x :: l) with ((pre ++ [x]) ++ l)
      by (by rewrite <- app_assoc).
    apply IH; [done|]. intros pre' y suf w0 Heq. apply (Hbody pre' y suf).
    by rewrite <- Heq, <- app_assoc.
Qed.

Lemma post_for_each p {A} (body : A -> M unit)
    (I : list A -> World -> Prop) (l : list A) w :
  I [] w ->
  (forall pre x suf w, l = pre ++ x :: suf -> I pre w ->
     post p (body x) w (fun _ w' => I (pre ++ [x]) w')) ->
  post p (for_each l body) w (fun _ w' => I l w').
Proof. intros HI Hbody. by apply (post_for_each_gen p body I l []). Qed.



(** A [while] loop whose invariant keeps the condition true never ends. *)
Lemma while_diverges {S} (cond : S -> bool) (body : S -> M S)
    (I : S -> World -> Prop) (fuel : nat) :
  forall s w,
  I s w ->
  (forall s w, I s w ->
     cond s = true /\ exists s' w', body s w = (Ret s', w') /\ I s' w') ->
  (while fuel cond body s w).1 = OutOfFuel.
Proof.
  induction fuel as [|fuel IH]; intros s w HI Hbody; simpl;
    destruct (Hbody s w HI) as (-> & s' & w' & Hrun & HI'); [done|].
  rewrite (bind_ret_run _ _ _ _ _ Hrun). by apply IH.
Qed.

(** ** Neighbors *)

Lemma elem_of_neighbors g c n :
  n ∈ neighbors g c <->
  north g c = Some n \/ south g c = Some n \/ east g c = Some n \/ west g c = Some n.
Proof.
  unfold neighbors. rewrite list_elem_of_omap. split.
  - intros (o & Ho & Hn). simpl in Hn. subst o.
    rewrite !elem_of_cons, elem_of_nil in Ho. naive_solver.
  - intros H. exists (Some n). split; [|done].
    rewrite !elem_of_cons. naive_solver.
Qed.

Lemma neighbors_in_grid g c n :
  in_grid g c -> n ∈ neighbors g c -> in_grid g n /\ n <> c.
Proof.
  intros [Hr Hc] Hn. apply elem_of_neighbors in Hn.
  unfold north, south, east, west, in_grid in *.
  destruct c as [r k]. simpl in *.
  destruct Hn as [Hn|[Hn|[Hn|Hn]]]; case_bool_decide; simplify_eq; simpl;
    (split; [lia|intros [=]; lia]).
Qed.

Lemma neighbors_nonempty g c :
  in_grid g c -> 1 < size g -> neighbors g c <> [].
Proof.
  intros [Hr Hc] Hsize Hnil.
  assert (forall n, n ∉ neighbors g c) as Hno.
  { intros n. rewrite Hnil. apply not_elem_of_nil. }
  unfold size in Hsize.
  assert (1 < num_rows g \/ 1 < num_columns g) as [H|H] by nia.
  - destruct (decide (row c = 0)) as [H0|H0].
    + apply (Hno (mkCell (row c + 1) (column c))). apply elem_of_neighbors.
      right; left. unfold south. rewrite bool_decide_eq_true_2 by lia. done.
    + apply (Hno (mkCell (row c - 1) (column c))). apply elem_of_neighbors.
      left. unfold north. rewrite bool_decide_eq_true_2 by lia. done.
  - destruct (decide (column c = 0)) as [H0|H0].
    + apply (Hno (mkCell (row c) (column c + 1))). apply elem_of_neighbors.
      right; right; left. unfold east. rewrite bool_decide_eq_true_2 by lia. done.
    + apply (Hno (mkCell (row c) (column c - 1))). apply elem_of_neighbors.
      right; right; right. unfold west. rewrite bool_decide_eq_true_2 by lia. done.
Qed.

(** ** Lists of visited cells *)


Lemma visited_length g (visited : list Cell) :
  NoDup visited -> (forall c, c ∈ visited -> in_grid g c) ->
  (length visited <= length (each_cell g))%nat.
Proof.
  intros Hnd Hsub. apply submseteq_length, NoDup_submseteq; [done|].
  intros x Hx. by apply elem_of_each_cell, Hsub.
Qed.

Lemma unlinked_is_linked w a b : unlinked w -> is_linked w a b = false.
Proof. intros Hw. unfold is_linked. by rewrite Hw. Qed.

Lemma extends_nil_is_linked w w' a b :
  extends w w' [] -> is_linked w' a b = is_linked w a b.
Proof. intros (_ & H & _). by rewrite H, edge_in_nil, orb_false_r. Qed.



Lemma edge_in_single a b x y :
  edge_in [(a, b)] x y = bool_decide (x = a /\ y = b) || bool_decide (x = b /\ y = a).
Proof. by rewrite edge_in_cons, edge_in_nil. Qed.

Lemma edge_in_single_rev a b x y :
  edge_in [(b, a)] x y = bool_decide (x = a /\ y = b) || bool_decide (x = b /\ y = a).
Proof. by rewrite edge_in_cons, edge_in_nil, orb_false_l, orb_comm. Qed.

(** ** aldous_broder *)



(** ** A walk of aldous_broder that never ends *)




(** ** The lattice is connected *)



(** ** recursive_backtracker *)



(** ** Removing from a list *)

Lemma remove_first_None {A} `{EqDecision A} (x : A) l :
  remove_first x l = None <-> x ∉ l.
Proof.
  induction l as [|y l IH]; simpl.
  - split; [intros _; apply not_elem_of_nil|done].
  - case_decide as Hxy.
    + subst. split; [done|]. intros Hn. destruct Hn. left.
    + destruct (remove_first x l) eqn:Hr.
      * split; [done|]. intros Hn. exfalso.
        assert (x ∉ l) as Hl by (intros ?; apply Hn; by right).
        apply IH in Hl. done.
      * split; [|done]. intros _. rewrite not_elem_of_cons. split; [done|].
        by apply IH.
Qed.

Lemma remove_first_Some {A} `{EqDecision A} (x : A) l l' :
  remove_first x l = Some l' -> NoDup l ->
  NoDup l' /\ (forall c, c ∈ l' <-> c ∈ l /\ c <> x) /\ S (length l') = length l.
Proof.
  revert l'. induction l as [|y l IH]; simpl; intros l' Hr Hnd; [done|].
  apply NoDup_cons in Hnd as [Hy Hnd].
  case_decide as Hxy.
  - injection Hr as <-. subst y. split_and!; [done| |done].
    intros c. rewrite elem_of_cons. split; [|tauto].
    intros Hc. split; [by right|]. by intros ->.
  - destruct (remove_first x l) as [l''|] eqn:Hr'; [|done]. injection Hr as <-.
    destruct (IH l'' eq_refl Hnd) as (Hnd' & Hin & Hlen). split_and!.
    + apply NoDup_cons. split; [|done]. rewrite Hin. tauto.
    + intros c. rewrite !elem_of_cons, Hin. split; [|tauto].
      intros [->|[? ?]]; [split; [by left|congruence]|tauto].
    + simpl. lia.
Qed.


(** ** The loop-erased walk *)



(** ** Linking the path *)



(** ** wilson *)

Lemma NoDup_reverse {A} (l : list A) : NoDup l -> NoDup (reverse l).
Proof. by rewrite reverse_Permutation. Qed.









(** ** hybrid *)



(** ** A tree given by parent links *)

Lemma NoDup_filter_fst {A B} (P : A * B -> Prop) `{!forall x, Decision (P x)}
    (L : list (A * B)) :
  NoDup L.*1 -> NoDup (filter P L).*1.
Proof.
  induction L as [|[a b] L IH]; simpl; intros Hnd; [constructor|].
  apply NoDup_cons in Hnd as [Ha Hnd].
  destruct (decide (P (a, b))).
  - rewrite filter_cons_True by done. simpl. apply NoDup_cons. split; [|auto].
    intros Hin. apply Ha. apply list_elem_of_fmap in Hin as ([a' b'] & -> & Hin).
    apply list_elem_of_filter in Hin as [_ Hin].
    apply list_elem_of_fmap. by exists (a', b').
  - rewrite filter_cons_False by done. auto.
Qed.

Lemma elem_of_fst_filter {A B} (P : A * B -> Prop) `{!forall x, Decision (P x)}
    (L : list (A * B)) a :
  a ∈ (filter P L).*1 <-> exists b, (a, b) ∈ L /\ P (a, b).
Proof.
  rewrite list_elem_of_fmap. split.
  - intros ([a' b] & -> & Hin). apply list_elem_of_filter in Hin as [HP Hin]. eauto.
  - intros (b & Hin & HP). exists (a, b). split; [done|]. by apply list_elem_of_filter.
Qed.

Lemma elem_of_fst {A B} (L : list (A * B)) a : a ∈ L.*1 <-> exists b, (a, b) ∈ L.
Proof.
  rewrite list_elem_of_fmap. split.
  - intros ([a' b] & -> & Hin). eauto.
  - intros (b & Hin). by exists (a, b).
Qed.

Lemma edge_in_filter_true (P : Cell * Cell -> Prop) `{!forall x, Decision (P x)} L x y :
  edge_in (filter P L) x y = true <->
  ((x, y) ∈ L /\ P (x, y)) \/ ((y, x) ∈ L /\ P (y, x)).
Proof. rewrite edge_in_true, !list_elem_of_filter. tauto. Qed.

(** Every cell but the root [r] has one link to a parent of smaller rank:
    the links form a tree on the grid. *)
Lemma parent_list_tree g (L : list (Cell * Cell)) (r : Cell) (rank : Cell -> nat) (N : nat) :
  in_grid g r -> NoDup L.*1 -> r ∉ L.*1 ->
  (forall c, in_grid g c -> c = r \/ c ∈ L.*1) ->
  (forall c p, (c, p) ∈ L ->
     in_grid g c /\ in_grid g p /\ (rank p < rank c)%nat /\ (rank c < N)%nat) ->
  tree_on g (fun c => bool_decide (in_grid g c)) (edge_in L).
Proof.
  intros Hr Hnd HrL Hall HL.
  assert (forall n, (n <= N)%nat ->
    tree_on g (fun c => bool_decide (c = r) ||
                        bool_decide (c ∈ (filter (fun cp => (rank cp.1 < n)%nat) L).*1))
              (edge_in (filter (fun cp => (rank cp.1 < n)%nat) L))) as Hlayers.
  { induction n as [|n IH]; intros Hn.
    - apply (tree_single g _ _ r); [done| |].
      + intros c. apply eq_true_iff_eq.
        rewrite orb_true_iff, !bool_decide_eq_true, elem_of_fst_filter.
        split; [|tauto]. intros [?|(b & _ & ?)]; [done|lia].
      + intros a b. apply not_true_is_false. rewrite edge_in_filter_true. lia.
    - eapply (tree_add_leaves g (filter (fun cp => rank cp.1 = n) L));
        [apply IH; lia|by apply NoDup_filter_fst| | |].
      + intros c p Hcp. apply list_elem_of_filter in Hcp as [Hrank Hcp]. simpl in Hrank.
        destruct (HL c p Hcp) as (Hcg & Hpg & Hlt & _). split_and!; [|done|].
        * apply orb_false_iff. split; apply bool_decide_eq_false_2.
          -- intros ->. apply HrL. apply elem_of_fst. eauto.
          -- rewrite elem_of_fst_filter. intros (b & _ & Hb). simpl in Hb. lia.
        * apply orb_true_iff. destruct (Hall p Hpg) as [->|Hp].
          -- left. by apply bool_decide_eq_true_2.
          -- right. apply bool_decide_eq_true_2. apply elem_of_fst in Hp as [q Hq].
             apply elem_of_fst_filter. exists q. split; [done|]. simpl. lia.
      + intros x y. apply eq_true_iff_eq.
        rewrite orb_true_iff, !edge_in_filter_true. simpl. split.
        * intros [[Hin Hlt]|[Hin Hlt]].
          -- destruct (decide (rank x < n)%nat);
               [left; left; done|right; left; split; [done|lia]].
          -- destruct (decide (rank y < n)%nat);
               [left; right; done|right; right; split; [done|lia]].
        * intros [[[Hin Hlt]|[Hin Hlt]]|[[Hin Hlt]|[Hin Hlt]]];
            [left|right|left|right]; (split; [done|lia]).
      + intros c. apply eq_true_iff_eq.
        rewrite !orb_true_iff, !bool_decide_eq_true, !elem_of_fst_filter. simpl. split.
        * intros [?|(b & Hin & Hlt)]; [tauto|].
          destruct (decide (rank c < n)%nat); [left; right|right]; exists b;
            (split; [done|lia]).
        * intros [[?|(b & Hin & Hlt)]|(b & Hin & Hlt)]; [tauto| |];
            right; exists b; (split; [done|lia]). }
  specialize (Hlayers N (le_n N)).
  eapply tree_ext; [| |exact Hlayers].
  - intros c. apply eq_true_iff_eq.
    rewrite orb_true_iff, !bool_decide_eq_true, elem_of_fst_filter. split.
    + intros [->|(b & Hin & _)]; [done|]. by apply (HL c b).
    + intros Hc. destruct (Hall c Hc) as [?|Hin]; [tauto|right].
      apply elem_of_fst in Hin as [b Hin]. exists b. split; [done|].
      simpl. by apply (HL c b).
  - intros a b. apply eq_true_iff_eq. rewrite edge_in_filter_true, edge_in_true. simpl.
    split; [tauto|]. intros [Hin|Hin]; [left|right]; (split; [done|]).
    + by apply (HL a b).
    + by apply (HL b a).
Qed.

(** ** binary_tree *)

Lemma elem_of_binary_tree_neighbors g c p :
  p ∈ binary_tree_neighbors g c <-> north g c = Some p \/ east g c = Some p.
Proof.
  unfold binary_tree_neighbors. rewrite elem_of_app.
  destruct (north g c), (east g c); simpl;
    rewrite ?list_elem_of_singleton, ?elem_of_nil; naive_solver.
Qed.

Lemma binary_tree_neighbors_rank g c p :
  in_grid g c -> p ∈ binary_tree_neighbors g c ->
  in_grid g p /\ (bt_rank g p < bt_rank g c)%nat.
Proof.
  intros [Hr Hc] Hp. apply elem_of_binary_tree_neighbors in Hp.
  unfold north, east, bt_rank, in_grid in *.
  destruct Hp as [Hp|Hp]; case_bool_decide; simplify_eq; simpl; lia.
Qed.

Lemma binary_tree_neighbors_nil g c :
  in_grid g c ->
  binary_tree_neighbors g c = [] <-> c = mkCell 0 (num_columns g - 1).
Proof.
  intros [Hr Hc]. unfold binary_tree_neighbors, north, east.
  destruct c as [r k]. simpl in *.
  repeat case_bool_decide; simpl;
    (split; [intros Hnil; try discriminate Hnil; f_equal; lia
            |intros [= ? ?]; try done; lia]).
Qed.

Lemma bt_trace_nil g : bt_trace g [] [].
Proof. split; [done|]. by intros c p ?%elem_of_nil. Qed.

Lemma bt_trace_skip g pre x L :
  bt_trace g pre L -> binary_tree_neighbors g x = [] -> bt_trace g (pre ++ [x]) L.
Proof.
  intros [H1 H2] Hx. split; [|done].
  rewrite filter_app, H1, filter_cons_False, filter_nil, app_nil_r; [done|].
  by intros Hn.
Qed.

Lemma bt_trace_snoc g pre x n L :
  bt_trace g pre L -> n ∈ binary_tree_neighbors g x ->
  bt_trace g (pre ++ [x]) (L ++ [(x, n)]).
Proof.
  intros [H1 H2] Hn. split.
  - rewrite fmap_app, filter_app, H1, filter_cons_True, filter_nil; [done|].
    intros Hnil. rewrite Hnil in Hn. by apply elem_of_nil in Hn.
  - intros c p [Hin|Hin%list_elem_of_singleton]%elem_of_app; [auto|].
    by injection Hin as -> ->.
Qed.

Lemma binary_tree_trace g w :
  post false (binary_tree g) w
       (fun _ w' => exists L, extends w w' L /\ bt_trace g (each_cell g) L).
Proof.
  unfold binary_tree.
  apply (post_for_each false _
           (fun pre w' => exists L, extends w w' L /\ bt_trace g pre L)).
  - exists []. split; [apply extends_refl|apply bt_trace_nil].
  - intros pre x suf w1 _ (L & Hext & Htr).
    destruct (binary_tree_neighbors g x) as [|n0 ns] eqn:Hnb.
    + apply post_ret. exists L. split; [done|]. by apply bt_trace_skip.
    + apply post_bind, post_choice; [done|]. intros n w2 Hn Hw2.
      apply post_link. intros w3 Hw3. exists (L ++ [(x, n)]). split.
      * apply (extends_trans _ _ _ _ _ Hext).
        apply (extends_trans _ _ _ [] _ Hw2 Hw3).
      * apply bt_trace_snoc; [done|]. by rewrite Hnb.
Qed.

Lemma bt_trace_tree g L :
  wf_grid g -> bt_trace g (each_cell g) L ->
  tree_on g (fun c => bool_decide (in_grid g c)) (edge_in L).
Proof.
  intros [HR HC] [H1 H2].
  assert (forall c, c ∈ L.*1 <-> in_grid g c /\ binary_tree_neighbors g c <> []) as HL.
  { intros c. rewrite H1, list_elem_of_filter, elem_of_each_cell. tauto. }
  apply (parent_list_tree g L (mkCell 0 (num_columns g - 1)) (bt_rank g)
           (Z.to_nat (num_rows g + num_columns g))).
  - unfold in_grid. simpl. lia.
  - rewrite H1. apply NoDup_filter, NoDup_each_cell.
  - rewrite HL. intros [Hg Hn]. by apply Hn, binary_tree_neighbors_nil.
  - intros c Hc. destruct (decide (binary_tree_neighbors g c = [])) as [Hn|Hn].
    + left. by apply binary_tree_neighbors_nil.
    + right. by apply HL.
  - intros c p Hcp. assert (in_grid g c) as Hc.
    { apply HL. apply elem_of_fst. eauto. }
    destruct (binary_tree_neighbors_rank g c p Hc (H2 c p Hcp)) as [Hp Hlt].
    split_and!; try done. destruct Hc as [? ?]. unfold bt_rank. lia.
Qed.

Lemma binary_tree_total g w :
  wf_grid g -> unlinked w ->
  post false (binary_tree g) w (fun _ w' => spanning_tree g w').
Proof.
  intros Hwf Hw. eapply post_mono; [apply binary_tree_trace|].
  intros _ w' (L & (_ & Hl & _) & Htr). simpl.
  apply (tree_spanning g w' (fun c => bool_decide (in_grid g c)) Hwf).
  - eapply tree_ext; [| |by apply (bt_trace_tree g L)]; [done|].
    intros a b. by rewrite Hl, (unlinked_is_linked w) by done.
  - intros c Hc. by apply bool_decide_eq_true_2.
Qed.

(** ** C4 *)

Lemma bt_trace_forced g L c p :
  bt_trace g (each_cell g) L -> in_grid g c -> binary_tree_neighbors g c = [p] ->
  (c, p) ∈ L.
Proof.
  intros [H1 H2] Hc Hp.
  assert (c ∈ L.*1) as Hin.
  { rewrite H1. apply list_elem_of_filter. split; [by rewrite Hp|].
    by apply elem_of_each_cell. }
  apply elem_of_fst in Hin as [q Hq]. pose proof (H2 c q Hq) as Hq'.
  rewrite Hp in Hq'. apply list_elem_of_singleton in Hq'. by subst.
Qed.

Lemma unlinked_dict_ok w : unlinked w -> dict_ok w.
Proof. intros Hw c. unfold all_links. rewrite Hw. apply NoDup_nil_2. Qed.

Lemma link_count_all_links w c : link_count w c = length (all_links w c).
Proof. unfold link_count, all_links, Dict.keys. by rewrite length_fmap. Qed.

Lemma top_right_3x3_neighbor_of x :
  mkCell 0 2 ∉ binary_tree_neighbors (mkGrid 3 3) x \/ x = mkCell 0 1 \/ x = mkCell 1 2.
Proof.
  destruct x as [r k].
  destruct (decide (mkCell 0 2 ∈ binary_tree_neighbors (mkGrid 3 3) (mkCell r k)))
    as [Hin|Hin]; [right|by left].
  apply elem_of_binary_tree_neighbors in Hin. unfold north, east in Hin. simpl in Hin.
  destruct Hin as [Hin|Hin]; case_bool_decide; [|done| |done];
    injection Hin as Hr Hk; [right|left]; f_equal; lia.
Qed.

(** C4, as stated, fails: after [binary_tree] on a 3x3 grid the top-right
    cell has two links, to its west and to its south neighbor. *)
Lemma binary_tree_top_right_counterexample :
  ~ (forall w w', unlinked w -> binary_tree (mkGrid 3 3) w = (Ret tt, w') ->
       link_count w' (mkCell 0 2) = 0%nat).
Proof.
  intros H.
  specialize (H (mkWorld (fun _ => []) (fun _ => 0) 0)
                (binary_tree (mkGrid 3 3) (mkWorld (fun _ => []) (fun _ => 0) 0)).2).
  assert (link_count (binary_tree (mkGrid 3 3) (mkWorld (fun _ => []) (fun _ => 0) 0)).2
            (mkCell 0 2) = 2%nat) as H2 by (vm_compute; reflexivity).
  rewrite H in H2; [discriminate| |].
  - intros c. reflexivity.
  - vm_compute. reflexivity.
Qed.

(** ** Chains *)

Lemma consec_app l1 a l2 :
  consec (l1 ++ a :: l2) = consec (l1 ++ [a]) ++ consec (a :: l2).
Proof.
  induction l1 as [|b l1 IH]; [done|].
  destruct l1 as [|c l1].
  - simpl. done.
  - change (consec ((b :: c :: l1) ++ a :: l2))
      with ((b, c) :: consec ((c :: l1) ++ a :: l2)).
    change (consec ((b :: c :: l1) ++ [a])) with ((b, c) :: consec ((c :: l1) ++ [a])).
    by rewrite IH.
Qed.

Lemma consec_snoc l a b : consec (l ++ [a; b]) = consec (l ++ [a]) ++ [(a, b)].
Proof. apply (consec_app l a [b]). Qed.

Lemma edge_in_consec_reverse l x y :
  edge_in (consec (reverse l)) x y = edge_in (consec l) x y.
Proof.
  induction l as [|a l IH]; [done|].
  destruct l as [|b l]; [done|].
  rewrite consec_cons, edge_in_cons, <- IH.
  rewrite (reverse_cons (b :: l) a), (reverse_cons l b), <- app_assoc. simpl.
  rewrite consec_snoc, edge_in_app, edge_in_single_rev.
  rewrite <- (reverse_cons l b). by rewrite orb_assoc.
Qed.

(** Linking a run of new cells in a chain, and one of them to a cell of
    the tree. *)
Lemma tree_add_run g (V V' : Cell -> bool) (E E' : rel) (run : list Cell) (k p : Cell) :
  tree_on g V E ->
  NoDup run -> (forall c, c ∈ run -> V c = false /\ in_grid g c) ->
  k ∈ run -> V p = true ->
  (forall x y, E' x y = E x y || edge_in (consec run) x y || edge_in [(k, p)] x y) ->
  (forall c, V' c = V c || bool_decide (c ∈ run)) ->
  tree_on g V' E'.
Proof.
  intros HT Hnd Hrun Hk Hp HE' HV'.
  apply list_elem_of_split in Hk as (pre & post & ->).
  apply NoDup_app in Hnd as (Hndpre & Hpre & Hndpost).
  apply NoDup_cons in Hndpost as [Hkpost Hndpost].
  destruct (Hrun k) as [HkV Hkg]; [apply elem_of_app; right; left|].
  set (V1 := fun c => V c || bool_decide (c = k)).
  set (E1 := fun x y => E x y || bool_decide (x = p /\ y = k) || bool_decide (x = k /\ y = p)).
  assert (tree_on g V1 E1) as HT1 by (by apply (tree_add_leaf g V V1 E E1 p k)).
  set (V2 := fun c => V1 c || bool_decide (c ∈ pre)).
  set (E2 := fun x y => E1 x y || edge_in (consec (pre ++ [k])) x y).
  assert (tree_on g V2 E2) as HT2.
  { apply (tree_add_chain g pre V1 V2 E1 E2 k); try done.
    - unfold V1. rewrite (bool_decide_eq_true_2 (k = k)) by done. by rewrite orb_true_r.
    - intros c Hc. destruct (Hrun c) as [HcV Hcg]; [apply elem_of_app; by left|].
      split; [|done]. unfold V1. rewrite HcV. simpl. apply bool_decide_eq_false_2.
      intros ->. apply (Hpre k Hc). left. }
  apply (tree_add_chain g (reverse post) V2 V' E2 E' k); try done.
  - unfold V2, V1. rewrite (bool_decide_eq_true_2 (k = k)) by done.
    by rewrite orb_true_r.
  - by apply NoDup_reverse.
  - intros c Hc. rewrite elem_of_reverse in Hc.
    destruct (Hrun c) as [HcV Hcg]; [apply elem_of_app; right; by right|].
    split; [|done]. unfold V2, V1. rewrite HcV. simpl.
    apply orb_false_iff. split; apply bool_decide_eq_false_2.
    + by intros ->.
    + intros Hcpre. apply (Hpre c Hcpre). by right.
  - intros x y. rewrite HE'. unfold E2, E1.
    rewrite <- (reverse_cons post k), edge_in_consec_reverse.
    rewrite (consec_app pre k post), edge_in_app, edge_in_single.
    destruct (E x y), (edge_in (consec (pre ++ [k])) x y),
      (edge_in (consec (k :: post)) x y); simpl; try done;
      repeat case_bool_decide; try done; exfalso; tauto.
  - intros c. rewrite HV'. unfold V2, V1. apply eq_true_iff_eq.
    rewrite !orb_true_iff, !bool_decide_eq_true, elem_of_reverse, elem_of_app,
      elem_of_cons. tauto.
Qed.

(** ** The cells of a row *)

Lemma elem_of_row_cells (r C : Z) c :
  c ∈ (fun k => mkCell r k) <$> seqZ 0 C <-> row c = r /\ 0 <= column c < C.
Proof.
  rewrite list_elem_of_fmap. split.
  - intros (k & -> & Hk). apply elem_of_seqZ in Hk. simpl. lia.
  - intros [<- Hc]. exists (column c). split; [by destruct c|].
    apply elem_of_seqZ. lia.
Qed.

Lemma NoDup_row_cells (r C : Z) : NoDup ((fun k => mkCell r k) <$> seqZ 0 C).
Proof.
  apply (NoDup_fmap_2_strong (fun k => mkCell r k)); [|apply NoDup_seqZ].
  by intros ???? [=].
Qed.

Lemma row_cells_split g r pre x suf :
  (fun k => mkCell r k) <$> seqZ 0 (num_columns g) = pre ++ x :: suf ->
  x = mkCell r (Z.of_nat (length pre)) /\ take 1 suf = option_list (east g x).
Proof.
  intros Hl.
  assert (((fun k => mkCell r k) <$> seqZ 0 (num_columns g)) !! length pre = Some x) as Hx.
  { rewrite Hl. by apply list_lookup_middle. }
  rewrite list_lookup_fmap in Hx.
  destruct (seqZ 0 (num_columns g) !! length pre) as [k|] eqn:Hk; [|done].
  apply lookup_seqZ in Hk as [-> Hlt]. injection Hx as <-. split; [done|].
  assert (((fun k => mkCell r k) <$> seqZ 0 (num_columns g)) !! S (length pre)
          = suf !! 0%nat) as Hs.
  { rewrite Hl, lookup_app_r by lia.
    replace (S (length pre) - length pre)%nat with 1%nat by lia. done. }
  rewrite list_lookup_fmap in Hs. unfold east. simpl.
  case_bool_decide as Hc.
  - rewrite lookup_seqZ_lt in Hs by lia. simpl in Hs.
    destruct suf as [|y suf]; [done|]. injection Hs as <-. simpl.
    rewrite take_0. do 2 f_equal. lia.
  - rewrite lookup_seqZ_ge in Hs by lia. simpl in Hs. by destruct suf.
Qed.

Lemma consec_short l : (length l <= 1)%nat -> consec l = [].
Proof. destruct l as [|a [|b l]]; simpl; [done|done|lia]. Qed.

Lemma rows_above_succ g r c :
  0 <= r < num_rows g ->
  rows_above g (r + 1) c =
  rows_above g r c || bool_decide (c ∈ (fun k => mkCell r k) <$> seqZ 0 (num_columns g)).
Proof.
  intros Hr. unfold rows_above. apply eq_true_iff_eq.
  rewrite orb_true_iff, !andb_true_iff, !bool_decide_eq_true, elem_of_row_cells.
  unfold in_grid. lia.
Qed.

Lemma rows_above_row g r c : row c = r -> rows_above g r c = false.
Proof.
  intros Hc. unfold rows_above. rewrite (bool_decide_eq_false_2 (row c < r)) by lia.
  by rewrite andb_false_r.
Qed.

(** The first row alone: a chain. *)
Lemma first_row_tree g (E : rel) :
  wf_grid g ->
  (forall x y, E x y = edge_in (consec ((fun k => mkCell 0 k) <$> seqZ 0 (num_columns g))) x y) ->
  tree_on g (rows_above g 1) E.
Proof.
  intros [HR HC] HE.
  pose proof (NoDup_row_cells 0 (num_columns g)) as Hnd.
  pose proof (elem_of_row_cells 0 (num_columns g)) as Hin.
  destruct ((fun k => mkCell 0 k) <$> seqZ 0 (num_columns g)) as [|t l _] using rev_ind.
  { exfalso. assert (mkCell 0 0 ∈ @nil Cell) as H0 by (apply Hin; simpl; lia).
    by apply elem_of_nil in H0. }
  apply NoDup_app in Hnd as (Hndl & Hlt & _).
  assert (in_grid g t) as Htg.
  { destruct (proj1 (Hin t)) as [? ?]; [apply elem_of_app; right; left|].
    unfold in_grid. lia. }
  apply (tree_add_chain g l (fun c => bool_decide (c = t)) _ (fun _ _ => false) _ t).
  - by apply (tree_single g _ _ t).
  - by apply bool_decide_eq_true_2.
  - done.
  - intros c Hc. split.
    + apply bool_decide_eq_false_2. intros ->. apply (Hlt t Hc). left.
    + destruct (proj1 (Hin c)) as [? ?]; [apply elem_of_app; by left|].
      unfold in_grid. lia.
  - intros x y. by rewrite HE.
  - intros c. unfold rows_above. apply eq_true_iff_eq.
    rewrite orb_true_iff, andb_true_iff, !bool_decide_eq_true.
    specialize (Hin c). rewrite elem_of_app, list_elem_of_singleton in Hin.
    unfold in_grid. split.
    + intros [[? ?] ?]. assert (c ∈ l \/ c = t) as [?|?] by (apply Hin; lia); tauto.
    + intros Hc. assert (row c = 0 /\ 0 <= column c < num_columns g) by (apply Hin; tauto).
      lia.
Qed.

(** ** sidewinder: one cell *)

Lemma pending_head (l pre suf : list Cell) x :
  l = pre ++ x :: suf -> take 1 (drop (length pre) l) = [x].
Proof. intros ->. rewrite drop_app_length. simpl. by rewrite take_0. Qed.

Lemma pending_next (l pre suf : list Cell) x :
  l = pre ++ x :: suf -> take 1 (drop (length (pre ++ [x])) l) = take 1 suf.
Proof.
  intros ->. replace (pre ++ x :: suf) with ((pre ++ [x]) ++ suf)
    by (by rewrite <- app_assoc).
  by rewrite drop_app_length.
Qed.

Section SidewinderRow.
Context (g : Grid) (odds : Q) (r : Z) (l pre suf : list Cell) (x : Cell).
Context (Hwf : wf_grid g) (Hr : 0 <= r < num_rows g).
Context (Hl : l = pre ++ x :: suf) (HlND : NoDup l).
Context (Hlrow : forall c, c ∈ l -> row c = r /\ in_grid g c).
Context (Hsuf : take 1 suf = option_list (east g x)).

(** The run goes on: the cell is linked to its east neighbor. *)
Lemma sw_continue run w w2 y :
  sw_inv g r l pre run w -> extends w w2 [] -> east g x = Some y ->
  post false (link_opt x (Some y) ;; mret (run ++ [x])) w2
       (fun run' w' => sw_inv g r l (pre ++ [x]) run' w').
Proof using Hl Hsuf.
  intros (closed & E & Hpre & H0 & Htree & Hend & Hrel) Hw2 He.
  apply post_bind, post_link. intros w3 (_ & Hw3 & _). apply post_ret.
  rewrite He in Hsuf. destruct suf as [|y' suf']; [done|].
  simpl in Hsuf. rewrite take_0 in Hsuf. injection Hsuf as ->.
  exists closed, E. split_and!; try done.
  - by rewrite Hpre, app_assoc.
  - intros _ Hlen. rewrite Hl, !length_app in Hlen. simpl in Hlen. lia.
  - intros a b. rewrite Hw3, (extends_nil_is_linked w w2) by done.
    rewrite Hrel, (pending_head l pre (y :: suf') x Hl),
      (pending_next l pre (y :: suf') x Hl).
    simpl. rewrite take_0, <- app_assoc. simpl.
    by rewrite consec_snoc, edge_in_app, orb_assoc.
Qed.

(** The run is closed: one of its cells is linked to its north neighbor. *)
Lemma sw_close run w w2 :
  0 < r ->
  sw_inv g r l pre run w -> extends w w2 [] ->
  post false (cell' ← choice (run ++ [x]); link_opt cell' (north g cell') ;; mret [])
       w2 (fun run' w' => sw_inv g r l (pre ++ [x]) run' w').
Proof using Hl HlND Hlrow Hr.
  intros Hr0 (closed & E & Hpre & H0 & Htree & Hend & Hrel) Hw2.
  apply post_bind, post_choice; [by destruct run|]. intros k w3 Hk Hw3.
  assert (forall c, c ∈ run ++ [x] -> c ∈ l) as Hrunl.
  { intros c Hc. rewrite Hl, Hpre.
    replace ((closed ++ run) ++ x :: suf) with (closed ++ (run ++ [x]) ++ suf)
      by (by rewrite <- !app_assoc).
    rewrite elem_of_app in Hc. rewrite !elem_of_app. tauto. }
  assert (NoDup (closed ++ (run ++ [x])) /\ NoDup (run ++ [x])) as [Hnd1 Hnd2].
  { rewrite Hl, Hpre in HlND.
    replace ((closed ++ run) ++ x :: suf) with ((closed ++ (run ++ [x])) ++ suf)
      in HlND by (by rewrite <- !app_assoc).
    apply NoDup_app in HlND as [Hnd _]. split; [done|].
    by apply NoDup_app in Hnd as (_ & _ & ?). }
  destruct (Hlrow k (Hrunl k Hk)) as [Hkrow [Hkr Hkc]].
  unfold north. rewrite bool_decide_eq_true_2 by lia. simpl.
  apply post_bind, post_link. intros w4 (_ & Hw4 & _). apply post_ret.
  exists (pre ++ [x]),
    (fun a b => E a b || edge_in (consec (run ++ [x])) a b
                || edge_in [(k, mkCell (row k - 1) (column k))] a b).
  split_and!.
  - by rewrite app_nil_r.
  - lia.
  - intros _.
    apply (tree_add_run g (fun c => rows_above g r c || bool_decide (c ∈ closed)) _
             E _ (run ++ [x]) k (mkCell (row k - 1) (column k))); try done.
    + by apply Htree.
    + intros c Hc. destruct (Hlrow c (Hrunl c Hc)) as [Hcrow Hcg]. split; [|done].
      rewrite (rows_above_row g r c Hcrow). simpl. apply bool_decide_eq_false_2.
      intros Hcc. apply NoDup_app in Hnd1 as (_ & Hdisj & _). by apply (Hdisj c).
    + unfold rows_above. simpl. rewrite orb_true_iff, andb_true_iff.
      left. split; apply bool_decide_eq_true_2; [|lia]. unfold in_grid. simpl. lia.
    + intros c. apply eq_true_iff_eq.
      rewrite Hpre, !orb_true_iff, !bool_decide_eq_true, !elem_of_app. tauto.
  - done.
  - intros a b. rewrite Hw4, (extends_nil_is_linked w2 w3) by done.
    rewrite (extends_nil_is_linked w w2) by done.
    rewrite Hrel, (pending_head l pre suf x Hl). simpl.
    rewrite (consec_short (take 1 _)), edge_in_nil, orb_false_r; [done|].
    rewrite length_take. lia.
Qed.

(** The last cell of the first row: nothing is linked. *)
Lemma sw_last run w w2 :
  r = 0 -> east g x = None ->
  sw_inv g r l pre run w -> extends w w2 [] ->
  sw_inv g r l (pre ++ [x]) (run ++ [x]) w2.
Proof using Hl Hsuf.
  intros Hr0 He (closed & E & Hpre & H0 & Htree & Hend & Hrel) Hw2.
  rewrite He in Hsuf. simpl in Hsuf.
  exists closed, E. split_and!; try done.
  - by rewrite Hpre, app_assoc.
  - lia.
  - intros a b. rewrite (extends_nil_is_linked w w2) by done.
    rewrite Hrel, (pending_head l pre suf x Hl), (pending_next l pre suf x Hl), Hsuf.
    by rewrite app_nil_r.
Qed.

Lemma sidewinder_cell_step run w :
  sw_inv g r l pre run w ->
  post false (sidewinder_cell g odds x run) w
       (fun run' w' => sw_inv g r l (pre ++ [x]) run' w').
Proof using Hl HlND Hlrow Hr Hsuf.
  intros HI. unfold sidewinder_cell.
  destruct (Hlrow x) as [Hxrow _]; [rewrite Hl, elem_of_app; right; left|].
  apply post_bind.
  apply (post_mono _ _ _ (fun keep w2 => extends w w2 [] /\ (r = 0 -> keep = true))).
  { case_bool_decide.
    - apply post_ret. split; [apply extends_refl|done].
    - apply post_bind, post_random. intros q w2 Hw2. apply post_ret.
      split; [done|]. intros ->. done. }
  intros keep w2 [Hw2 Hkeep].
  destruct (decide (is_Some (east g x))) as [[y He]|He].
  - rewrite (bool_decide_eq_true_2 (is_Some (east g x))) by eauto. rewrite He.
    destruct keep; cbn [andb].
    + by apply (sw_continue run w).
    + assert (0 < r) as Hr0.
      { destruct (decide (r = 0)) as [H0|H0]; [by apply Hkeep in H0|lia]. }
      rewrite bool_decide_eq_true_2 by lia. by apply (sw_close run w).
  - rewrite (bool_decide_eq_false_2 (is_Some (east g x))) by done.
    rewrite andb_false_r. apply eq_None_not_Some in He.
    case_bool_decide as Hrow.
    + apply (sw_close run w); [lia|done|done].
    + apply post_ret. apply (sw_last run w); [lia|done|done|done].
Qed.
End SidewinderRow.

(** ** sidewinder: one row, all rows *)

Lemma sidewinder_row g odds r w :
  wf_grid g -> 0 <= r < num_rows g ->
  (r = 0 -> forall a b, is_linked w a b = false) ->
  (0 < r -> tree_on g (rows_above g r) (is_linked w)) ->
  post false
    (for_fold ((fun k => mkCell r k) <$> seqZ 0 (num_columns g)) []
              (sidewinder_cell g odds))
    w (fun _ w' => tree_on g (rows_above g (r + 1)) (is_linked w')).
Proof.
  intros Hwf Hr Hfirst Hnext.
  set (l := (fun k => mkCell r k) <$> seqZ 0 (num_columns g)).
  eapply post_mono.
  - apply (post_for_fold false (sidewinder_cell g odds) (sw_inv g r l)).
    + exists [], (is_linked w). split_and!; try done.
      * intros H0. split; [done|auto].
      * intros H0. eapply tree_ext; [| |by apply Hnext]; [|done].
        intros c. rewrite (bool_decide_eq_false_2 (c ∈ [])); [by rewrite orb_false_r|].
        apply not_elem_of_nil.
      * intros a b. rewrite consec_short, edge_in_nil, orb_false_r; [done|].
        simpl. rewrite length_take. lia.
    + intros pre x suf run w1 Hl HI.
      apply (sidewinder_cell_step g odds r l pre suf x); try done.
      * apply NoDup_row_cells.
      * intros c Hc. apply elem_of_row_cells in Hc as [Hc1 Hc2].
        split; [done|]. unfold in_grid. lia.
      * by apply (row_cells_split g r pre x suf).
  - intros run w' (closed & E & Hpre & H0 & Htree & Hend & Hrel). simpl.
    rewrite drop_all in Hrel. simpl in Hrel. rewrite app_nil_r in Hrel.
    destruct (decide (r = 0)) as [->|Hr0].
    + destruct (H0 eq_refl) as [-> HE]. simpl in Hpre. subst run.
      apply first_row_tree; [done|]. intros a b. by rewrite Hrel, HE.
    + assert (0 < r) as Hpos by lia. rewrite (Hend Hpos eq_refl) in Hrel, Hpre.
      rewrite app_nil_r in Hpre. subst closed.
      eapply tree_ext; [| |by apply Htree].
      * intros c. symmetry. by apply rows_above_succ.
      * intros a b. by rewrite Hrel, edge_in_nil, orb_false_r.
Qed.

Lemma each_row_split g pre x suf :
  each_row g = pre ++ x :: suf ->
  x = (fun k => mkCell (Z.of_nat (length pre)) k) <$> seqZ 0 (num_columns g) /\
  Z.of_nat (length pre) < num_rows g.
Proof.
  intros Hl. assert (each_row g !! length pre = Some x) as Hx.
  { rewrite Hl. by apply list_lookup_middle. }
  unfold each_row in Hx. rewrite list_lookup_fmap in Hx.
  destruct (seqZ 0 (num_rows g) !! length pre) as [k|] eqn:Hk; [|done].
  apply lookup_seqZ in Hk as [-> Hlt]. by injection Hx as <-.
Qed.

Lemma sw_rows_inv_snoc g rows x w :
  tree_on g (rows_above g (Z.of_nat (length rows) + 1)) (is_linked w) ->
  sw_rows_inv g (rows ++ [x]) w.
Proof.
  intros HT. unfold sw_rows_inv.
  destruct (rows ++ [x]) as [|y ys] eqn:Heq; [by destruct rows|].
  rewrite <- Heq, length_app. simpl.
  by replace (Z.of_nat (length rows + 1)) with (Z.of_nat (length rows) + 1) by lia.
Qed.

Lemma sidewinder_total g odds w :
  wf_grid g -> unlinked w -> (0 <= odds)%Q -> (odds < 1)%Q ->
  post false (sidewinder g odds) w (fun _ w' => spanning_tree g w').
Proof.
  intros Hwf Hw Ho0 Ho1. unfold sidewinder.
  apply post_bind, post_assert; [by apply Qle_bool_iff|].
  apply post_bind, post_assert.
  { apply negb_true_iff. destruct (Qle_bool 1 odds) eqn:Hle; [|done].
    apply Qle_bool_iff in Hle. by apply Qlt_not_le in Ho1. }
  eapply post_mono.
  - apply (post_for_each false _ (sw_rows_inv g)).
    + simpl. intros a b. by apply unlinked_is_linked.
    + intros pre x suf w1 Hl HI.
      destruct (each_row_split g pre x suf Hl) as [-> Hlt].
      apply post_bind. eapply post_mono.
      * apply (sidewinder_row g odds (Z.of_nat (length pre)) w1 Hwf); [lia| |].
        -- intros H0. destruct pre; [done|simpl in H0; lia].
        -- intros H0. destruct pre as [|p pre]; [simpl in H0; lia|]. done.
      * intros run w2 HT. apply post_ret. by apply sw_rows_inv_snoc.
  - intros [] w' HI. simpl. assert (length (each_row g) = Z.to_nat (num_rows g)) as Hlen.
    { unfold each_row. by rewrite length_fmap, length_seqZ. }
    unfold sw_rows_inv in HI. destruct Hwf as [HR HC].
    destruct (each_row g) as [|y ys]; [simpl in Hlen; lia|].
    rewrite Hlen in HI.
    apply (tree_spanning g w' _ (conj HR HC) HI). intros c Hc. unfold rows_above.
    rewrite !bool_decide_eq_true_2; [done| |done]. destruct Hc. lia.
Qed.

(** ** C1 *)


Lemma post_total_unit (m : M unit) w (Q : World -> Prop) :
  post false m w (fun _ w' => Q w') -> exists w', m w = (Ret tt, w') /\ Q w'.
Proof. intros Hp. apply post_total in Hp as ([] & w' & Hrun & HQ). eauto. Qed.

(** ** The frontier *)

Lemma remove_first_perm {A} `{EqDecision A} (x : A) l l' :
  remove_first x l = Some l' -> l ≡ₚ x :: l'.
Proof.
  revert l'. induction l as [|y l IH]; simpl; intros l' Hr; [done|].
  case_decide as Hxy.
  - injection Hr as <-. by subst.
  - destruct (remove_first x l) as [l''|]; [|done]. injection Hr as <-.
    rewrite (IH l'' eq_refl). apply Permutation_swap.
Qed.

Lemma heap_least_in x l : heap_least x l ∈ x :: l.
Proof.
  unfold heap_least. revert x. induction l as [|y l IH]; intros x; simpl; [left|].
  destruct (tuple_lt y x).
  - specialize (IH y). apply elem_of_cons in IH as [->|IH];
      [right; left|right; by right].
  - specialize (IH x). apply elem_of_cons in IH as [->|IH]; [left|right; by right].
Qed.

Lemma heappop_spec frontier :
  frontier <> [] ->
  exists x rest, heappop frontier = Ret (x, rest) /\ frontier ≡ₚ x :: rest.
Proof.
  destruct frontier as [|x l]; [done|]. intros _. unfold heappop.
  destruct (remove_first (heap_least x l) (x :: l)) as [rest|] eqn:Hr.
  - exists (heap_least x l), rest. split; [done|]. by apply remove_first_perm.
  - apply remove_first_None in Hr. destruct Hr. apply heap_least_in.
Qed.

(** ** Marks *)

Lemma get_setitem (m : Markup Z) n v c :
  Dict.get c (marks (setitem m n v)) = if decide (c = n) then Some v else Dict.get c (marks m).
Proof. unfold setitem. simpl. apply dict_get_set. Qed.

Lemma length_setitem (m : Markup Z) n v :
  length (marks (setitem m n v)) =
  match Dict.get n (marks m) with Some _ => length (marks m) | None => S (length (marks m)) end.
Proof. unfold setitem. simpl. rewrite dict_length_set. unfold Dict.mem. by destruct (Dict.get _ _). Qed.

Lemma getitem_Some (m : Markup Z) c d : Dict.get c (marks m) = Some d -> getitem m c = d.
Proof. unfold getitem. by intros ->. Qed.

Lemma marks_le_refl m : marks_le m m.
Proof. intros c d Hc. exists d. split; [done|lia]. Qed.

Lemma relaxed_le w m m' c d : marks_le m m' -> relaxed w m c d -> relaxed w m' c d.
Proof.
  intros Hle Hr n Hn. destruct (Hr n Hn) as (d1 & Hd1 & Hle1).
  destruct (Hle n d1 Hd1) as (d2 & Hd2 & Hle2). exists d2. split; [done|lia].
Qed.

Lemma sum_list_with_decrease (f f' : Cell -> nat) (l : list Cell) n :
  NoDup l -> n ∈ l -> (f' n < f n)%nat -> (forall c, c <> n -> f' c = f c) ->
  (sum_list_with f' l < sum_list_with f l)%nat.
Proof.
  induction l as [|a l IH]; intros Hnd Hn Hlt Hext; [by apply elem_of_nil in Hn|].
  apply NoDup_cons in Hnd as [Ha Hnd]. simpl.
  destruct (decide (a = n)) as [->|Hne].
  - assert (sum_list_with f' l = sum_list_with f l) as ->; [|lia].
    clear IH Hn. induction l as [|b l IHl]; [done|]. simpl.
    apply NoDup_cons in Hnd as [_ Hnd]. rewrite IHl; [|set_solver|done].
    rewrite Hext; [done|]. intros ->. apply Ha. left.
  - rewrite (Hext a Hne). apply elem_of_cons in Hn as [?|Hn]; [congruence|].
    specialize (IH Hnd Hn Hlt Hext). lia.
Qed.

Lemma sum_list_with_bound (f : Cell -> nat) (l : list Cell) (b : nat) :
  (forall c, c ∈ l -> (f c <= b)%nat) -> (sum_list_with f l <= length l * b)%nat.
Proof.
  induction l as [|a l IH]; intros Hb; simpl; [lia|].
  pose proof (Hb a). assert (f a <= b)%nat by (apply Hb; left).
  assert (sum_list_with f l <= length l * b)%nat by (apply IH; intros; apply Hb; by right).
  lia.
Qed.

Lemma marks_length_bound g (m : Markup Z) :
  NoDup (Dict.keys (marks m)) ->
  (forall c d, Dict.get c (marks m) = Some d -> in_grid g c) ->
  (length (marks m) <= length (each_cell g))%nat.
Proof.
  intros Hnd Hg. rewrite <- (length_fmap fst (marks m)).
  apply (visited_length g (Dict.keys (marks m)) Hnd).
  intros c Hc. apply dict_mem_keys in Hc. unfold Dict.mem in Hc.
  destruct (Dict.get c (marks m)) eqn:Hget; [|done]. eauto.
Qed.

Lemma marks_length_bound_unmarked g (m : Markup Z) n :
  NoDup (Dict.keys (marks m)) ->
  (forall c d, Dict.get c (marks m) = Some d -> in_grid g c) ->
  in_grid g n -> Dict.get n (marks m) = None ->
  (S (length (marks m)) <= length (each_cell g))%nat.
Proof.
  intros Hnd Hg Hn Hnone. rewrite <- (length_fmap fst (marks m)).
  apply (visited_length g (n :: Dict.keys (marks m))).
  - apply NoDup_cons. split; [|done]. intros Hin. apply dict_mem_keys in Hin.
    unfold Dict.mem in Hin. by rewrite Hnone in Hin.
  - intros c [->|Hc]%elem_of_cons; [done|]. apply dict_mem_keys in Hc.
    unfold Dict.mem in Hc. destruct (Dict.get c (marks m)) eqn:Hget; [|done]. eauto.
Qed.

(** ** Relaxing the links of a cell *)

Lemma all_links_is_linked w c n : n ∈ all_links w c <-> is_linked w c n = true.
Proof. unfold all_links, is_linked. by rewrite dict_mem_keys. Qed.

Lemma relax_update g w root cell dist seen m f n :
  links_in_grid g w -> n ∈ all_links w cell ->
  relax_inv g w root cell dist seen m f ->
  (Dict.get n (marks m) = None \/
   exists dn, Dict.get n (marks m) = Some dn /\ dist + 1 < dn) ->
  relax_inv g w root cell dist (seen ++ [n]) (setitem m n (dist + 1))
            (heappush f (dist + 1, n)) /\
  (dj_measure g (setitem m n (dist + 1)%Z) (heappush f ((dist + 1)%Z, n))
   <= dj_measure g m f)%nat.
Proof.
  intros Hlg Hn (P1 & Pnd & P2 & P3 & P4 & P5 & P6) Hold.
  destruct (P2 cell dist P5) as (Hcg & [Hd0 Hdlt] & Hwalk).
  assert (is_linked w cell n = true) as Hlink by (by apply all_links_is_linked).
  assert (in_grid g n) as Hng by (by apply Hlg in Hlink as [_ ?]).
  assert (n <> root) as Hnr.
  { intros Heq. rewrite Heq, P1 in Hold.
    destruct Hold as [?|(dn & Hdn & ?)]; [done|]. injection Hdn as Hdn. lia. }
  assert (n <> cell) as Hnc.
  { intros Heq. rewrite Heq, P5 in Hold.
    destruct Hold as [?|(dn & Hdn & ?)]; [done|]. injection Hdn as Hdn. lia. }
  assert (dist + 1 < Z.of_nat (length (marks (setitem m n (dist + 1))))) as Hnew.
  { rewrite length_setitem. destruct Hold as [->|(dn & Hdn & Hlt)]; [lia|].
    rewrite Hdn. destruct (P2 n dn Hdn) as (_ & ? & _). lia. }
  assert (length (marks m) <= length (marks (setitem m n (dist + 1)%Z)))%nat as Hlen.
  { rewrite length_setitem. destruct (Dict.get n (marks m)); lia. }
  assert (marks_le m (setitem m n (dist + 1))) as Hle.
  { intros c d Hc. rewrite get_setitem. case_decide as Hcn; [subst c|].
    - exists (dist + 1). split; [done|].
      destruct Hold as [Hnone|(dn & Hdn & Hlt)]; [congruence|].
      rewrite Hc in Hdn. injection Hdn as ->. lia.
    - exists d. split; [done|lia]. }
  split.
  - split_and!.
    + rewrite get_setitem. by rewrite decide_False by done.
    + unfold setitem. simpl. by apply dict_keys_set_NoDup.
    + intros c d. rewrite get_setitem. case_decide as Hcn; [subst c|].
      * intros [= <-]. split_and!; [done|lia|done|].
        replace (Z.to_nat (dist + 1)) with (S (Z.to_nat dist)) by lia.
        by apply (walk_snoc w root cell n).
      * intros Hc. destruct (P2 c d Hc) as (? & ? & ?). split_and!; [done|lia|lia|done].
    + intros d c Hin. unfold heappush in Hin.
      apply elem_of_app in Hin as [Hin|Hin%list_elem_of_singleton].
      * destruct (P3 d c Hin) as (d' & Hd' & Hle').
        destruct (Hle c d' Hd') as (d'' & Hd'' & Hle''). exists d''. split; [done|lia].
      * injection Hin as -> ->. exists (dist + 1). split; [|lia].
        rewrite get_setitem. by rewrite decide_True by done.
    + intros c d. rewrite get_setitem. case_decide as Hcn; [subst c|].
      * intros [= <-]. right; left. unfold heappush. apply elem_of_app. right. left.
      * intros Hc. destruct (P4 c d Hc) as [?|[?|?]]; [by left| |].
        -- right; left. unfold heappush. apply elem_of_app. by left.
        -- right; right. by apply (relaxed_le w m).
    + rewrite get_setitem. by rewrite decide_False by done.
    + intros x [Hx| ->%list_elem_of_singleton]%elem_of_app.
      * destruct (P6 x Hx) as (d' & Hd' & Hle').
        destruct (Hle x d' Hd') as (d'' & Hd'' & Hle''). exists d''. split; [done|lia].
      * exists (dist + 1). split; [|lia]. rewrite get_setitem.
        by rewrite decide_True by done.
  - unfold dj_measure, heappush. rewrite length_app. simpl.
    assert (sum_list_with (dj_potential g (setitem m n (dist + 1)%Z)) (each_cell g)
            < sum_list_with (dj_potential g m) (each_cell g))%nat; [|lia].
    apply (sum_list_with_decrease _ _ _ n).
    + apply NoDup_each_cell.
    + by apply elem_of_each_cell.
    + unfold dj_potential. rewrite get_setitem. rewrite decide_True by done.
      destruct Hold as [Hnone|(dn & Hdn & Hlt)].
      * rewrite Hnone.
        pose proof (marks_length_bound_unmarked g m n Pnd) as Hb.
        assert (S (length (marks m)) <= length (each_cell g))%nat; [|lia].
        apply Hb; try done. intros c d Hc. by destruct (P2 c d Hc).
      * rewrite Hdn. lia.
    + intros c Hc. unfold dj_potential. rewrite get_setitem.
      by rewrite decide_False by done.
Qed.

Lemma relax_step g w root cell dist seen m f n :
  links_in_grid g w -> n ∈ all_links w cell ->
  relax_inv g w root cell dist seen m f ->
  relax_inv g w root cell dist (seen ++ [n]) (relax dist (m, f) n).1 (relax dist (m, f) n).2 /\
  (dj_measure g (relax dist (m, f) n).1 (relax dist (m, f) n).2 <= dj_measure g m f)%nat.
Proof.
  intros Hlg Hn HI. unfold relax, Dict.mem.
  destruct (Dict.get n (marks m)) as [dn|] eqn:Hget; simpl.
  - rewrite (getitem_Some m n dn Hget). case_bool_decide as Hlt; simpl.
    + apply (relax_update g w root cell dist seen m f n); try done. right. eauto.
    + split; [|done]. destruct HI as (P1 & Pnd & P2 & P3 & P4 & P5 & P6).
      split_and!; try done.
      intros x [Hx| ->%list_elem_of_singleton]%elem_of_app; [auto|].
      exists dn. split; [done|lia].
  - apply (relax_update g w root cell dist seen m f n); try done. by left.
Qed.

Lemma relax_all g w root cell dist (nbrs : list Cell) :
  links_in_grid g w ->
  forall seen m f,
  (forall n, n ∈ nbrs -> n ∈ all_links w cell) ->
  relax_inv g w root cell dist seen m f ->
  relax_inv g w root cell dist (seen ++ nbrs)
            (foldl (relax dist) (m, f) nbrs).1 (foldl (relax dist) (m, f) nbrs).2 /\
  (dj_measure g (foldl (relax dist) (m, f) nbrs).1 (foldl (relax dist) (m, f) nbrs).2
   <= dj_measure g m f)%nat.
Proof.
  intros Hlg. induction nbrs as [|n nbrs IH]; intros seen m f Hsub HI.
  - simpl. by rewrite app_nil_r.
  - change (foldl (relax dist) (m, f) (n :: nbrs))
      with (foldl (relax dist) (relax dist (m, f) n) nbrs).
    destruct (relax_step g w root cell dist seen m f n Hlg) as [HI' Hm'].
    { apply Hsub. left. }
    { exact HI. }
    destruct (relax dist (m, f) n) as [m1 f1] eqn:Hr. cbn [fst snd] in HI', Hm'.
    destruct (IH (seen ++ [n]) m1 f1) as [HI'' Hm''].
    { intros x Hx. apply Hsub. by right. }
    { exact HI'. }
    rewrite <- app_assoc in HI''. split; [exact HI''|lia].
Qed.

(** ** The loop of DijkstraMarkup *)

Lemma relax_default dist st n : default (relax dist st n).1 = default st.1.
Proof. destruct st as [m f]. unfold relax. by destruct (_ || _). Qed.

Lemma foldl_relax_default dist nbrs :
  forall st, default (foldl (relax dist) st nbrs).1 = default st.1.
Proof.
  induction nbrs as [|n nbrs IH]; intros st; simpl; [done|].
  by rewrite IH, relax_default.
Qed.

Lemma dijkstra_loop_nil fuel w m : dijkstra_loop fuel w m [] = Ret m.
Proof. by destruct fuel. Qed.

Lemma dijkstra_loop_S fuel w m frontier :
  frontier <> [] ->
  dijkstra_loop (S fuel) w m frontier =
  ('((dist, cell), frontier') ← heappop frontier;
   if bool_decide (dist > getitem m cell) then dijkstra_loop fuel w m frontier'
   else
     let '(m', frontier'') := foldl (relax dist) (m, frontier') (all_links w cell) in
     dijkstra_loop fuel w m' frontier'').
Proof. by destruct frontier. Qed.

Lemma dj_measure_pos g m frontier : frontier <> [] -> (0 < dj_measure g m frontier)%nat.
Proof. unfold dj_measure. destruct frontier; [done|simpl; lia]. Qed.

Lemma dijkstra_loop_run g w root :
  links_in_grid g w ->
  forall fuel m frontier,
  dj_inv g w root m frontier -> (dj_measure g m frontier <= fuel)%nat ->
  exists m', dijkstra_loop fuel w m frontier = Ret m' /\
             dj_inv g w root m' [] /\ default m' = default m.
Proof.
  intros Hlg. induction fuel as [|fuel IH]; intros m F HI Hmu.
  - destruct F as [|x F]; [|unfold dj_measure in Hmu; simpl in Hmu; lia].
    exists m. by rewrite dijkstra_loop_nil.
  - destruct (decide (F = [])) as [->|Hne].
    { exists m. by rewrite dijkstra_loop_nil. }
    rewrite (dijkstra_loop_S fuel w m F Hne).
    destruct (heappop_spec F Hne) as ([dist cell] & rest & -> & Hperm).
    cbn [mbind outcome_bind].
    destruct HI as (D1 & Dnd & D2 & D3 & D4).
    assert (forall d c, (d, c) ∈ F <-> (d, c) = (dist, cell) \/ (d, c) ∈ rest) as HF.
    { intros d c. by rewrite Hperm, elem_of_cons. }
    assert (length F = S (length rest)) as Hlen by (by rewrite Hperm).
    destruct (D3 dist cell) as (d' & Hd' & Hle); [apply HF; by left|].
    rewrite (getitem_Some m cell d' Hd').
    case_bool_decide as Hstale.
    + (* a stale item *)
      apply IH.
      * split_and!; try done.
        -- intros d c Hin. apply D3, HF. by right.
        -- intros c d Hc. destruct (D4 c d Hc) as [Hin|Hrel]; [|by right].
           apply HF in Hin as [[= -> ->]|Hin]; [|by left].
           rewrite Hc in Hd'. injection Hd' as ->. lia.
      * unfold dj_measure in *. lia.
    + (* the links of [cell] are relaxed *)
      assert (d' = dist) as -> by lia.
      destruct (relax_all g w root cell dist (all_links w cell) Hlg [] m rest)
        as [HI' Hmu']; [done| |].
      { split_and!; try done.
        - intros d c Hin. apply D3, HF. by right.
        - intros c d Hc. destruct (D4 c d Hc) as [Hin|Hrel]; [|by right; right].
          apply HF in Hin as [[= -> ->]|Hin]; [by left|by right; left].
        - intros n Hn. by apply elem_of_nil in Hn. }
      pose proof (foldl_relax_default dist (all_links w cell) (m, rest)) as Hdef.
      destruct (foldl (relax dist) (m, rest) (all_links w cell)) as [m1 f1].
      cbn [fst snd] in HI', Hmu', Hdef. simpl in HI'.
      destruct HI' as (P1 & Pnd & P2 & P3 & P4 & P5 & P6).
      destruct (IH m1 f1) as (m' & Hrun & HI'' & Hdef').
      * split_and!; try done.
        intros c d Hc. destruct (P4 c d Hc) as [->|[?|?]]; [|by left|by right].
        right. rewrite P5 in Hc. injection Hc as <-. exact P6.
      * unfold dj_measure in *. lia.
      * exists m'. split_and!; [done|done|congruence].
Qed.

Lemma dj_marked_of_walk g w root m c n :
  dj_inv g w root m [] -> walk w root c n ->
  exists d, Dict.get c (marks m) = Some d /\ d <= Z.of_nat n.
Proof.
  intros (D1 & _ & _ & _ & D4) Hwalk. induction Hwalk as [|b c n Hwalk IH Hlink].
  - exists 0. split; [done|lia].
  - destruct IH as (db & Hdb & Hle).
    destruct (D4 b db Hdb) as [Hin|Hrel]; [by apply elem_of_nil in Hin|].
    destruct (Hrel c) as (d & Hd & Hle'); [by apply all_links_is_linked|].
    exists d. split; [done|lia].
Qed.

Lemma dj_final_distance g w root m c d :
  dj_inv g w root m [] ->
  Dict.get c (marks m) = Some d <-> distance w root c d.
Proof.
  intros HI. pose proof HI as (D1 & _ & D2 & _ & _). split.
  - intros Hc. destruct (D2 c d Hc) as (_ & [Hd0 _] & Hwalk). split_and!; [done|done|].
    intros n Hn. destruct (dj_marked_of_walk g w root m c n HI Hn) as (d' & Hd' & Hle).
    rewrite Hc in Hd'. injection Hd' as <-. done.
  - intros (Hd0 & Hwalk & Hmin).
    destruct (dj_marked_of_walk g w root m c _ HI Hwalk) as (d' & Hd' & Hle).
    destruct (D2 c d' Hd') as (_ & [Hd0' _] & Hwalk').
    specialize (Hmin _ Hwalk'). rewrite Hd'. f_equal. lia.
Qed.

(** [DijkstraMarkup] returns, and marks exactly the cells that can be
    reached from the root, each with its distance. *)
Lemma DijkstraMarkup_correct g w root fuel :
  wf_grid g -> links_in_grid g w -> in_grid g root ->
  (length (each_cell g) * length (each_cell g) + 1 <= fuel)%nat ->
  exists m, DijkstraMarkup fuel w root 0 = Ret m /\ default m = 0 /\
            NoDup (Dict.keys (marks m)) /\
            (forall c d, Dict.get c (marks m) = Some d ->
               in_grid g c /\ 0 <= d < Z.of_nat (length (each_cell g))) /\
            (forall c d, Dict.get c (marks m) = Some d <-> distance w root c d) /\
            (forall c n, walk w root c n ->
               exists d, Dict.get c (marks m) = Some d /\ d <= Z.of_nat n).
Proof.
  intros Hwf Hlg Hroot Hfuel. unfold DijkstraMarkup.
  set (m0 := setitem (Markup_init 0) root 0).
  assert (dj_inv g w root m0 [(0, root)]) as HI0.
  { unfold m0. split_and!.
    - rewrite get_setitem. by rewrite decide_True by done.
    - simpl. apply NoDup_singleton.
    - intros c d. rewrite get_setitem. case_decide as Hc; [|done].
      intros [= <-]. subst c. split_and!; [done|lia|simpl; lia|constructor].
    - intros d c Hin. apply list_elem_of_singleton in Hin as [= -> ->]. exists 0. split; [|lia].
      rewrite get_setitem. by rewrite decide_True by done.
    - intros c d. rewrite get_setitem. case_decide as Hc; [|done].
      intros [= <-]. subst c. left. left. }
  destruct (dijkstra_loop_run g w root Hlg fuel m0 [(0, root)] HI0)
    as (m & Hrun & HI & Hdef).
  { unfold dj_measure. simpl.
    assert (sum_list_with (dj_potential g m0) (each_cell g)
            <= length (each_cell g) * length (each_cell g))%nat; [|lia].
    apply sum_list_with_bound. intros c _. unfold dj_potential, m0.
    rewrite get_setitem. case_decide; simpl; lia. }
  exists m. split_and!; try done.
  - by destruct HI as (_ & ? & _).
  - intros c d Hc. destruct HI as (_ & Hnd & D2 & _).
    destruct (D2 c d Hc) as (Hin & Hd & _). split; [done|].
    assert (length (marks m) <= length (each_cell g))%nat; [|lia].
    apply marks_length_bound; [done|]. intros c' d' Hc'. by destruct (D2 c' d' Hc').
  - intros c d. by apply (dj_final_distance g).
  - intros c n. by apply (dj_marked_of_walk g).
Qed.

(** ** C3 *)

Lemma line_walk_east g w n :
  linked_in_line g w -> num_rows g = 1 -> Z.of_nat n < num_columns g ->
  walk w (mkCell 0 0) (mkCell 0 (Z.of_nat n)) n.
Proof.
  intros Hline Hrows. induction n as [|n IH]; intros Hn.
  - constructor.
  - apply (walk_snoc w _ (mkCell 0 (Z.of_nat n))); [apply IH; lia|].
    apply Hline. unfold in_grid. simpl. lia.
Qed.

Lemma line_walk_column g w c n :
  linked_in_line g w -> walk w (mkCell 0 0) c n -> column c <= Z.of_nat n.
Proof.
  intros Hline Hwalk. induction Hwalk as [|b c n _ IH Hlink]; [simpl; lia|].
  apply Hline in Hlink as (_ & _ & Hcol). lia.
Qed.

Lemma line_distance g w k :
  linked_in_line g w -> num_rows g = 1 -> 0 <= k < num_columns g ->
  distance w (mkCell 0 0) (mkCell 0 k) k.
Proof.
  intros Hline Hrows Hk. split_and!; [lia| |].
  - pose proof (line_walk_east g w (Z.to_nat k) Hline Hrows) as Hwalk.
    rewrite Z2Nat.id in Hwalk by lia. apply Hwalk. lia.
  - intros n Hwalk. by apply (line_walk_column g w _ n Hline) in Hwalk.
Qed.

(** C3: on a grid of one row and [N >= 1] columns whose cells are linked
    in an east-west line, [DijkstraMarkup] with root [cell_at(0, 0)]
    returns, and the markup value of [cell_at(0, k)] is [k], for every
    [0 <= k < N]. *)
Theorem dijkstra_line (N : Z) (w : World) (fuel : nat) (k : Z) :
  1 <= N -> linked_in_line (mkGrid 1 N) w ->
  (Z.to_nat N * Z.to_nat N + 1 <= fuel)%nat ->
  0 <= k < N ->
  exists root cell m,
    cell_at (mkGrid 1 N) 0 0 = Some root /\
    cell_at (mkGrid 1 N) 0 k = Some cell /\
    DijkstraMarkup fuel w root 0 = Ret m /\
    getitem m cell = k.
Proof.
  intros HN Hline Hfuel Hk. set (g := mkGrid 1 N).
  assert (wf_grid g) as Hwf by (unfold wf_grid; simpl; lia).
  assert (length (each_cell g) = Z.to_nat N) as Hlen.
  { pose proof (length_each_cell g Hwf) as Hl. unfold size in Hl. simpl in Hl. lia. }
  destruct (DijkstraMarkup_correct g w (mkCell 0 0) fuel) as (m & Hrun & _ & _ & _ & Hdist & _).
  - done.
  - intros a b Hab. apply Hline in Hab. tauto.
  - unfold in_grid. simpl. lia.
  - by rewrite Hlen.
  - exists (mkCell 0 0), (mkCell 0 k), m. split_and!.
    + apply cell_at_in_grid; simpl; lia.
    + apply cell_at_in_grid; simpl; lia.
    + done.
    + apply getitem_Some, Hdist. by apply (line_distance g).
Qed.

Lemma dijkstra_line_witness :
  let w0 := mkWorld (fun _ => []) (fun _ => 0) 0 in
  let w := (link (mkCell 0 1) (mkCell 0 2) true
              (link (mkCell 0 0) (mkCell 0 1) true w0).2).2 in
  exists root cell m,
    cell_at (mkGrid 1 3) 0 0 = Some root /\
    cell_at (mkGrid 1 3) 0 2 = Some cell /\
    DijkstraMarkup 10 w root 0 = Ret m /\
    getitem m cell = 2.
Proof.
  intros w0 w. apply (dijkstra_line 3 w 10 2).
  - lia.
  - intros a b. unfold w.
    destruct (link_run (mkCell 0 0) (mkCell 0 1) w0) as (w1 & -> & _ & _ & Hl1 & _).
    cbn [snd].
    destruct (link_run (mkCell 0 1) (mkCell 0 2) w1) as (w2 & -> & _ & _ & Hl2 & _).
    cbn [snd]. rewrite Hl2, Hl1.
    change (is_linked w0 a b) with false.
    rewrite !orb_true_iff, !bool_decide_eq_true.
    destruct a as [ra ca], b as [rb cb]. unfold in_grid. simpl. split.
    + intros H. destruct_or!; [done| | | |]; destruct H; simplify_eq; lia.
    + intros ([? ?] & [? ?] & Hcol).
      assert (ra = 0) as -> by lia. assert (rb = 0) as -> by lia.
      assert (ca = 0 \/ ca = 1 \/ ca = 2) as [-> | [-> | ->]] by lia.
      * assert (cb = 1) as -> by lia. tauto.
      * assert (cb = 0 \/ cb = 2) as [-> | ->] by lia; tauto.
      * assert (cb = 1) as -> by lia. tauto.
  - simpl. lia.
  - lia.
Defined.

(** ** The walk back to the start *)

Lemma extremum_from_ext {A K} (better : K -> K -> bool) (key key' : A -> outcome K)
    best kbest l :
  (forall y, y ∈ l -> key y = key' y) ->
  extremum_from better key best kbest l = extremum_from better key' best kbest l.
Proof.
  revert best kbest. induction l as [|y l IH]; intros best kbest Hk; simpl; [done|].
  rewrite (Hk y) by left. destruct (key' y) as [k| |]; cbv [mbind outcome_bind]; [|done|done].
  destruct (better k kbest); apply IH; intros z Hz; apply Hk; by right.
Qed.

(** [min] returns an item whose key is not above any other key. *)
Lemma min_from_lower {A} (f : A -> Z) best l x :
  extremum_from (fun k kbest => bool_decide (k < kbest)) (fun a => Ret (f a))
                best (f best) l = Ret x ->
  f x <= f best /\ forall y, y ∈ l -> f x <= f y.
Proof.
  revert best. induction l as [|y l IH]; intros best; simpl.
  - intros [= <-]. split; [lia|]. intros y Hy. inversion Hy.
  - cbv [mbind outcome_bind]. case_bool_decide as Hlt; intros Hx.
    + apply IH in Hx as [H1 H2]. split; [lia|].
      intros z Hz. inversion Hz; subst; auto.
    + apply IH in Hx as [H1 H2]. split; [lia|].
      intros z Hz. inversion Hz; subst; [lia|auto].
Qed.

Lemma extremum_min {A} (key : A -> outcome Z) (f : A -> Z) l :
  l <> [] -> (forall y, y ∈ l -> key y = Ret (f y)) ->
  exists x, extremum (fun k kbest => bool_decide (k < kbest)) key l = Ret x /\
            x ∈ l /\ forall y, y ∈ l -> f x <= f y.
Proof.
  destruct l as [|a l]; [done|]. intros _ Hk. simpl.
  rewrite (Hk a) by left. cbv [mbind outcome_bind].
  rewrite (extremum_from_ext _ key (fun a => Ret (f a))) by (intros y Hy; apply Hk; by right).
  destruct (extremum_from_total (fun k kbest => bool_decide (k < kbest)) f a l)
    as (x & Hx & Hin).
  exists x. split; [done|]. apply min_from_lower in Hx as [H1 H2]. split.
  - destruct Hin as [->|Hin]; [left|by right].
  - intros y Hy. inversion Hy; subst; auto.
Qed.

Lemma dict_get_foldl_set {K V} `{EqDecision K} (v : V) (l : list K) :
  forall (d : Dict.t K V) k,
  Dict.get k (foldl (fun d x => Dict.set x v d) d l) =
  if decide (k ∈ l) then Some v else Dict.get k d.
Proof.
  induction l as [|x l IH]; intros d k; cbn [foldl].
  - destruct (decide (k ∈ [])) as [H|_]; [by apply elem_of_nil in H|done].
  - rewrite IH, dict_get_set.
    destruct (decide (k ∈ l)), (decide (k = x)), (decide (k ∈ x :: l));
      try done; exfalso; set_solver.
Qed.

Lemma reach_walk w a b : reach w a b -> exists n, walk w a b n.
Proof.
  intros Hr. apply rtc_nsteps in Hr as [n Hn]. exists n.
  revert b Hn. induction n as [|n IH]; intros b Hn.
  - inversion_clear Hn. constructor.
  - apply nsteps_inv_r in Hn as (c & Hac & Hcb). apply (walk_snoc w a c); auto.
Qed.

Section WalkBack.
Context {Mk : Type}.
Variables (w : World) (start : Cell) (dm : Markup Z).
Hypothesis Hsym : symmetric w.
Hypothesis Hdist :
  forall c d, Dict.get c (marks dm) = Some d <-> distance w start c d.
Hypothesis Hwalk :
  forall c n, walk w start c n ->
    exists d, Dict.get c (marks dm) = Some d /\ d <= Z.of_nat n.

Lemma wb_start_mark : Dict.get start (marks dm) = Some 0.
Proof.
  destruct (Hwalk start 0%nat (walk_nil _ _)) as (d & Hd & Hle).
  pose proof (proj1 (Hdist _ _) Hd) as (H0 & _).
  assert (d = 0) as -> by lia. done.
Qed.

Lemma wb_mark_zero c : Dict.get c (marks dm) = Some 0 -> c = start.
Proof.
  intros Hc. apply Hdist in Hc as (_ & Hw & _). simpl in Hw. by inversion Hw.
Qed.

Lemma wb_nbr_marks c d nb :
  Dict.get c (marks dm) = Some d -> nb ∈ all_links w c ->
  exists d', Dict.get nb (marks dm) = Some d' /\ d - 1 <= d'.
Proof.
  intros Hc Hnb. apply all_links_is_linked in Hnb.
  apply Hdist in Hc as (H0 & Hw & Hmin).
  destruct (Hwalk nb _ (walk_snoc w start c nb _ Hw Hnb)) as (d' & Hd' & _).
  exists d'. split; [done|].
  pose proof (proj1 (Hdist _ _) Hd') as (H0' & Hw' & _).
  rewrite Hsym in Hnb.
  pose proof (Hmin _ (walk_snoc w start nb c _ Hw' Hnb)). lia.
Qed.

Lemma wb_pred c d :
  Dict.get c (marks dm) = Some d -> 0 < d ->
  exists b, b ∈ all_links w c /\ Dict.get b (marks dm) = Some (d - 1).
Proof.
  intros Hc Hd. pose proof (proj1 (Hdist _ _) Hc) as (_ & Hw & _).
  replace (Z.to_nat d) with (S (Z.to_nat (d - 1))) in Hw by lia.
  inversion Hw as [|b c' n Hwb Hlink]; subst.
  assert (b ∈ all_links w c) as Hb by (apply all_links_is_linked; by rewrite Hsym).
  exists b. split; [done|].
  destruct (Hwalk b _ Hwb) as (db & Hdb & Hle).
  destruct (wb_nbr_marks c d b Hc Hb) as (db' & Hdb' & Hge).
  rewrite Hdb in Hdb'. injection Hdb' as <-. rewrite Hdb. f_equal. lia.
Qed.

Lemma walk_back_run (path_marker : Mk) :
  forall (n fuel : nat) (current : Cell) (path : Dict.t Cell (Z + Mk)),
  Dict.get current (marks dm) = Some (Z.of_nat n) -> (n <= fuel)%nat ->
  exists q,
    walk_back fuel w dm start path_marker path current =
      Ret (foldl (fun d x => Dict.set x (inr path_marker) d) path q) /\
    length q = n /\
    head (q ++ [start]) = Some current /\
    (forall x y, (x, y) ∈ consec (q ++ [start]) -> is_linked w x y = true) /\
    (forall c, c ∈ q ->
       exists d, Dict.get c (marks dm) = Some d /\ 0 < d <= Z.of_nat n) /\
    NoDup q.
Proof.
  induction n as [|n IH]; intros fuel current path Hcur Hfuel.
  - apply wb_mark_zero in Hcur as ->. exists []. split_and!; try done.
    + destruct fuel; simpl; by rewrite decide_True by done.
    + intros x y Hxy. by apply elem_of_nil in Hxy.
    + intros c Hc. by apply elem_of_nil in Hc.
    + constructor.
  - assert (current <> start) as Hne.
    { intros ->. rewrite wb_start_mark in Hcur. injection Hcur. lia. }
    destruct fuel as [|fuel]; [lia|]. simpl. rewrite decide_False by done.
    destruct (wb_pred current _ Hcur) as (b & Hb & Hbm); [lia|].
    destruct (extremum_min (marks_lookup dm) (getitem dm) (all_links w current))
      as (x & -> & Hx & Hmin).
    { intros Hnil. rewrite Hnil in Hb. by apply elem_of_nil in Hb. }
    { intros y Hy. destruct (wb_nbr_marks current _ y Hcur Hy) as (d' & Hd' & _).
      unfold marks_lookup. rewrite Hd'. by rewrite (getitem_Some dm y d'). }
    cbv [mbind outcome_bind].
    destruct (wb_nbr_marks current _ x Hcur Hx) as (dx & Hdx & Hge).
    pose proof (Hmin b Hb) as Hle.
    rewrite (getitem_Some dm x dx Hdx), (getitem_Some dm b _ Hbm) in Hle.
    assert (dx = Z.of_nat n) as -> by lia.
    destruct (IH fuel x (Dict.set current (inr path_marker) path) Hdx)
      as (q & -> & Hlen & Hhd & Hcon & Hq & Hnd); [lia|].
    exists (current :: q). split_and!.
    + done.
    + simpl. by rewrite Hlen.
    + done.
    + intros y z Hyz. change ((current :: q) ++ [start]) with (current :: (q ++ [start])) in Hyz.
      destruct (q ++ [start]) as [|x' l] eqn:Hql; [by destruct q|].
      injection Hhd as ->. rewrite consec_cons in Hyz.
      apply elem_of_cons in Hyz as [[= -> ->]|Hyz]; [|by apply Hcon].
      by apply all_links_is_linked.
    + intros c [->|Hc]%elem_of_cons.
      * exists (Z.of_nat (S n)). split; [done|lia].
      * destruct (Hq c Hc) as (d & Hd & Hr). exists d. split; [done|lia].
    + constructor; [|done]. intros Hc. destruct (Hq _ Hc) as (d & Hd & Hr).
      rewrite Hcur in Hd. injection Hd as <-. lia.
Qed.
End WalkBack.

(** [ShortestPathMarkup] on a connected maze. *)
Lemma ShortestPathMarkup_run {Mk} g w start goal fuel (path_marker non_path_marker end_marker : Mk) :
  wf_grid g -> links_in_grid g w -> symmetric w -> connected g w ->
  in_grid g start -> in_grid g goal ->
  (length (each_cell g) * length (each_cell g) + 1 <= fuel)%nat ->
  exists dm m,
    DijkstraMarkup fuel w start 0 = Ret dm /\
    ShortestPathMarkup fuel g w start goal path_marker non_path_marker end_marker = Ret m /\
    getitem m start = inr end_marker /\
    getitem m goal = inr end_marker /\
    shortest_path_marked g w m start goal path_marker non_path_marker end_marker
                         (getitem dm goal).
Proof.
  intros Hwf Hlg Hsym Hconn Hstart Hgoal Hfuel.
  destruct (DijkstraMarkup_correct g w start fuel Hwf Hlg Hstart Hfuel)
    as (dm & Hrun & Hdef & _ & Hbound & Hdist & Hwalk).
  exists dm. unfold ShortestPathMarkup. rewrite Hrun. cbv [mbind outcome_bind].
  destruct (reach_walk w start goal (Hconn _ _ Hstart Hgoal)) as (n0 & Hn0).
  destruct (Hwalk goal n0 Hn0) as (d & Hd & _).
  destruct (Hbound goal d Hd) as (_ & Hd0 & HdN).
  rewrite (getitem_Some dm goal d Hd).
  set (path0 := foldl (fun path cell => Dict.set cell (inr non_path_marker) path)
                      Dict.empty (each_cell g)).
  destruct (walk_back_run w start dm Hsym Hdist Hwalk path_marker (Z.to_nat d) fuel goal path0)
    as (q & -> & Hlen & Hhd & Hcon & Hq & Hnd); [by rewrite Z2Nat.id by lia|nia|].
  eexists. split; [done|]. split; [done|].
  assert (forall c, in_grid g c ->
    getitem (mkMarkup
       (Dict.set goal (inr end_marker)
          (Dict.set start (inr end_marker)
             (foldl (fun d x => Dict.set x (inr path_marker) d) path0 q)))
       (inl (default dm))) c
    = inr (if decide (c = start \/ c = goal) then end_marker
           else if decide (c ∈ q) then path_marker else non_path_marker)) as Hval.
  { intros c Hc. unfold getitem. cbn [marks].
    rewrite !dict_get_set, dict_get_foldl_set. unfold path0.
    rewrite dict_get_foldl_set.
    rewrite (decide_True (P := c ∈ each_cell g)) by (by apply elem_of_each_cell).
    repeat case_decide; try done; naive_solver. }
  assert (start ∉ q) as Hsq.
  { intros Hc. destruct (Hq _ Hc) as (d' & Hd' & Hr).
    rewrite (wb_start_mark w start dm Hdist Hwalk) in Hd'. injection Hd' as <-. lia. }
  split_and!.
  - rewrite Hval by done. by rewrite decide_True by (by left).
  - rewrite Hval by done. by rewrite decide_True by (by right).
  - exists (reverse (q ++ [start])). split_and!.
    + split_and!.
      * by rewrite reverse_app.
      * by rewrite last_reverse.
      * apply NoDup_reverse, NoDup_app. split_and!; [done| |apply NoDup_singleton].
        intros x Hx ->%list_elem_of_singleton. done.
      * intros x y Hxy.
        assert (edge_in (consec (reverse (q ++ [start]))) x y = true) as He.
        { apply bool_decide_eq_true. by left. }
        rewrite edge_in_consec_reverse in He. apply bool_decide_eq_true in He as [He|He].
        -- by apply Hcon.
        -- rewrite Hsym. by apply Hcon.
    + rewrite length_reverse, length_app, Hlen. simpl. lia.
    + intros c Hc. rewrite Hval by done. f_equal.
      case_decide as Hends; [done|].
      assert (c ∈ reverse (q ++ [start]) <-> c ∈ q) as Hin.
      { rewrite elem_of_reverse, elem_of_app, list_elem_of_singleton. naive_solver. }
      repeat case_decide; try done; tauto.
Qed.

(** ** C2 *)

Lemma binary_tree_world g w :
  wf_grid g -> unlinked w -> spanning_tree g (binary_tree g w).2.
Proof.
  intros Hwf Hw.
  destruct (post_total_unit _ _ _ (binary_tree_total g w Hwf Hw)) as (w' & Hrun & Hst).
  rewrite Hrun. exact Hst.
Qed.

(** C2, as stated, fails on the grid of two linked cells with the
    markers of the source: both cells are the ends of the path and hold
    [end_marker], so no cell holds [path_marker], while the chain from
    start to goal has two cells. *)
Lemma shortest_path_marker_counterexample :
  ~ (forall g w start goal fuel dm m (path_marker non_path_marker end_marker : string),
       wf_grid g -> spanning_tree g w -> in_grid g start -> in_grid g goal ->
       DijkstraMarkup fuel w start 0 = Ret dm ->
       ShortestPathMarkup fuel g w start goal path_marker non_path_marker end_marker
         = Ret m ->
       getitem m start = inr end_marker /\ getitem m goal = inr end_marker /\
       path_marker_chain g w m start goal path_marker (getitem dm goal)).
Proof.
  intros H.
  set (g := mkGrid 1 2). set (w0 := mkWorld (fun _ => []) (fun _ => 0) 0).
  assert (wf_grid g) as Hwf by (unfold wf_grid; simpl; lia).
  pose proof (binary_tree_world g w0 Hwf (fun _ => eq_refl)) as Hst.
  assert (exists dm, DijkstraMarkup 10 (binary_tree g w0).2 (mkCell 0 0) 0 = Ret dm)
    as (dm & Hdm).
  { vm_compute. eexists. reflexivity. }
  assert (exists m,
    ShortestPathMarkup 10 g (binary_tree g w0).2 (mkCell 0 0) (mkCell 0 1)
      "*"%string " "%string "^"%string = Ret m /\
    getitem m (mkCell 0 0) = inr "^"%string) as (m & Hm & Hms).
  { vm_compute. eexists. split; reflexivity. }
  destruct (H g _ (mkCell 0 0) (mkCell 0 1) 10%nat dm m
              "*"%string " "%string "^"%string Hwf Hst)
    as (_ & _ & p & (Hhd & _) & _ & Hval).
  - unfold in_grid. simpl. lia.
  - unfold in_grid. simpl. lia.
  - exact Hdm.
  - exact Hm.
  - clear Hdm Hm Hst.
    assert (mkCell 0 0 ∈ p) as Hin.
    { destruct p as [|x p]; [discriminate Hhd|]. injection Hhd as ->. left. }
    apply Hval in Hin; [|unfold in_grid; simpl; lia].
    pose proof (eq_trans (eq_sym Hms) Hin) as Habs. discriminate Habs.
Qed.

(** C2, amended: for every grid whose link graph is a spanning tree and
    every pair of its cells start, goal, [ShortestPathMarkup(grid, start,
    goal)] returns; the markup value of start and of goal is
    [end_marker], and there is a simple chain of linked cells from start
    to goal of [DijkstraMarkup(grid, start)[goal] + 1] cells such that the
    cells of the chain other than start and goal have the value
    [path_marker] and every other cell of the grid has the value
    [non_path_marker]. *)
Theorem shortest_path_marks {Mk} (g : Grid) (w : World) (start goal : Cell) (fuel : nat)
    (path_marker non_path_marker end_marker : Mk) :
  wf_grid g -> spanning_tree g w -> in_grid g start -> in_grid g goal ->
  size g * size g < Z.of_nat fuel ->
  exists dm m,
    DijkstraMarkup fuel w start 0 = Ret dm /\
    ShortestPathMarkup fuel g w start goal path_marker non_path_marker end_marker = Ret m /\
    getitem m start = inr end_marker /\
    getitem m goal = inr end_marker /\
    shortest_path_marked g w m start goal path_marker non_path_marker end_marker
                         (getitem dm goal).
Proof.
  intros Hwf (Hlg & Hsym & Hconn & _) Hstart Hgoal Hfuel.
  apply ShortestPathMarkup_run; try done.
  pose proof (length_each_cell g Hwf). nia.
Qed.

Lemma shortest_path_marks_witness :
  let g := mkGrid 2 2 in
  let w := (binary_tree g (mkWorld (fun _ => []) (fun n => Z.of_nat n) 0)).2 in
  exists dm m,
    DijkstraMarkup 20 w (mkCell 0 0) 0 = Ret dm /\
    ShortestPathMarkup 20 g w (mkCell 0 0) (mkCell 1 1) "*"%string " "%string "^"%string
      = Ret m /\
    getitem m (mkCell 0 0) = inr "^"%string /\
    getitem m (mkCell 1 1) = inr "^"%string /\
    shortest_path_marked g w m (mkCell 0 0) (mkCell 1 1) "*"%string " "%string "^"%string
                         (getitem dm (mkCell 1 1)).
Proof.
  intros g w.
  assert (wf_grid g) as Hwf by (unfold wf_grid; simpl; lia).
  apply (shortest_path_marks g w (mkCell 0 0) (mkCell 1 1) 20).
  - exact Hwf.
  - apply binary_tree_world; [exact Hwf|]. intros c. reflexivity.
  - unfold in_grid. simpl. lia.
  - unfold in_grid. simpl. lia.
  - vm_compute. reflexivity.
Defined.

(** * Further properties of the cells *)

(** [Cell.__lt__] is a strict total order on cells that agrees with
    [Cell.__eq__]: it is irreflexive, transitive and asymmetric, and two
    cells that are not equal are ordered one way or the other. *)
Theorem Cell_lt_strict_total_order (a b c : Cell) :
  Cell_lt a a = false /\
  (Cell_lt a b = true -> Cell_lt b c = true -> Cell_lt a c = true) /\
  (Cell_lt a b = true -> Cell_lt b a = false) /\
  (a <> b -> Cell_lt a b = true \/ Cell_lt b a = true).
Proof.
  split_and!.
  - apply Cell_lt_irrefl.
  - unfold Cell_lt. repeat case_bool_decide; simpl; try done; lia.
  - apply Cell_lt_asym.
  - intros Hne. destruct (Cell_lt a b) eqn:Hab; [by left|right].
    by apply Cell_lt_total.
Qed.

Lemma dict_del_set_fresh {K V} `{EqDecision K} (k : K) (v : V) (d : Dict.t K V) :
  Dict.mem k d = false -> Dict.del k (Dict.set k v d) = Some d.
Proof.
  unfold Dict.mem. induction d as [|[k0 v0] d IH]; simpl; intros Hk.
  - by case_decide.
  - destruct (decide (k = k0)) as [->|Hk0]; [done|]. simpl.
    destruct (decide (k = k0)); [done|]. by rewrite IH.
Qed.

Lemma dict_del_length {K V} `{EqDecision K} (k : K) (d d' : Dict.t K V) :
  Dict.del k d = Some d' -> length d = S (length d').
Proof.
  revert d'. induction d as [|[k0 v0] d IH]; simpl; intros d' Hdel; [done|].
  case_decide; simplify_eq; [done|].
  destruct (Dict.del k d) as [d''|]; [|done]. simplify_eq. simpl.
  f_equal. by apply IH.
Qed.

(** Linking two cells that are already linked to each other returns and
    leaves the [all_links()] list of every cell, order included, and so
    every [link_count()], as it was. *)
Theorem link_again_keeps_links (w : World) (a b : Cell) :
  is_linked w a b = true -> is_linked w b a = true ->
  exists w', link a b true w = (Ret tt, w') /\
    (forall c, all_links w' c = all_links w c) /\
    (forall c, link_count w' c = link_count w c).
Proof.
  intros Hab Hba. unfold link. rewrite bind_run, links_add_run, links_add_run.
  eexists. split; [done|].
  assert (forall c, all_links
    {| links := fun c0 => if decide (c0 = b)
         then Dict.set a true
                (links {| links := fun c1 => if decide (c1 = a)
                                   then Dict.set b true (links w a) else links w c1;
                          rng := rng w; rng_pos := rng_pos w |} b)
         else links {| links := fun c1 => if decide (c1 = a)
                                then Dict.set b true (links w a) else links w c1;
                       rng := rng w; rng_pos := rng_pos w |} c0;
       rng := rng w; rng_pos := rng_pos w |} c = all_links w c) as Hall.
  { intros c. unfold all_links. simpl.
    apply dict_mem_keys in Hab, Hba.
    destruct (decide (c = b)) as [->|Hcb].
    - destruct (decide (b = a)) as [->|Hba'].
      + rewrite dict_keys_set_in; rewrite dict_keys_set_in; done.
      + by rewrite dict_keys_set_in.
    - destruct (decide (c = a)) as [->|Hca]; [|done].
      by rewrite dict_keys_set_in. }
  split; [exact Hall|].
  intros c. by rewrite !link_count_all_links, Hall.
Qed.

Lemma link_again_keeps_links_witness :
  let w := (link (mkCell 0 0) (mkCell 0 1) true (mkWorld (fun _ => []) (fun _ => 0) 0)).2 in
  exists w', link (mkCell 0 1) (mkCell 0 0) true w = (Ret tt, w') /\
    (forall c, all_links w' c = all_links w c) /\
    (forall c, link_count w' c = link_count w c).
Proof.
  intros w. apply (link_again_keeps_links w (mkCell 0 1) (mkCell 0 0)); reflexivity.
Defined.

(** Linking two distinct cells that are not linked and unlinking them
    again returns twice and restores the [links] dictionary of every
    cell. *)
Theorem link_unlink_round_trip (w : World) (a b : Cell) :
  a <> b -> is_linked w a b = false -> is_linked w b a = false ->
  exists w1 w2, link a b true w = (Ret tt, w1) /\
    unlink a b true w1 = (Ret tt, w2) /\
    forall c, links w2 c = links w c.
Proof.
  intros Hne Hab Hba. unfold link, unlink.
  rewrite bind_run, links_add_run, links_add_run.
  eexists. eexists. split; [reflexivity|].
  rewrite bind_run, links_del_run. simpl.
  destruct (decide (a = b)) as [?|_]; [contradiction|].
  destruct (decide (a = a)) as [_|Hf]; [|by destruct Hf].
  rewrite (dict_del_set_fresh b true (links w a) Hab).
  rewrite links_del_run. simpl.
  destruct (decide (b = b)) as [_|Hf]; [|by destruct Hf].
  destruct (decide (b = a)) as [Hf|_]; [by destruct Hne|].
  rewrite (dict_del_set_fresh a true (links w b) Hba).
  split; [reflexivity|]. intros c. simpl.
  repeat case_decide; simplify_eq; done.
Qed.

Lemma link_unlink_round_trip_witness :
  let w := mkWorld (fun _ => []) (fun _ => 0) 0 in
  exists w1 w2, link (mkCell 0 0) (mkCell 0 1) true w = (Ret tt, w1) /\
    unlink (mkCell 0 0) (mkCell 0 1) true w1 = (Ret tt, w2) /\
    forall c, links w2 c = links w c.
Proof.
  intros w. apply (link_unlink_round_trip w (mkCell 0 0) (mkCell 0 1));
    [discriminate | reflexivity | reflexivity].
Defined.

(** [unlink] of a cell that is not linked ends in [KeyError] and changes
    nothing, whatever [bidirectional] is. *)
Theorem unlink_missing (w : World) (a b : Cell) (bidirectional : bool) :
  is_linked w a b = false ->
  unlink a b bidirectional w = (Raise KeyError, w).
Proof.
  intros Hab. unfold unlink. rewrite bind_run. by rewrite (links_del_fail a b w Hab).
Qed.

Lemma unlink_missing_witness :
  unlink (mkCell 0 0) (mkCell 0 1) true (mkWorld (fun _ => []) (fun _ => 0) 0)
  = (Raise KeyError, mkWorld (fun _ => []) (fun _ => 0) 0).
Proof.
  apply (unlink_missing (mkWorld (fun _ => []) (fun _ => 0) 0)). reflexivity.
Defined.

(** A bidirectional [unlink] of a cell from itself always ends in
    [KeyError]: the second deletion finds the key already removed.  The
    cell is not linked to itself afterwards, and the other cells keep their
    links. *)
Theorem unlink_self (w : World) (a : Cell) :
  dict_ok w ->
  exists w', unlink a a true w = (Raise KeyError, w') /\
    is_linked w' a a = false /\
    forall c, c <> a -> links w' c = links w c.
Proof.
  intros Hok. destruct (is_linked w a a) eqn:Haa.
  - destruct (links_del_ok a a w Haa Hok) as (w1 & Hrun & _ & _ & Hl & Hframe & _).
    assert (is_linked w1 a a = false) as Haa1.
    { rewrite Hl, Haa. by rewrite bool_decide_eq_true_2. }
    exists w1. unfold unlink. rewrite (bind_ret_run _ _ _ _ _ Hrun).
    by rewrite (links_del_fail a a w1 Haa1).
  - exists w. unfold unlink. rewrite bind_run. by rewrite (links_del_fail a a w Haa).
Qed.

Lemma unlink_self_witness :
  let w := (link (mkCell 0 0) (mkCell 0 0) true (mkWorld (fun _ => []) (fun _ => 0) 0)).2 in
  exists w', unlink (mkCell 0 0) (mkCell 0 0) true w = (Raise KeyError, w') /\
    is_linked w' (mkCell 0 0) (mkCell 0 0) = false /\
    forall c, c <> mkCell 0 0 -> links w' c = links w c.
Proof.
  intros w. apply (unlink_self w (mkCell 0 0)).
  intros c. unfold all_links, w. simpl. case_decide.
  - apply NoDup_singleton.
  - apply NoDup_nil_2.
Defined.

(** A bidirectional [unlink] of two distinct cells that are linked to each
    other returns; afterwards neither is linked to the other, every other
    link is as before, both [link_count()]s are one less and the [links] of
    the other cells are untouched. *)
Theorem unlink_linked (w : World) (a b : Cell) :
  dict_ok w -> a <> b ->
  is_linked w a b = true -> is_linked w b a = true ->
  exists w', unlink a b true w = (Ret tt, w') /\
    is_linked w' a b = false /\ is_linked w' b a = false /\
    (forall x y, (x, y) <> (a, b) -> (x, y) <> (b, a) ->
       is_linked w' x y = is_linked w x y) /\
    link_count w a = S (link_count w' a) /\
    link_count w b = S (link_count w' b) /\
    (forall c, c <> a -> c <> b -> links w' c = links w c).
Proof.
  intros Hok Hne Hab Hba.
  destruct (links_del_ok a b w Hab Hok) as (w1 & Hrun1 & _ & _ & Hl1 & Hframe1 & Hok1).
  assert (is_linked w1 b a = true) as Hba1.
  { rewrite Hl1, Hba. rewrite bool_decide_eq_false_2; [done|]. naive_solver. }
  destruct (links_del_ok b a w1 Hba1 Hok1) as (w2 & Hrun2 & _ & _ & Hl2 & Hframe2 & _).
  exists w2. split_and!.
  - unfold unlink. by rewrite (bind_ret_run _ _ _ _ _ Hrun1).
  - rewrite Hl2, Hl1, Hab. by rewrite (bool_decide_eq_true_2 (a = a /\ b = b)).
  - rewrite Hl2, Hl1, Hba. rewrite (bool_decide_eq_true_2 (b = b /\ a = a)) by done.
    by rewrite andb_false_r.
  - intros x y Hxy Hyx. rewrite Hl2, Hl1.
    rewrite !bool_decide_eq_false_2 by naive_solver. by rewrite !andb_true_r.
  - rewrite links_del_run in Hrun1, Hrun2.
    destruct (Dict.del b (links w a)) as [d1|] eqn:Hd1; [|done].
    injection Hrun1 as <-. simpl in Hrun2.
    rewrite (decide_False (P := b = a)) in Hrun2 by done.
    destruct (Dict.del a (links w b)) as [d2|] eqn:Hd2; [|done].
    injection Hrun2 as <-. unfold link_count. simpl.
    rewrite (decide_False (P := a = b)) by done.
    rewrite (decide_True (P := a = a)) by done.
    by apply (dict_del_length b).
  - rewrite links_del_run in Hrun1, Hrun2.
    destruct (Dict.del b (links w a)) as [d1|] eqn:Hd1; [|done].
    injection Hrun1 as <-. simpl in Hrun2.
    rewrite (decide_False (P := b = a)) in Hrun2 by done.
    destruct (Dict.del a (links w b)) as [d2|] eqn:Hd2; [|done].
    injection Hrun2 as <-. unfold link_count. simpl.
    rewrite (decide_True (P := b = b)) by done.
    by apply (dict_del_length a).
  - intros c Hca Hcb. rewrite (Hframe2 c Hcb). by apply Hframe1.
Qed.

Lemma unlink_linked_witness :
  let w := (link (mkCell 0 0) (mkCell 0 1) true (mkWorld (fun _ => []) (fun _ => 0) 0)).2 in
  exists w', unlink (mkCell 0 1) (mkCell 0 0) true w = (Ret tt, w') /\
    is_linked w' (mkCell 0 1) (mkCell 0 0) = false /\
    is_linked w' (mkCell 0 0) (mkCell 0 1) = false /\
    (forall x y, (x, y) <> (mkCell 0 1, mkCell 0 0) -> (x, y) <> (mkCell 0 0, mkCell 0 1) ->
       is_linked w' x y = is_linked w x y) /\
    link_count w (mkCell 0 1) = S (link_count w' (mkCell 0 1)) /\
    link_count w (mkCell 0 0) = S (link_count w' (mkCell 0 0)) /\
    (forall c, c <> mkCell 0 1 -> c <> mkCell 0 0 -> links w' c = links w c).
Proof.
  intros w. apply (unlink_linked w (mkCell 0 1) (mkCell 0 0)).
  - intros c. unfold all_links, w. simpl. repeat case_decide; simpl;
      try apply NoDup_singleton; apply NoDup_nil_2.
  - discriminate.
  - reflexivity.
  - reflexivity.
Defined.

(** * Further properties of the grid *)

(** [Grid(num_rows, num_columns)] ends in [AssertionError], the state
    untouched, when a dimension is not positive; otherwise it returns the
    grid of these dimensions, on which no cell is linked to any cell and
    [deadends()] is empty; the state of [random] is not touched. *)
Theorem Grid_init_spec (nr nc : Z) (w : World) :
  (nr <= 0 \/ nc <= 0 -> Grid_init nr nc w = (Raise AssertionError, w)) /\
  (0 < nr -> 0 < nc ->
     exists w', Grid_init nr nc w = (Ret (mkGrid nr nc), w') /\
       (forall a b, is_linked w' a b = false) /\
       (forall c, link_count w' c = 0%nat) /\
       deadends (mkGrid nr nc) w' = [] /\
       rng w' = rng w /\ rng_pos w' = rng_pos w).
Proof.
  unfold Grid_init, assert. split.
  - intros H. repeat case_bool_decide; try done; lia.
  - intros Hr Hc. rewrite !bool_decide_eq_true_2 by lia.
    eexists. split; [reflexivity|]. split_and!; try done.
    unfold deadends.
    induction (each_cell (mkGrid nr nc)) as [|x l IH]; [done|].
    rewrite filter_cons_False; [done|]. by cbn.
Qed.

Lemma each_row_lengths g :
  Forall (fun l : list Cell => length l = Z.to_nat (num_columns g)) (each_row g).
Proof.
  unfold each_row. apply Forall_fmap, Forall_forall. intros r _. simpl.
  by rewrite length_fmap, length_seqZ.
Qed.

Lemma each_cell_lookup g i x :
  each_cell g !! i = Some x <->
  exists j k : nat, i = (j * Z.to_nat (num_columns g) + k)%nat /\
    Z.of_nat j < num_rows g /\ Z.of_nat k < num_columns g /\
    x = mkCell (Z.of_nat j) (Z.of_nat k).
Proof.
  unfold each_cell.
  rewrite (join_lookup_Some_same_length _ _ _ _ (each_row_lengths g)).
  unfold each_row. split.
  - intros (j & l & k & Hl & Hx & ->).
    rewrite list_lookup_fmap in Hl.
    destruct (seqZ 0 (num_rows g) !! j) as [r|] eqn:Hr; [|done].
    apply lookup_seqZ in Hr as [-> Hj]. injection Hl as <-.
    rewrite list_lookup_fmap in Hx.
    destruct (seqZ 0 (num_columns g) !! k) as [c|] eqn:Hc; [|done].
    apply lookup_seqZ in Hc as [-> Hk]. injection Hx as <-.
    exists j, k. split_and!; try done; lia.
  - intros (j & k & -> & Hj & Hk & ->).
    exists j, ((fun c => mkCell (Z.of_nat j) c) <$> seqZ 0 (num_columns g)), k.
    split_and!; [| |done].
    + rewrite list_lookup_fmap, lookup_seqZ_lt by lia. done.
    + rewrite list_lookup_fmap, lookup_seqZ_lt by lia. done.
Qed.

(** [each_cell()] yields every cell of the grid exactly once, [size()]
    cells in all, in row-major order: the cell at position
    [r * num_columns + c] is [cell_at(r, c)], and a cell yielded earlier is
    below ([__lt__]) every cell yielded later. *)
Theorem each_cell_row_major (g : Grid) :
  wf_grid g ->
  Z.of_nat (length (each_cell g)) = size g /\
  NoDup (each_cell g) /\
  (forall r c x, cell_at g r c = Some x ->
     each_cell g !! Z.to_nat (r * num_columns g + c) = Some x) /\
  (forall i j a b, (i < j)%nat ->
     each_cell g !! i = Some a -> each_cell g !! j = Some b -> Cell_lt a b = true).
Proof.
  intros Hwf. split_and!.
  - by apply length_each_cell.
  - apply NoDup_each_cell.
  - intros r c x Hx. apply cell_at_Some in Hx as [-> [Hr Hc]]. simpl in *.
    apply each_cell_lookup. exists (Z.to_nat r), (Z.to_nat c).
    split_and!; [nia|lia|lia|]. f_equal; lia.
  - intros i j a b Hij Ha Hb.
    apply each_cell_lookup in Ha as (ja & ka & -> & Hja & Hka & ->).
    apply each_cell_lookup in Hb as (jb & kb & -> & Hjb & Hkb & ->).
    unfold Cell_lt. simpl.
    assert (ja < jb \/ (ja = jb /\ ka < kb))%nat as [H|[-> H]] by nia.
    + rewrite bool_decide_eq_true_2 by lia. done.
    + rewrite bool_decide_eq_false_2 by lia.
      rewrite !bool_decide_eq_true_2 by lia. done.
Qed.

Lemma each_cell_row_major_witness :
  Z.of_nat (length (each_cell (mkGrid 2 3))) = size (mkGrid 2 3) /\
  each_cell (mkGrid 2 3) !! Z.to_nat (1 * 3 + 2) = Some (mkCell 1 2) /\
  Cell_lt (mkCell 0 2) (mkCell 1 0) = true.
Proof.
  assert (wf_grid (mkGrid 2 3)) as Hwf by (unfold wf_grid; simpl; lia).
  destruct (each_cell_row_major (mkGrid 2 3) Hwf) as (Hlen & _ & Hat & Hlt).
  split; [exact Hlen|]. split.
  - apply (Hat 1 2 (mkCell 1 2)). reflexivity.
  - apply (Hlt 2%nat 3%nat); [lia|reflexivity|reflexivity].
Defined.

(** The [neighbors()] of a cell of the grid are the cells of the grid at
    distance one in a row or in a column, each listed once and at most
    four; no cell is its own neighbor, and a cell is a neighbor of each of
    its neighbors. *)
Theorem neighbors_adjacent (g : Grid) (c : Cell) :
  in_grid g c ->
  NoDup (neighbors g c) /\ (length (neighbors g c) <= 4)%nat /\
  (forall n, n ∈ neighbors g c <->
     in_grid g n /\ Z.abs (row n - row c) + Z.abs (column n - column c) = 1) /\
  (forall n, n ∈ neighbors g c -> c ∈ neighbors g n).
Proof.
  intros Hc.
  assert (forall c n, in_grid g c -> (n ∈ neighbors g c <->
     in_grid g n /\ Z.abs (row n - row c) + Z.abs (column n - column c) = 1)) as Hchar.
  { clear c Hc. intros c n [Hr Hk]. rewrite elem_of_neighbors.
    unfold north, south, east, west, in_grid.
    destruct c as [r k], n as [r' k']. simpl in *. split.
    - intros [H|[H|[H|H]]]; case_bool_decide; simplify_eq; lia.
    - intros [[Hr' Hk'] Hd].
      assert ((r' = r - 1 /\ k' = k) \/ (r' = r + 1 /\ k' = k) \/
              (r' = r /\ k' = k + 1) \/ (r' = r /\ k' = k - 1))
        as [[-> ->]|[[-> ->]|[[-> ->]|[-> ->]]]] by lia.
      + left. by rewrite bool_decide_eq_true_2 by lia.
      + right; left. by rewrite bool_decide_eq_true_2 by lia.
      + right; right; left. by rewrite bool_decide_eq_true_2 by lia.
      + right; right; right. by rewrite bool_decide_eq_true_2 by lia. }
  split_and!.
  - unfold neighbors, north, south, east, west. destruct c as [r k]. simpl.
    repeat case_bool_decide; simpl; repeat constructor;
      rewrite ?not_elem_of_cons; split_and?; try apply not_elem_of_nil;
      intros [=]; lia.
  - unfold neighbors, north, south, east, west.
    repeat case_bool_decide; simpl; lia.
  - intros n. by apply Hchar.
  - intros n Hn. apply Hchar in Hn as [Hn Hd]; [|done].
    apply Hchar; [done|]. split; [done|]. lia.
Qed.

Lemma neighbors_adjacent_witness :
  neighbors (mkGrid 3 3) (mkCell 1 1)
  = [mkCell 0 1; mkCell 2 1; mkCell 1 2; mkCell 1 0] /\
  mkCell 1 1 ∈ neighbors (mkGrid 3 3) (mkCell 0 1).
Proof.
  split; [reflexivity|].
  assert (in_grid (mkGrid 3 3) (mkCell 1 1)) as Hc by (unfold in_grid; simpl; lia).
  destruct (neighbors_adjacent (mkGrid 3 3) (mkCell 1 1) Hc) as (_ & _ & _ & Hsym).
  apply Hsym. vm_compute. left.
Defined.

(** [random_cell()] returns a cell of the grid and never raises; it
    consumes two draws and touches no link.  Every cell of the grid is
    returned for some draws. *)
Theorem random_cell_spec (g : Grid) (w : World) :
  wf_grid g ->
  (exists c w', random_cell g w = (Ret c, w') /\ in_grid g c /\
     links w' = links w /\ rng w' = rng w /\ rng_pos w' = S (S (rng_pos w))) /\
  (forall c, in_grid g c ->
     rng w (rng_pos w) = row c -> rng w (S (rng_pos w)) = column c ->
     (random_cell g w).1 = Ret c).
Proof.
  intros [Hr Hc]. unfold random_cell, randint.
  rewrite !bool_decide_eq_false_2 by lia.
  cbv [mbind M_bind mret M_ret draw]. simpl. split.
  - eexists. eexists. split; [reflexivity|]. split_and!; try done.
    unfold in_grid. simpl.
    pose proof (Z.mod_pos_bound (rng w (rng_pos w)) (num_rows g - 1 - 0 + 1)).
    pose proof (Z.mod_pos_bound (rng w (S (rng_pos w))) (num_columns g - 1 - 0 + 1)).
    lia.
  - intros c [Hcr Hcc] -> ->. destruct c as [r k]. simpl in *.
    rewrite !Z.mod_small by lia. done.
Qed.

Lemma random_cell_spec_witness :
  (random_cell (mkGrid 3 3) (mkWorld (fun _ => []) (fun n => Z.of_nat n + 1) 0)).1
  = Ret (mkCell 1 2).
Proof.
  assert (wf_grid (mkGrid 3 3)) as Hwf by (unfold wf_grid; simpl; lia).
  destruct (random_cell_spec (mkGrid 3 3)
              (mkWorld (fun _ => []) (fun n => Z.of_nat n + 1) 0) Hwf) as [_ H].
  apply (H (mkCell 1 2)); [unfold in_grid; simpl; lia|reflexivity|reflexivity].
Defined.

(** * Further properties of the markups *)

(** [m[cell] = value] followed by [m[c]] gives [value] at [cell] and the
    old answer elsewhere; the default is kept; an overwritten key keeps its
    place in the table and a new key goes last. *)
Theorem setitem_getitem {V} (m : Markup V) (cell c : Cell) (value : V) :
  getitem (setitem m cell value) c = (if decide (c = cell) then value else getitem m c) /\
  default (setitem m cell value) = default m /\
  Dict.keys (marks (setitem m cell value)) =
    (if Dict.mem cell (marks m) then Dict.keys (marks m)
     else Dict.keys (marks m) ++ [cell]).
Proof.
  split_and!.
  - unfold getitem, setitem. simpl. rewrite dict_get_set. by case_decide.
  - done.
  - unfold setitem. simpl. destruct (Dict.mem cell (marks m)) eqn:Hm.
    + apply dict_keys_set_in. by apply dict_mem_keys.
    + apply dict_keys_set_notin. by apply dict_mem_false_keys.
Qed.

(** [set_item_at] and [get_item_at] end in [AssertionError] outside the
    grid and never in [IndexError]; inside the grid [set_item_at] returns,
    [get_item_at] then returns the value set, and the answers at the other
    coordinates are unchanged. *)
Theorem set_item_at_get_item_at {V} (g : Grid) (m : Markup V) (r c : Z) (value : V) :
  set_item_at g m r c value <> Raise IndexError /\
  get_item_at g m r c <> Raise IndexError /\
  (~ (0 <= r < num_rows g /\ 0 <= c < num_columns g) ->
     set_item_at g m r c value = Raise AssertionError /\
     get_item_at g m r c = Raise AssertionError) /\
  (0 <= r < num_rows g -> 0 <= c < num_columns g ->
     exists m', set_item_at g m r c value = Ret m' /\
       get_item_at g m' r c = Ret (Some value) /\
       getitem m' (mkCell r c) = value /\
       forall r' c', (r', c') <> (r, c) -> get_item_at g m' r' c' = get_item_at g m r' c').
Proof.
  unfold set_item_at, get_item_at, assert_o, cell_at.
  split_and!.
  - repeat case_bool_decide; simpl; try done; lia.
  - repeat case_bool_decide; simpl; try done; lia.
  - intros Hout. repeat case_bool_decide; simpl; try done; lia.
  - intros Hr Hc. rewrite !bool_decide_eq_true_2 by lia. simpl.
    eexists. split; [reflexivity|]. split_and!.
    + unfold setitem. simpl. rewrite dict_get_set. by rewrite decide_True.
    + unfold getitem, setitem. simpl. rewrite dict_get_set. by rewrite decide_True.
    + intros r' c' Hne. repeat case_bool_decide; simpl; try done.
      unfold setitem. simpl. rewrite dict_get_set. rewrite decide_False; [done|].
      intros [= -> ->]. done.
Qed.

Lemma set_item_at_get_item_at_witness :
  exists m', set_item_at (mkGrid 2 2) (Markup_init " "%string) 1 0 "x"%string = Ret m' /\
    get_item_at (mkGrid 2 2) m' 1 0 = Ret (Some "x"%string) /\
    set_item_at (mkGrid 2 2) (Markup_init " "%string) 2 0 "x"%string = Raise AssertionError.
Proof.
  destruct (set_item_at_get_item_at (mkGrid 2 2) (Markup_init " "%string) 1 0 "x"%string)
    as (_ & _ & _ & Hin).
  destruct Hin as (m' & Hset & Hget & _); [simpl; lia|simpl; lia|].
  exists m'. split; [exact Hset|]. split; [exact Hget|].
  destruct (set_item_at_get_item_at (mkGrid 2 2) (Markup_init " "%string) 2 0 "x"%string)
    as (_ & _ & Hout & _).
  apply Hout. simpl. lia.
Defined.

(** The item that [max] or [min] settles on, for a [better] that compares
    the keys through [val]: the first item of greatest [val]. *)
Lemma extremum_from_first {A K} (better : K -> K -> bool) (key : A -> K) (val : K -> Z) :
  (forall k kbest, better k kbest = true <-> val kbest < val k) ->
  forall l best x,
  extremum_from better (fun a => Ret (key a)) best (key best) l = Ret x ->
  exists l1 l2, best :: l = l1 ++ x :: l2 /\
    (forall y, y ∈ l1 -> val (key y) < val (key x)) /\
    (forall y, y ∈ l2 -> val (key y) <= val (key x)).
Proof.
  intros Hbetter. induction l as [|y l IH]; intros best x; simpl.
  - intros [= <-]. exists [], []. split_and!; [done|..]; by intros y ?%elem_of_nil.
  - cbv [mbind outcome_bind]. destruct (better (key y) (key best)) eqn:Hb; intros Hx.
    + apply Hbetter in Hb. apply IH in Hx as (l1 & l2 & Heq & H1 & H2).
      exists (best :: l1), l2. split_and!; [by rewrite Heq| |done].
      assert (val (key y) <= val (key x)) as Hyx.
      { destruct l1 as [|z l1]; simplify_eq/=; [lia|].
        assert (val (key z) < val (key x)); [apply H1; left|lia]. }
      intros z [->|Hz]%elem_of_cons; [lia|auto].
    + assert (val (key y) <= val (key best)) as Hle.
      { destruct (decide (val (key best) < val (key y))) as [Hlt|]; [|lia].
        apply Hbetter in Hlt. congruence. }
      apply IH in Hx as (l1 & l2 & Heq & H1 & H2).
      destruct l1 as [|z l1]; simplify_eq/=.
      * exists [], (y :: l2). split_and!; [done|by intros ? ?%elem_of_nil|].
        intros z [->|Hz]%elem_of_cons; [lia|auto].
      * exists (z :: y :: l1), l2. split_and!; [done| |done].
        assert (val (key z) < val (key x)) by (apply H1; left).
        intros u [->|[->|Hu]%elem_of_cons]%elem_of_cons; [done|lia|].
        apply H1. by right.
Qed.

Lemma extremum_first {A K} (better : K -> K -> bool) (key : A -> K) (val : K -> Z) l x :
  (forall k kbest, better k kbest = true <-> val kbest < val k) ->
  extremum better (fun a => Ret (key a)) l = Ret x ->
  exists l1 l2, l = l1 ++ x :: l2 /\
    (forall y, y ∈ l1 -> val (key y) < val (key x)) /\
    (forall y, y ∈ l2 -> val (key y) <= val (key x)).
Proof.
  intros Hbetter. destruct l as [|a l]; [done|]. simpl. cbv [mbind outcome_bind].
  by apply extremum_from_first.
Qed.

(** With at least one marked cell, [max()] and [min()] return marked
    cells whose values bound the values of all marked cells; among cells of
    equal value the one marked first wins. *)
Theorem Markup_extrema (m : Markup Z) :
  marks m <> [] ->
  exists cmax cmin,
    Markup_max Z.ltb m = Ret cmax /\ Markup_min Z.ltb m = Ret cmin /\
    (forall c, c ∈ Dict.keys (marks m) -> getitem m cmin <= getitem m c <= getitem m cmax) /\
    (exists l1 l2, Dict.keys (marks m) = l1 ++ cmax :: l2 /\
       forall c, c ∈ l1 -> getitem m c < getitem m cmax) /\
    (exists l1 l2, Dict.keys (marks m) = l1 ++ cmin :: l2 /\
       forall c, c ∈ l1 -> getitem m cmin < getitem m c).
Proof.
  intros Hne.
  assert (Dict.keys (marks m) <> []) as Hk.
  { unfold Dict.keys. by destruct (marks m). }
  destruct (extremum_total (fun k kbest => Z.ltb kbest k) (getitem m) _ Hk)
    as (cmax & Hmax & _).
  destruct (extremum_total (fun k kbest => Z.ltb k kbest) (getitem m) _ Hk)
    as (cmin & Hmin & _).
  exists cmax, cmin. split; [done|]. split; [done|].
  destruct (extremum_first _ (getitem m) (fun k => k) _ _
              (fun k kbest => Z.ltb_lt kbest k) Hmax) as (l1 & l2 & Heq & H1 & H2).
  assert (forall k kbest : Z, (k <? kbest) = true <-> - kbest < - k) as Hopp.
  { intros k kbest. rewrite Z.ltb_lt. lia. }
  destruct (extremum_first _ (getitem m) (fun k => - k) _ _ Hopp Hmin)
    as (l1' & l2' & Heq' & H1' & H2').
  split_and!.
  - intros c Hc. split.
    + rewrite Heq' in Hc.
      apply elem_of_app in Hc as [Hc|[->|Hc]%elem_of_cons]; [|lia|].
      * specialize (H1' c Hc). simpl in H1'. lia.
      * specialize (H2' c Hc). simpl in H2'. lia.
    + rewrite Heq in Hc.
      apply elem_of_app in Hc as [Hc|[->|Hc]%elem_of_cons]; [|lia|].
      * specialize (H1 c Hc). simpl in H1. lia.
      * specialize (H2 c Hc). simpl in H2. lia.
  - exists l1, l2. split; [done|]. intros c Hc. by apply H1.
  - exists l1', l2'. split; [done|]. intros c Hc. specialize (H1' c Hc). simpl in H1'. lia.
Qed.

Lemma Markup_extrema_witness :
  let m := setitem (setitem (setitem (Markup_init 0) (mkCell 0 0) 5) (mkCell 0 1) 7)
                   (mkCell 1 0) 7 in
  exists cmax cmin,
    Markup_max Z.ltb m = Ret cmax /\ Markup_min Z.ltb m = Ret cmin /\
    (forall c, c ∈ Dict.keys (marks m) -> getitem m cmin <= getitem m c <= getitem m cmax).
Proof.
  intros m. destruct (Markup_extrema m) as (cmax & cmin & Hmax & Hmin & Hb & _).
  - discriminate.
  - exists cmax, cmin. split; [exact Hmax|]. split; [exact Hmin|]. exact Hb.
Defined.

(** The cell that [farthest_cell] settles on, when some cell is marked. *)
Lemma farthest_cell_run (m : Markup Z) :
  marks m <> [] ->
  exists c d, farthest_cell m = Ret (c, d) /\ Dict.get c (marks m) = Some d /\
    (forall c' d', Dict.get c' (marks m) = Some d' -> d' <= d) /\
    exists l1 l2, Dict.keys (marks m) = l1 ++ c :: l2 /\
      forall c', c' ∈ l1 -> getitem m c' < d.
Proof.
  - intros Hne.
    assert (Dict.keys (marks m) <> []) as Hk.
    { unfold Dict.keys. by destruct (marks m). }
    set (better := fun k kbest : option Z =>
                     match k, kbest with
                     | Some a, Some b => bool_decide (b < a)
                     | _, _ => false
                     end).
    set (key := fun c => Dict.get c (marks m)).
    destruct (extremum_total better key _ Hk) as (c & Hc & Hin).
    assert (forall y, y ∈ Dict.keys (marks m) -> key y = Some (getitem m y)) as Hkey.
    { intros y Hy. apply dict_mem_keys in Hy. unfold key, getitem, Dict.mem in *.
      by destruct (Dict.get y (marks m)). }
    (* on the keys of the table the comparison is the one of the values *)
    assert (extremum (fun k kbest => Z.ltb kbest k) (fun a => Ret (getitem m a))
                     (Dict.keys (marks m)) = Ret c) as Hc'.
    { clear Hin. revert Hc Hkey. generalize (Dict.keys (marks m)). intros l.
      destruct l as [|a l]; [done|]. simpl. cbv [mbind outcome_bind].
      intros Hc Hkey. revert a Hc Hkey. induction l as [|y l IH]; intros a Hc Hkey.
      - done.
      - simpl in *. cbv [mbind outcome_bind] in *.
        assert (better (key y) (key a) = (getitem m a <? getitem m y)) as Hb.
        { rewrite (Hkey y), (Hkey a) by (rewrite !elem_of_cons; auto).
          unfold better. apply eq_true_iff_eq.
          by rewrite bool_decide_eq_true, Z.ltb_lt. }
        rewrite Hb in Hc. destruct (getitem m a <? getitem m y).
        + apply IH; [done|]. intros z Hz. apply Hkey.
          rewrite !elem_of_cons in *. tauto.
        + apply IH; [done|]. intros z Hz. apply Hkey.
          rewrite !elem_of_cons in *. tauto. }
    destruct (extremum_first _ (getitem m) (fun k => k) _ _
                (fun k kbest => Z.ltb_lt kbest k) Hc') as (l1 & l2 & Heq & H1 & H2).
    exists c, (getitem m c). split_and!.
    + change (farthest_cell m) with
        (cell ← extremum better (fun a => Ret (key a)) (Dict.keys (marks m));
         Ret (cell, getitem m cell)).
      by rewrite Hc.
    + rewrite <- (Hkey c Hin). done.
    + intros c' d' Hc'd.
      assert (c' ∈ Dict.keys (marks m)) as Hin' by (by apply (dict_get_keys _ d')).
      assert (getitem m c' = d') as <- by (by apply getitem_Some).
      rewrite Heq in Hin'.
      apply elem_of_app in Hin' as [Hy|[->|Hy]%elem_of_cons]; [|lia|].
      * specialize (H1 c' Hy). simpl in H1. lia.
      * by apply H2.
    + exists l1, l2. split; [done|]. intros c' Hy. by apply H1.
Qed.

(** [farthest_cell()] of an empty table ends in [ValueError]; otherwise
    it returns a marked cell with its value, no marked cell has a greater
    value, and among cells of that value the one marked first is
    returned. *)
Theorem farthest_cell_spec (m : Markup Z) :
  (marks m = [] -> farthest_cell m = Raise ValueError) /\
  (marks m <> [] ->
     exists c d, farthest_cell m = Ret (c, d) /\ Dict.get c (marks m) = Some d /\
       (forall c' d', Dict.get c' (marks m) = Some d' -> d' <= d) /\
       exists l1 l2, Dict.keys (marks m) = l1 ++ c :: l2 /\
         forall c', c' ∈ l1 -> getitem m c' < d).
Proof.
  split.
  - intros Hm. unfold farthest_cell. by rewrite Hm.
  - intros Hne. destruct (farthest_cell_run m Hne) as (c & d & Hrun & Hget & Hmax & Hfirst).
    exists c, d. by split_and!.
Qed.

Lemma farthest_cell_spec_witness :
  let m := setitem (setitem (setitem (Markup_init 0) (mkCell 0 0) 0) (mkCell 0 1) 1)
                   (mkCell 1 0) 1 in
  exists c d, farthest_cell m = Ret (c, d) /\ Dict.get c (marks m) = Some d /\
    (forall c' d', Dict.get c' (marks m) = Some d' -> d' <= d).
Proof.
  intros m. destruct (farthest_cell_spec m) as [_ H].
  destruct H as (c & d & Hrun & Hget & Hmax & _); [discriminate|].
  exists c, d. split; [exact Hrun|]. split; [exact Hget|exact Hmax].
Defined.

(** * Further properties of the distance markups *)

Lemma walk_reach w a b n : walk w a b n -> reach w a b.
Proof.
  induction 1 as [|b c n _ IH Hl]; [apply rtc_refl|].
  eapply rtc_r; [exact IH|exact Hl].
Qed.

(** [DijkstraMarkup_correct] for any default. *)
Lemma DijkstraMarkup_correct_default g w root dflt fuel :
  wf_grid g -> links_in_grid g w -> in_grid g root ->
  (length (each_cell g) * length (each_cell g) + 1 <= fuel)%nat ->
  exists m, DijkstraMarkup fuel w root dflt = Ret m /\ default m = dflt /\
            (forall c d, Dict.get c (marks m) = Some d -> in_grid g c) /\
            (forall c d, Dict.get c (marks m) = Some d <-> distance w root c d) /\
            (forall c n, walk w root c n ->
               exists d, Dict.get c (marks m) = Some d /\ d <= Z.of_nat n).
Proof.
  intros Hwf Hlg Hroot Hfuel. unfold DijkstraMarkup.
  set (m0 := setitem (Markup_init dflt) root 0).
  assert (dj_inv g w root m0 [(0, root)]) as HI0.
  { unfold m0. split_and!.
    - rewrite get_setitem. by rewrite decide_True by done.
    - simpl. apply NoDup_singleton.
    - intros c d. rewrite get_setitem. case_decide as Hc; [|done].
      intros [= <-]. subst c. split_and!; [done|lia|simpl; lia|constructor].
    - intros d c Hin. apply list_elem_of_singleton in Hin as [= -> ->]. exists 0. split; [|lia].
      rewrite get_setitem. by rewrite decide_True by done.
    - intros c d. rewrite get_setitem. case_decide as Hc; [|done].
      intros [= <-]. subst c. left. left. }
  destruct (dijkstra_loop_run g w root Hlg fuel m0 [(0, root)] HI0)
    as (m & Hrun & HI & Hdef).
  { unfold dj_measure. simpl.
    assert (sum_list_with (dj_potential g m0) (each_cell g)
            <= length (each_cell g) * length (each_cell g))%nat; [|lia].
    apply sum_list_with_bound. intros c _. unfold dj_potential, m0.
    rewrite get_setitem. case_decide; simpl; lia. }
  exists m. split_and!; try done.
  - intros c d Hc. destruct HI as (_ & _ & D2 & _). by destruct (D2 c d Hc).
  - intros c d. by apply (dj_final_distance g).
  - intros c n. by apply (dj_marked_of_walk g).
Qed.

(** [DijkstraMarkup(grid, root, default)] returns.  The marked cells are
    the cells that can be reached from the root through links, each marked
    with the least number of links of a walk from the root; the root is
    marked 0, and a cell that cannot be reached is not marked and answers
    the default. *)
Theorem DijkstraMarkup_distances (g : Grid) (w : World) (root : Cell) (dflt : Z)
    (fuel : nat) :
  wf_grid g -> links_in_grid g w -> in_grid g root ->
  size g * size g < Z.of_nat fuel ->
  exists m, DijkstraMarkup fuel w root dflt = Ret m /\
    getitem m root = 0 /\
    (forall c, reach w root c ->
       exists d, distance w root c d /\ Dict.get c (marks m) = Some d /\ getitem m c = d) /\
    (forall c, ~ reach w root c ->
       Dict.get c (marks m) = None /\ getitem m c = dflt) /\
    (forall c, c ∈ Dict.keys (marks m) -> in_grid g c).
Proof.
  intros Hwf Hlg Hroot Hfuel.
  destruct (DijkstraMarkup_correct_default g w root dflt fuel Hwf Hlg Hroot)
    as (m & Hrun & Hdef & Hin & Hdist & Hwalk).
  { pose proof (length_each_cell g Hwf). nia. }
  exists m. split; [done|]. split_and!.
  - apply getitem_Some, Hdist. split_and!; [lia|constructor|lia].
  - intros c Hc. apply reach_walk in Hc as [n Hn].
    destruct (Hwalk c n Hn) as (d & Hd & _). exists d.
    split_and!; [by apply Hdist|done|by apply getitem_Some].
  - intros c Hc. assert (Dict.get c (marks m) = None) as Hnone.
    { destruct (Dict.get c (marks m)) as [d|] eqn:Hd; [|done].
      destruct Hc. apply Hdist in Hd as (_ & Hw & _). by apply walk_reach in Hw. }
    split; [done|]. unfold getitem. by rewrite Hnone.
  - intros c Hc. apply dict_mem_keys in Hc. unfold Dict.mem in Hc.
    destruct (Dict.get c (marks m)) as [d|] eqn:Hd; [|done]. by apply (Hin c d).
Qed.

Lemma DijkstraMarkup_distances_witness :
  let w := (link (mkCell 0 0) (mkCell 0 1) true (mkWorld (fun _ => []) (fun _ => 0) 0)).2 in
  exists m, DijkstraMarkup 20 w (mkCell 0 0) 9 = Ret m /\
    getitem m (mkCell 0 0) = 0 /\
    (forall c, reach w (mkCell 0 0) c ->
       exists d, distance w (mkCell 0 0) c d /\ Dict.get c (marks m) = Some d /\
                 getitem m c = d) /\
    (forall c, ~ reach w (mkCell 0 0) c ->
       Dict.get c (marks m) = None /\ getitem m c = 9) /\
    (forall c, c ∈ Dict.keys (marks m) -> in_grid (mkGrid 2 2) c).
Proof.
  intros w. apply (DijkstraMarkup_distances (mkGrid 2 2) w (mkCell 0 0) 9 20).
  - unfold wf_grid. simpl. lia.
  - intros a b. unfold w.
    destruct (link_run (mkCell 0 0) (mkCell 0 1) (mkWorld (fun _ => []) (fun _ => 0) 0))
      as (w1 & -> & _ & _ & Hl1 & _).
    cbn [snd]. rewrite Hl1.
    change (is_linked (mkWorld (fun _ => []) (fun _ => 0) 0) a b) with false.
    rewrite !orb_true_iff, !bool_decide_eq_true. unfold in_grid.
    intros H. destruct_or!; [done| |]; destruct H; subst; simpl; lia.
  - unfold in_grid. simpl. lia.
  - vm_compute. reflexivity.
Defined.

(** With symmetric links and a goal that cannot be reached from the
    start, [ShortestPathMarkup] raises: [ValueError] from [min] of an empty
    list when the goal has no link, [KeyError] from [self.marks[cell]]
    otherwise. *)
Theorem ShortestPathMarkup_unreachable {Mk} (g : Grid) (w : World) (start goal : Cell)
    (fuel : nat) (path_marker non_path_marker end_marker : Mk) :
  wf_grid g -> links_in_grid g w -> symmetric w -> in_grid g start ->
  ~ reach w start goal ->
  size g * size g < Z.of_nat fuel ->
  ShortestPathMarkup fuel g w start goal path_marker non_path_marker end_marker
  = Raise (if decide (all_links w goal = []) then ValueError else KeyError).
Proof.
  intros Hwf Hlg Hsym Hstart Hgoal Hfuel.
  destruct (DijkstraMarkup_correct g w start fuel Hwf Hlg Hstart)
    as (dm & Hrun & _ & _ & _ & Hdist & _).
  { pose proof (length_each_cell g Hwf). nia. }
  unfold ShortestPathMarkup. rewrite Hrun. cbv [mbind outcome_bind].
  assert (goal <> start) as Hne by (intros ->; apply Hgoal, rtc_refl).
  destruct fuel as [|fuel]; [destruct Hwf; unfold size in Hfuel; nia|].
  simpl. rewrite decide_False by done.
  destruct (all_links w goal) as [|x l] eqn:Hlinks; simpl; [done|].
  assert (Dict.get x (marks dm) = None) as Hx.
  { destruct (Dict.get x (marks dm)) as [d|] eqn:Hd; [|done].
    destruct Hgoal. apply Hdist in Hd as (_ & Hw & _). apply walk_reach in Hw.
    eapply rtc_r; [exact Hw|]. rewrite Hsym. apply all_links_is_linked.
    rewrite Hlinks. left. }
  assert (marks_lookup dm x = Raise KeyError) as ->; [|done].
  unfold marks_lookup. by rewrite Hx.
Qed.

Lemma ShortestPathMarkup_unreachable_witness :
  ShortestPathMarkup 20 (mkGrid 1 2) (mkWorld (fun _ => []) (fun _ => 0) 0)
    (mkCell 0 0) (mkCell 0 1) "*"%string " "%string "^"%string
  = Raise ValueError.
Proof.
  apply (ShortestPathMarkup_unreachable (mkGrid 1 2) (mkWorld (fun _ => []) (fun _ => 0) 0)
           (mkCell 0 0) (mkCell 0 1) 20 "*"%string " "%string "^"%string).
  - unfold wf_grid. simpl. lia.
  - intros a b Hab. discriminate Hab.
  - intros a b. reflexivity.
  - unfold in_grid. simpl. lia.
  - intros Hr. apply rtc_inv in Hr as [Heq|(c & Hl & _)]; discriminate.
  - vm_compute. reflexivity.
Defined.

(** ** LongestPathMarkup *)

Lemma random_cell_run g w :
  wf_grid g ->
  exists c w', random_cell g w = (Ret c, w') /\ in_grid g c /\ links w' = links w.
Proof.
  intros [Hr Hc]. unfold random_cell, randint.
  rewrite !bool_decide_eq_false_2 by lia.
  cbv [mbind M_bind mret M_ret draw]. simpl.
  eexists. eexists. split; [reflexivity|]. split; [|done].
  unfold in_grid. simpl.
  pose proof (Z.mod_pos_bound (rng w (rng_pos w)) (num_rows g - 1 - 0 + 1)).
  pose proof (Z.mod_pos_bound (rng w (S (rng_pos w))) (num_columns g - 1 - 0 + 1)).
  lia.
Qed.

(** The markups read the links only. *)
Lemma dijkstra_loop_links w w' :
  links w' = links w ->
  forall fuel m frontier,
  dijkstra_loop fuel w' m frontier = dijkstra_loop fuel w m frontier.
Proof.
  intros Hl. induction fuel as [|fuel IH]; intros m frontier; [by destruct frontier|].
  destruct frontier as [|x frontier]; [done|].
  rewrite !dijkstra_loop_S by done.
  destruct (heappop (x :: frontier)) as [[[dist cell] rest]| |]; [|done|done].
  cbv [mbind outcome_bind]. case_bool_decide; [apply IH|].
  unfold all_links. rewrite Hl.
  destruct (foldl (relax dist) (m, rest) (Dict.keys (links w cell))). apply IH.
Qed.

Lemma DijkstraMarkup_links w w' fuel root dflt :
  links w' = links w ->
  DijkstraMarkup fuel w' root dflt = DijkstraMarkup fuel w root dflt.
Proof. intros Hl. unfold DijkstraMarkup. by apply dijkstra_loop_links. Qed.

Lemma walk_back_links {Mk} w w' (dm : Markup Z) start (path_marker : Mk) :
  links w' = links w ->
  forall fuel path current,
  walk_back fuel w' dm start path_marker path current =
  walk_back fuel w dm start path_marker path current.
Proof.
  intros Hl. induction fuel as [|fuel IH]; intros path current; simpl; [done|].
  case_decide; [done|]. unfold all_links. rewrite Hl.
  destruct (extremum _ _ _); cbv [mbind outcome_bind]; [apply IH|done|done].
Qed.

Lemma ShortestPathMarkup_links {Mk} w w' fuel g start goal (pm npm em : Mk) :
  links w' = links w ->
  ShortestPathMarkup fuel g w' start goal pm npm em =
  ShortestPathMarkup fuel g w start goal pm npm em.
Proof.
  intros Hl. unfold ShortestPathMarkup. rewrite (DijkstraMarkup_links w w') by done.
  destruct (DijkstraMarkup fuel w start 0) as [dm| |]; [|done|done].
  cbv [mbind outcome_bind]. by rewrite (walk_back_links w w') by done.
Qed.

(** [LongestPathMarkup] on a maze whose links are symmetric and connect
    all the cells of the grid returns and changes no link.  The path it
    marks runs from a cell [a] to a cell [b] at the greatest distance from
    [a]: its two ends hold [end_marker], the cells between them
    [path_marker], every other cell [non_path_marker], and it is a shortest
    path between its ends. *)
Theorem LongestPathMarkup_spec {Mk} g w fuel (path_marker non_path_marker end_marker : Mk) :
  wf_grid g -> links_in_grid g w -> symmetric w -> connected g w ->
  size g * size g < Z.of_nat fuel ->
  exists m w' a b D,
    LongestPathMarkup fuel g path_marker non_path_marker end_marker w = (Ret m, w') /\
    links w' = links w /\
    in_grid g a /\ in_grid g b /\
    distance w a b D /\
    (forall c d, distance w a c d -> d <= D) /\
    shortest_path_marked g w m a b path_marker non_path_marker end_marker D.
Proof.
  intros Hwf Hlg Hsym Hconn Hfuel.
  assert (length (each_cell g) * length (each_cell g) + 1 <= fuel)%nat as Hfuel'.
  { pose proof (length_each_cell g Hwf). nia. }
  destruct (random_cell_run g w Hwf) as (s & w1 & Hrc & Hs & Hl).
  unfold LongestPathMarkup. rewrite (bind_ret_run _ _ _ _ _ Hrc). unfold read.
  rewrite !(DijkstraMarkup_links w w1) by done.
  destruct (DijkstraMarkup_correct g w s fuel Hwf Hlg Hs Hfuel')
    as (dm1 & -> & _ & _ & Hb1 & Hd1 & Hw1).
  cbv [mbind outcome_bind].
  destruct (farthest_cell_run dm1) as (a & d1 & -> & Ha & _).
  { destruct (Hw1 s 0%nat (walk_nil _ _)) as (d & Hd & _).
    intros Hnil. rewrite Hnil in Hd. discriminate Hd. }
  destruct (Hb1 a d1 Ha) as [Ha_in _].
  rewrite !(DijkstraMarkup_links w w1) by done.
  destruct (DijkstraMarkup_correct g w a fuel Hwf Hlg Ha_in Hfuel')
    as (dm2' & Hdm2' & _ & _ & Hb2 & Hd2 & Hw2).
  rewrite Hdm2'.
  destruct (farthest_cell_run dm2') as (b & D & -> & Hb & Hmax & _).
  { destruct (Hw2 a 0%nat (walk_nil _ _)) as (d & Hd & _).
    intros Hnil. rewrite Hnil in Hd. discriminate Hd. }
  destruct (Hb2 b D Hb) as [Hb_in _].
  rewrite (ShortestPathMarkup_links w w1) by done.
  destruct (ShortestPathMarkup_run g w a b fuel path_marker non_path_marker end_marker)
    as (dm3 & m & Hdm3 & -> & _ & _ & Hsp); try done.
  assert (dm3 = dm2') as -> by congruence.
  rewrite (getitem_Some dm2' b D Hb) in Hsp.
  exists m, w1, a, b, D. split_and!; try done.
  - by apply Hd2.
  - intros c d Hc. apply Hd2 in Hc. by apply (Hmax c d).
Qed.

Lemma LongestPathMarkup_spec_witness :
  let g := mkGrid 2 2 in
  let w := (binary_tree g (mkWorld (fun _ => []) (fun n => Z.of_nat n) 0)).2 in
  exists m w' a b D,
    LongestPathMarkup 20 g "*"%string " "%string "^"%string w = (Ret m, w') /\
    links w' = links w /\
    in_grid g a /\ in_grid g b /\
    distance w a b D /\
    (forall c d, distance w a c d -> d <= D) /\
    shortest_path_marked g w m a b "*"%string " "%string "^"%string D.
Proof.
  intros g w.
  assert (wf_grid g) as Hwf by (unfold wf_grid; simpl; lia).
  assert (spanning_tree g w) as (Hlg & Hsym & Hconn & _).
  { apply binary_tree_world; [exact Hwf|]. intros c. reflexivity. }
  apply (LongestPathMarkup_spec g w 20); try assumption.
  vm_compute. reflexivity.
Defined.

(** * Further properties of the colours *)

Lemma py_round_Z (q : Q) (n : Z) : (q == inject_Z n)%Q -> py_round q = n.
Proof.
  intros Hq. unfold py_round.
  assert (Qfloor q = n) as -> by (by rewrite Hq, Qfloor_Z).
  destruct (Qcompare_spec (q - inject_Z n) (1 # 2)) as [H|H|H]; [|done|].
  - rewrite Hq in H. lra.
  - rewrite Hq in H. lra.
Qed.

Lemma py_round_bounds (q : Q) (a b : Z) :
  (inject_Z a <= q)%Q -> (q <= inject_Z b)%Q -> a <= py_round q <= b.
Proof.
  intros Ha Hb. unfold py_round.
  pose proof (Qfloor_le q) as Hf1.
  assert (a <= Qfloor q) as Haf.
  { rewrite <- (Qfloor_Z a). by apply Qfloor_resp_le. }
  assert (Qfloor q <= b) as Hfb.
  { rewrite <- (Qfloor_Z b). by apply Qfloor_resp_le. }
  assert ((1 # 2 <= q - inject_Z (Qfloor q))%Q -> Qfloor q + 1 <= b) as Hup.
  { intros Hhalf. destruct (decide (Qfloor q + 1 <= b)) as [|Hn]; [done|].
    assert (b <= Qfloor q) as Hbf by lia.
    rewrite Zle_Qle in Hbf. lra. }
  destruct (Qcompare_spec (q - inject_Z (Qfloor q)) (1 # 2)) as [H|H|H].
  - assert (Qfloor q + 1 <= b) by (apply Hup; rewrite H; lra).
    destruct (Z.even (Qfloor q)); lia.
  - lia.
  - assert (Qfloor q + 1 <= b) by (apply Hup; lra). lia.
Qed.

Lemma dict_get_foldl_set_fun {K V} `{EqDecision K} (f : K -> V) (l : list K) :
  forall (d : Dict.t K V) k,
  Dict.get k (foldl (fun d x => Dict.set x (f x) d) d l) =
  if decide (k ∈ l) then Some (f k) else Dict.get k d.
Proof.
  induction l as [|x l IH]; intros d k; cbn [foldl].
  - destruct (decide (k ∈ [])) as [H|_]; [by apply elem_of_nil in H|done].
  - rewrite IH, dict_get_set.
    destruct (decide (k ∈ l)), (decide (k = x)), (decide (k ∈ x :: l));
      try done; subst; try done; exfalso; set_solver.
Qed.

Lemma getitem_foldl_setitem {V} (f : Cell -> V) (l : list Cell) (m : Markup V) c :
  getitem (foldl (fun m x => setitem m x (f x)) m l) c =
  if decide (c ∈ l) then f c else getitem m c.
Proof.
  assert (forall m, marks (foldl (fun m x => setitem m x (f x)) m l) =
                    foldl (fun d x => Dict.set x (f x) d) (marks m) l /\
                    default (foldl (fun m x => setitem m x (f x)) m l) = default m) as Hm.
  { clear m. induction l as [|x l IH]; intros m; [done|]. simpl.
    destruct (IH (setitem m x (f x))) as [-> ->]. done. }
  unfold getitem. destruct (Hm m) as [-> ->]. rewrite dict_get_foldl_set_fun.
  by case_decide.
Qed.

(** The colour that [intensity_colorize] gives to a value. *)
Lemma intensity_colorize_run g self markup cmax :
  Markup_max Z.ltb markup = Ret cmax -> getitem markup cmax <> 0 ->
  exists r, intensity_colorize g self markup = Ret r /\ channel r = channel self /\
    forall c, getitem (cm_markup r) c =
      if decide (c ∈ each_cell g) then
        let intensity := (inject_Z (getitem markup cmax - getitem markup c)
                          / inject_Z (getitem markup cmax))%Q in
        inr (rgb (channel self) (py_round (127 * intensity) + 128)
                 (py_round (255 * intensity)))
      else getitem (cm_markup self) c.
Proof.
  intros Hmax HM. unfold intensity_colorize. rewrite Hmax. cbv [mbind outcome_bind].
  set (f := fun c : Cell =>
    let intensity := (inject_Z (getitem markup cmax - getitem markup c)
                      / inject_Z (getitem markup cmax))%Q in
    (inr (rgb (channel self) (py_round (127 * intensity) + 128)
              (py_round (255 * intensity))) : color_value)).
  match goal with
  | |- context [foldl ?step (Ret ?m0) ?l0] =>
      assert (forall l m, foldl step (Ret m) l =
                Ret (foldl (fun m x => setitem m x (f x)) m l)) as Hfold
  end.
  { induction l as [|x l IH]; intros m; [done|]. cbn [foldl].
    rewrite <- IH. f_equal. cbv [mbind outcome_bind].
    rewrite bool_decide_eq_false_2 by done.
    unfold f, rgb. by repeat case_bool_decide. }
  rewrite Hfold. eexists. split; [reflexivity|]. split; [done|].
  intros c. simpl. by rewrite getitem_foldl_setitem.
Qed.

(** The two intensities of a value [v] between 0 and the greatest value
    [M]. *)
Lemma intensity_bounds (M v : Z) :
  0 < M -> 0 <= v <= M ->
  let intensity := (inject_Z (M - v) / inject_Z M)%Q in
  0 <= py_round (255 * intensity) <= 255 /\
  128 <= py_round (127 * intensity) + 128 <= 255 /\
  (v = M -> py_round (255 * intensity) = 0 /\ py_round (127 * intensity) + 128 = 128) /\
  (v = 0 -> py_round (255 * intensity) = 255 /\ py_round (127 * intensity) + 128 = 255).
Proof.
  intros HM [Hv0 HvM]. cbv zeta.
  set (i := (inject_Z (M - v) / inject_Z M)%Q).
  assert (0 < inject_Z M)%Q as HMq.
  { change 0%Q with (inject_Z 0). by rewrite <- Zlt_Qlt. }
  assert (0 <= i)%Q as Hi0.
  { unfold i. apply Qle_shift_div_l; [done|]. rewrite Qmult_0_l.
    change 0%Q with (inject_Z 0). rewrite <- Zle_Qle. lia. }
  assert (i <= 1)%Q as Hi1.
  { unfold i. apply Qle_shift_div_r; [done|]. rewrite Qmult_1_l.
    rewrite <- Zle_Qle. lia. }
  assert (v = M -> (i == 0)%Q) as HiM.
  { intros Heq. unfold i. rewrite Heq, Z.sub_diag. apply Qmult_0_l. }
  assert (v = 0 -> (i == 1)%Q) as Hi0'.
  { intros Heq. unfold i. rewrite Heq, Z.sub_0_r. apply Qmult_inv_r. lra. }
  clearbody i.
  assert (0 <= py_round (255 * i) <= 255) as Hd.
  { apply py_round_bounds; unfold inject_Z; lra. }
  assert (0 <= py_round (127 * i) <= 127) as Hb.
  { apply py_round_bounds; unfold inject_Z; lra. }
  split_and!; try lia.
  - intros Heq. apply HiM in Heq.
    rewrite (py_round_Z (255 * i) 0), (py_round_Z (127 * i) 0); [done| |].
    + rewrite Heq. reflexivity.
    + rewrite Heq. reflexivity.
  - intros Heq. apply Hi0' in Heq.
    rewrite (py_round_Z (255 * i) 255), (py_round_Z (127 * i) 127); [done| |].
    + rewrite Heq. reflexivity.
    + rewrite Heq. reflexivity.
Qed.

(** When the greatest value [M] of the markup is positive,
    [intensity_colorize] returns; every cell of the grid whose value lies
    between 0 and [M] gets the triplet of its channel with [dark] between 0
    and 255 and [bright] between 128 and 255; a cell of value [M] gets
    [dark = 0] and [bright = 128], a cell of value 0 gets 255 and 255; the
    channels other than ['R'] and ['G'] put [bright] last; cells outside
    the grid keep their value. *)
Theorem intensity_colorize_colors (g : Grid) (self : ColorizedMarkup) (markup : Markup Z)
    (cmax : Cell) :
  Markup_max Z.ltb markup = Ret cmax -> 0 < getitem markup cmax ->
  exists r, intensity_colorize g self markup = Ret r /\ channel r = channel self /\
    (forall c, ~ in_grid g c -> getitem (cm_markup r) c = getitem (cm_markup self) c) /\
    (forall c, in_grid g c -> 0 <= getitem markup c <= getitem markup cmax ->
       exists bright dark,
         getitem (cm_markup r) c = inr (rgb (channel self) bright dark) /\
         0 <= dark <= 255 /\ 128 <= bright <= 255 /\
         (getitem markup c = getitem markup cmax -> dark = 0 /\ bright = 128) /\
         (getitem markup c = 0 -> dark = 255 /\ bright = 255)).
Proof.
  intros Hmax HM.
  destruct (intensity_colorize_run g self markup cmax Hmax) as (r & Hrun & Hch & Hval);
    [lia|].
  exists r. split; [done|]. split; [done|]. split.
  - intros c Hc. rewrite Hval. rewrite decide_False; [done|].
    by rewrite elem_of_each_cell.
  - intros c Hc Hv. rewrite Hval.
    rewrite decide_True by (by apply elem_of_each_cell). cbv zeta.
    pose proof (intensity_bounds (getitem markup cmax) (getitem markup c) HM Hv) as Hb.
    cbv zeta in Hb. destruct Hb as (Hd & Hb & HvM & Hv0).
    eexists _, _. split; [reflexivity|]. done.
Qed.

Lemma intensity_colorize_colors_witness :
  let markup := setitem (setitem (Markup_init 0) (mkCell 0 0) 0) (mkCell 0 1) 1 in
  exists r, intensity_colorize (mkGrid 1 2) (mkColorized (Markup_init (inl " "%string)) "G")
              markup = Ret r /\
    getitem (cm_markup r) (mkCell 0 0) = inr [255; 255; 255] /\
    getitem (cm_markup r) (mkCell 0 1) = inr [0; 128; 0].
Proof.
  intros markup.
  destruct (intensity_colorize_colors (mkGrid 1 2)
              (mkColorized (Markup_init (inl " "%string)) "G") markup (mkCell 0 1))
    as (r & Hrun & _ & _ & Hin); [reflexivity|reflexivity|].
  exists r. split; [exact Hrun|]. split.
  - destruct (Hin (mkCell 0 0)) as (bright & dark & Hv & _ & _ & _ & H0).
    + unfold in_grid. simpl. lia.
    + vm_compute. split; discriminate.
    + destruct H0 as [-> ->]; [reflexivity|]. exact Hv.
  - destruct (Hin (mkCell 0 1)) as (bright & dark & Hv & _ & _ & HM & _).
    + unfold in_grid. simpl. lia.
    + vm_compute. split; discriminate.
    + destruct HM as [-> ->]; [reflexivity|]. exact Hv.
Defined.

(** ** colorize_dijkstra *)

Lemma reach_isolated w s c :
  (forall x, is_linked w s x = true -> x = s) -> reach w s c -> c = s.
Proof.
  intros Hiso Hr. induction Hr as [|a b c Hab _ IH]; [done|].
  apply Hiso in Hab as ->. by apply IH.
Qed.

(** [colorize_dijkstra] from a start cell of the grid.  When the start
    cell is linked to no other cell, as on a grid that no algorithm has
    run on, the call ends in [ZeroDivisionError].  When it is linked to
    another cell the call returns: every cell of the grid gets the triplet
    of the channel with [dark] between 0 and 255 and [bright] between 128
    and 255, the start cell gets 255 and 255, and so does every cell that
    cannot be reached from it. *)
Theorem colorize_dijkstra_spec fuel g w self start_row start_column s :
  wf_grid g -> links_in_grid g w ->
  dijkstra_source g start_row start_column = Some s ->
  size g * size g < Z.of_nat fuel ->
  ((forall x, is_linked w s x = true -> x = s) ->
     colorize_dijkstra fuel g w self start_row start_column = Raise ZeroDivisionError) /\
  ((exists x, x <> s /\ is_linked w s x = true) ->
     exists r, colorize_dijkstra fuel g w self start_row start_column = Ret r /\
       channel r = channel self /\
       (forall c, in_grid g c ->
          exists bright dark,
            getitem (cm_markup r) c = inr (rgb (channel self) bright dark) /\
            0 <= dark <= 255 /\ 128 <= bright <= 255) /\
       getitem (cm_markup r) s = inr (rgb (channel self) 255 255) /\
       (forall c, in_grid g c -> ~ reach w s c ->
          getitem (cm_markup r) c = inr (rgb (channel self) 255 255))).
Proof.
  intros Hwf Hlg Hsrc Hfuel. unfold colorize_dijkstra. rewrite Hsrc.
  assert (in_grid g s) as Hs.
  { unfold dijkstra_source in Hsrc. by apply cell_at_Some in Hsrc as [_ ?]. }
  destruct (DijkstraMarkup_correct g w s fuel Hwf Hlg Hs)
    as (dm & -> & Hdef & _ & Hb & Hdist & Hwalk).
  { pose proof (length_each_cell g Hwf). nia. }
  cbv [mbind outcome_bind].
  assert (Dict.get s (marks dm) = Some 0) as Hs0.
  { apply Hdist. split_and!; [lia|constructor|lia]. }
  assert (Dict.keys (marks dm) <> []) as Hne.
  { apply dict_get_keys in Hs0. intros Hnil. rewrite Hnil in Hs0. inversion Hs0. }
  destruct (extremum_total (fun k kbest => Z.ltb kbest k) (getitem dm) _ Hne)
    as (cmax & Hmax & Hin).
  pose proof (Markup_max_upper dm cmax Hmax) as Hupper.
  split.
  - intros Hiso. apply (intensity_colorize_zero g self dm cmax Hwf Hmax).
    apply dict_mem_keys in Hin. unfold Dict.mem in Hin.
    destruct (Dict.get cmax (marks dm)) as [d|] eqn:Hd; [|done].
    pose proof (proj1 (Hdist _ _) Hd) as (_ & Hw & _).
    apply walk_reach, (reach_isolated w s cmax Hiso) in Hw. subst cmax.
    rewrite Hs0 in Hd. injection Hd as <-. by apply getitem_Some.
  - intros (x & Hx & Hsx).
    destruct (Hwalk x 1%nat) as (dx & Hdx & _).
    { apply (walk_snoc w s s); [constructor|done]. }
    assert (1 <= dx) as Hdx1.
    { pose proof (proj1 (Hdist _ _) Hdx) as (H0 & Hw & _).
      destruct (decide (dx = 0)) as [->|]; [|lia]. simpl in Hw. by inversion Hw. }
    assert (0 < getitem dm cmax) as HM.
    { pose proof (Hupper x (dict_get_keys _ _ _ Hdx)) as Hle.
      rewrite (getitem_Some dm x dx Hdx) in Hle. lia. }
    assert (forall c, 0 <= getitem dm c <= getitem dm cmax) as Hrange.
    { intros c. destruct (Dict.get c (marks dm)) as [d|] eqn:Hd.
      - pose proof (Hupper c (dict_get_keys _ _ _ Hd)) as Hle.
        destruct (Hb c d Hd) as (_ & H0 & _).
        rewrite (getitem_Some dm c d Hd) in *. lia.
      - unfold getitem at 1 2. rewrite Hd, Hdef. lia. }
    destruct (intensity_colorize_run g self dm cmax Hmax) as (r & Hrun & Hch & Hval);
      [lia|].
    assert (forall c, in_grid g c ->
      exists bright dark,
        getitem (cm_markup r) c = inr (rgb (channel self) bright dark) /\
        0 <= dark <= 255 /\ 128 <= bright <= 255 /\
        (getitem dm c = 0 -> dark = 255 /\ bright = 255)) as Hcol.
    { intros c Hc. rewrite Hval.
      rewrite decide_True by (by apply elem_of_each_cell). cbv zeta.
      pose proof (intensity_bounds (getitem dm cmax) (getitem dm c) HM (Hrange c)) as Hb'.
      cbv zeta in Hb'. destruct Hb' as (Hd & Hb' & _ & Hv0).
      eexists _, _. split; [reflexivity|]. done. }
    exists r. split; [done|]. split; [done|]. split_and!.
    + intros c Hc. destruct (Hcol c Hc) as (bright & dark & Hv & Hd & Hbr & _).
      by exists bright, dark.
    + destruct (Hcol s Hs) as (bright & dark & Hv & _ & _ & H0).
      destruct H0 as [-> ->]; [by apply getitem_Some|done].
    + intros c Hc Hnr.
      destruct (Hcol c Hc) as (bright & dark & Hv & _ & _ & H0).
      destruct H0 as [-> ->]; [|done].
      destruct (Dict.get c (marks dm)) as [d|] eqn:Hd.
      * destruct Hnr. apply Hdist in Hd as (_ & Hw & _). by apply walk_reach in Hw.
      * unfold getitem. by rewrite Hd, Hdef.
Qed.

Lemma colorize_dijkstra_spec_witness :
  let g := mkGrid 2 2 in
  let w0 := mkWorld (fun _ => []) (fun n => Z.of_nat n) 0 in
  let self := mkColorized (Markup_init (inl " "%string)) "B" in
  colorize_dijkstra 20 g w0 self None None = Raise ZeroDivisionError /\
  exists r, colorize_dijkstra 20 g (binary_tree g w0).2 self None None = Ret r /\
    getitem (cm_markup r) (mkCell 1 1) = inr [255; 255; 255].
Proof.
  intros g w0 self.
  assert (wf_grid g) as Hwf by (unfold wf_grid; simpl; lia).
  split.
  - apply (colorize_dijkstra_spec 20 g w0 self None None (mkCell 1 1)).
    + exact Hwf.
    + intros a b Hab. discriminate Hab.
    + reflexivity.
    + vm_compute. reflexivity.
    + intros x Hx. discriminate Hx.
  - destruct (colorize_dijkstra_spec 20 g (binary_tree g w0).2 self None None (mkCell 1 1))
      as [_ H].
    + exact Hwf.
    + apply binary_tree_world; [exact Hwf|]. intros c. reflexivity.
    + reflexivity.
    + vm_compute. reflexivity.
    + destruct H as (r & Hrun & _ & _ & Hs & _).
      * exists (mkCell 0 1). split; [discriminate|]. vm_compute. reflexivity.
      * exists r. split; [exact Hrun|exact Hs].
Defined.

(** * Further properties of the algorithms *)

Lemma NoDup_fst_unique {A B} (L : list (A * B)) a b b' :
  NoDup L.*1 -> (a, b) ∈ L -> (a, b') ∈ L -> b = b'.
Proof.
  induction L as [|[x y] L IH]; simpl; intros Hnd Hb Hb'; [by apply elem_of_nil in Hb|].
  apply NoDup_cons in Hnd as [Hx Hnd].
  apply elem_of_cons in Hb as [[= -> ->]|Hb]; apply elem_of_cons in Hb' as [[= <-]|Hb'].
  - done.
  - destruct Hx. apply elem_of_fst. eauto.
  - subst. destruct Hx. apply elem_of_fst. eauto.
  - by apply IH.
Qed.

(** [binary_tree] on a freshly constructed grid, for every sequence of
    draws: every cell of the top row is linked to its east neighbor and
    every cell of the east column to its north neighbor; a cell that has
    both a north and an east neighbor is linked to exactly one of them;
    and every link joins a cell and its north or its east neighbor. *)
Theorem binary_tree_corridors g w :
  wf_grid g -> unlinked w ->
  exists w', binary_tree g w = (Ret tt, w') /\
    (forall c e, in_grid g c -> row c = 0 -> east g c = Some e ->
       is_linked w' c e = true) /\
    (forall c n, in_grid g c -> column c = num_columns g - 1 -> north g c = Some n ->
       is_linked w' c n = true) /\
    (forall c n e, in_grid g c -> north g c = Some n -> east g c = Some e ->
       is_linked w' c n = negb (is_linked w' c e)) /\
    (forall a b, is_linked w' a b = true ->
       north g a = Some b \/ east g a = Some b \/ north g b = Some a \/ east g b = Some a).
Proof.
  intros Hwf Hw.
  destruct (post_total_unit _ _ _ (binary_tree_trace g w))
    as (w' & Hrun & L & (_ & Hl & _) & Htr).
  exists w'. split; [exact Hrun|]. clear Hrun.
  assert (forall a b, is_linked w' a b = edge_in L a b) as Hl'.
  { intros a b. by rewrite Hl, (unlinked_is_linked w). }
  pose proof Htr as [H1 H2].
  assert (NoDup L.*1) as Hnd.
  { rewrite H1. apply NoDup_filter, NoDup_each_cell. }
  split_and!.
  - intros c e Hc Hr He. rewrite Hl'. apply bool_decide_eq_true. left.
    apply (bt_trace_forced g L c e Htr Hc).
    unfold binary_tree_neighbors. rewrite He. unfold north.
    by rewrite bool_decide_eq_false_2 by lia.
  - intros c n Hc Hk Hn. rewrite Hl'. apply bool_decide_eq_true. left.
    apply (bt_trace_forced g L c n Htr Hc).
    unfold binary_tree_neighbors. rewrite Hn. unfold east.
    by rewrite bool_decide_eq_false_2 by lia.
  - intros c n e Hc Hn He.
    assert (is_linked w' c n = bool_decide ((c, n) ∈ L)) as ->.
    { rewrite Hl'. apply bool_decide_ext. split; [|by left].
      intros [H|H]; [done|]. apply H2, elem_of_binary_tree_neighbors in H.
      unfold north, east in *. destruct c as [r k].
      repeat case_bool_decide; simplify_eq/=; destruct H as [[=]|[=]]; lia. }
    assert (is_linked w' c e = bool_decide ((c, e) ∈ L)) as ->.
    { rewrite Hl'. apply bool_decide_ext. split; [|by left].
      intros [H|H]; [done|]. apply H2, elem_of_binary_tree_neighbors in H.
      unfold north, east in *. destruct c as [r k].
      repeat case_bool_decide; simplify_eq/=; destruct H as [[=]|[=]]; lia. }
    assert (n <> e) as Hne.
    { unfold north, east in *. repeat case_bool_decide; simplify_eq/=.
      intros [=]. lia. }
    assert (c ∈ L.*1) as Hin.
    { rewrite H1. apply list_elem_of_filter. split; [|by apply elem_of_each_cell].
      unfold binary_tree_neighbors. by rewrite Hn. }
    apply elem_of_fst in Hin as [p Hp]. pose proof (H2 c p Hp) as Hp'.
    apply elem_of_binary_tree_neighbors in Hp'. rewrite Hn, He in Hp'.
    destruct Hp' as [[= <-]|[= <-]].
    + rewrite bool_decide_eq_true_2 by done.
      rewrite bool_decide_eq_false_2; [done|].
      intros He'. by apply Hne, (NoDup_fst_unique L c).
    + rewrite (bool_decide_eq_true_2 ((c, e) ∈ L)) by done.
      rewrite bool_decide_eq_false_2; [done|].
      intros Hn'. by apply Hne, (NoDup_fst_unique L c).
  - intros a b. rewrite Hl'. intros [H|H]%bool_decide_eq_true.
    + apply H2, elem_of_binary_tree_neighbors in H. tauto.
    + apply H2, elem_of_binary_tree_neighbors in H. tauto.
Qed.

Lemma binary_tree_corridors_witness :
  let g := mkGrid 2 3 in
  exists w', binary_tree g (mkWorld (fun _ => []) (fun n => Z.of_nat n) 0) = (Ret tt, w') /\
    is_linked w' (mkCell 0 0) (mkCell 0 1) = true /\
    is_linked w' (mkCell 1 2) (mkCell 0 2) = true.
Proof.
  intros g.
  destruct (binary_tree_corridors g (mkWorld (fun _ => []) (fun n => Z.of_nat n) 0))
    as (w' & Hrun & Hrow & Hcol & _).
  - unfold wf_grid. simpl. lia.
  - intros c. reflexivity.
  - exists w'. split; [exact Hrun|]. clear Hrun. split.
    + apply Hrow; [unfold in_grid; simpl; lia|reflexivity|reflexivity].
    + apply Hcol; [unfold in_grid; simpl; lia|reflexivity|reflexivity].
Defined.

(** ** hybrid with a negative threshold *)

Lemma neighbors_sym g c n : in_grid g c -> n ∈ neighbors g c -> c ∈ neighbors g n.
Proof.
  intros [Hr Hk]. rewrite !elem_of_neighbors.
  unfold north, south, east, west. destruct c as [r k], n as [r' k']. simpl in *.
  intros [H|[H|[H|H]]]; case_bool_decide; simplify_eq.
  - right; left. rewrite bool_decide_eq_true_2 by lia. f_equal. f_equal. lia.
  - left. rewrite bool_decide_eq_true_2 by lia. f_equal. f_equal. lia.
  - right; right; right. rewrite bool_decide_eq_true_2 by lia. f_equal. f_equal. lia.
  - right; right; left. rewrite bool_decide_eq_true_2 by lia. f_equal. f_equal. lia.
Qed.

(** With a negative threshold the first loop of [hybrid] never ends: on a
    grid of more than one cell the call does not return and raises
    nothing, whatever the draws are. *)
Theorem hybrid_negative_threshold g w fuel threshold :
  wf_grid g -> 1 < size g -> (threshold < 0)%Q ->
  (hybrid fuel g threshold w).1 = OutOfFuel.
Proof.
  intros Hwf Hsize Hth. unfold hybrid.
  destruct (random_cell_run g w Hwf) as (s & w1 & Hrc & Hs & _).
  rewrite (bind_ret_run _ _ _ _ _ Hrc).
  assert (exists u, list_remove_M s (each_cell g) w1 = (Ret u, w1)) as [u Hrem].
  { unfold list_remove_M. destruct (remove_first s (each_cell g)) as [u|] eqn:Hrem; [by exists u|].
    apply remove_first_None in Hrem. destruct Hrem. by apply elem_of_each_cell. }
  rewrite (bind_ret_run _ _ _ _ _ Hrem). rewrite bind_run.
  match goal with
  | |- context [while fuel ?cond ?body ?s0 ?w0] =>
      pose proof (while_diverges cond body
        (fun st _ => in_grid g st.1) fuel s0 w0) as Hdiv
  end.
  destruct (while _ _ _ _ _) as [o w2]. simpl in Hdiv.
  rewrite Hdiv; [done|done|].
  intros [current unvisited] w3 Hcur. simpl in Hcur. split.
  - apply negb_true_iff. destruct (Qle_bool _ _) eqn:Hle; [|done].
    apply Qle_bool_iff in Hle. exfalso.
    assert (0 <= inject_Z (Z.of_nat (length unvisited)))%Q as H0.
    { change 0%Q with (inject_Z 0). rewrite <- Zle_Qle. lia. }
    assert (0 < inject_Z (size g))%Q as H1.
    { change 0%Q with (inject_Z 0). rewrite <- Zlt_Qlt. lia. }
    revert Hle H0 H1. generalize (inject_Z (size g)).
    generalize (inject_Z (Z.of_nat (length unvisited))). intros q1 q2 Hle H0 H1. nra.
  - assert (post false
      (neighbor ← choice (neighbors g current);
       if bool_decide (neighbor ∈ unvisited)
       then link neighbor current true;;
            unvisited' ← list_remove_M neighbor unvisited; mret (neighbor, unvisited')
       else mret (neighbor, unvisited)) w3 (fun st _ => in_grid g st.1)) as Hpost.
    { apply post_bind, post_choice; [by apply neighbors_nonempty|].
      intros n w4 Hn _. apply (neighbors_in_grid g current n Hcur) in Hn as [Hn _].
      case_bool_decide as Hin; [|by apply post_ret].
      apply post_bind, post_link. intros w5 _.
      apply post_bind. unfold list_remove_M.
      destruct (remove_first n unvisited) as [u'|] eqn:Hr.
      - apply post_ret. by apply post_ret.
      - apply remove_first_None in Hr. done. }
    apply post_total in Hpost as (st & w4 & Hrun & Hst). eauto.
Qed.

Lemma hybrid_negative_threshold_witness :
  (hybrid 100 (mkGrid 2 2) (-1 # 2) (mkWorld (fun _ => []) (fun n => Z.of_nat n) 0)).1
  = OutOfFuel.
Proof.
  apply (hybrid_negative_threshold (mkGrid 2 2)
           (mkWorld (fun _ => []) (fun n => Z.of_nat n) 0) 100 (-1 # 2)).
  - unfold wf_grid. simpl. lia.
  - vm_compute. reflexivity.
  - reflexivity.
Defined.

(** ** Links join neighbors only *)

Lemma safe_ret {A} (a : A) w (Q : A -> World -> Prop) E : Q a w -> safe (mret a) w Q E.
Proof. done. Qed.

Lemma safe_bind {A B} (m : M A) (f : A -> M B) w (Q : B -> World -> Prop) E :
  safe m w (fun a w' => safe (f a) w' Q E) E -> safe (m ≫= f) w Q E.
Proof. unfold safe. rewrite bind_run. by destruct (m w) as [[a|e|] w']. Qed.

Lemma safe_mono {A} (m : M A) w (Q Q' : A -> World -> Prop) E :
  safe m w Q E -> (forall a w', Q a w' -> Q' a w') -> safe m w Q' E.
Proof. unfold safe. destruct (m w) as [[a|e|] w']; auto. Qed.

Lemma safe_final {A} (m : M A) w (E : World -> Prop) :
  safe m w (fun _ w' => E w') E -> E (m w).2.
Proof. unfold safe. by destruct (m w) as [[a|e|] w']. Qed.

Lemma safe_while {S} (cond : S -> bool) (body : S -> M S)
    (I : S -> World -> Prop) (E : World -> Prop) (fuel : nat) :
  (forall s w, I s w -> E w) ->
  (forall s w, I s w -> cond s = true -> safe (body s) w I E) ->
  forall s w, I s w -> safe (while fuel cond body s) w I E.
Proof.
  intros HE Hbody. induction fuel as [|fuel IH]; intros s w HI; simpl;
    destruct (cond s) eqn:Hc; try (by apply safe_ret).
  - unfold safe, out_of_fuel. by apply (HE s).
  - apply safe_bind. eapply safe_mono; [by apply Hbody|]. intros s' w' HI'. by apply IH.
Qed.

Lemma safe_for_fold {A S} (body : A -> S -> M S) (I : S -> World -> Prop)
    (E : World -> Prop) (l : list A) :
  (forall x s w, x ∈ l -> I s w -> safe (body x s) w I E) ->
  forall s w, I s w -> safe (for_fold l s body) w I E.
Proof.
  induction l as [|x l IH]; intros Hbody s w HI; simpl; [by apply safe_ret|].
  apply safe_bind. eapply safe_mono; [apply Hbody; [left|done]|].
  intros s' w' HI'. apply IH; [|done]. intros y s0 w0 Hy. apply Hbody. by right.
Qed.

Lemma safe_for_each {A} (body : A -> M unit) (E : World -> Prop) (l : list A) :
  (forall x w, x ∈ l -> E w -> safe (body x) w (fun _ w' => E w') E) ->
  forall w, E w -> safe (for_each l body) w (fun _ w' => E w') E.
Proof.
  induction l as [|x l IH]; intros Hbody w HE; simpl; [by apply safe_ret|].
  apply safe_bind. eapply safe_mono; [apply Hbody; [left|done]|].
  intros ? w' HE'. apply IH; [|done]. intros y w0 Hy. apply Hbody. by right.
Qed.

Lemma remove_first_subseteq {A} `{EqDecision A} (x : A) l l' :
  remove_first x l = Some l' -> forall c, c ∈ l' -> c ∈ l.
Proof.
  revert l'. induction l as [|y l IH]; simpl; intros l' Hr c Hc; [done|].
  case_decide.
  - injection Hr as <-. by right.
  - destruct (remove_first x l) as [l''|]; [|done]. injection Hr as <-.
    apply elem_of_cons in Hc as [->|Hc]; [left|right; by apply (IH l'')].
Qed.

Lemma pop_until_suffix next path w r w' :
  pop_until next path w = (r, w') ->
  w' = w /\ forall p', r = Ret p' -> exists pre, path = pre ++ p'.
Proof.
  induction path as [|c path IH]; simpl.
  - intros [= <- <-]. split; [done|]. intros p' [=].
  - case_decide.
    + intros [= <- <-]. split; [done|]. intros p' [= <-]. by exists [].
    + intros Hr. destruct (IH Hr) as [-> Hp]. split; [done|].
      intros p' Hp'. destruct (Hp p' Hp') as [pre ->]. by exists (c :: pre).
Qed.

Lemma consec_suffix pre p x y : (x, y) ∈ consec p -> (x, y) ∈ consec (pre ++ p).
Proof.
  destruct p as [|a p]; [by intros ?%elem_of_nil|].
  intros Hin. rewrite consec_app. apply elem_of_app. by right.
Qed.

Lemma links_adjacent_ext g w w' :
  (forall x y, is_linked w' x y = is_linked w x y) -> (links_adjacent g) w -> (links_adjacent g) w'.
Proof. intros Hl HJ a b. rewrite Hl. apply HJ. Qed.

Lemma links_adjacent_link g w a b :
  (links_adjacent g) w -> in_grid g a -> b ∈ neighbors g a -> (links_adjacent g) (link a b true w).2.
Proof.
  intros HJ Ha Hb. destruct (link_run a b w) as (w' & -> & _ & _ & Hl & _). simpl.
  intros x y. rewrite Hl, !orb_true_iff, !bool_decide_eq_true.
  intros [[H|[-> ->]]|[-> ->]]; [by apply HJ|done|].
  split; [by apply (neighbors_in_grid g a)|by apply neighbors_sym].
Qed.

(** The algorithms change the links through [link] on a cell of the grid
    and one of its neighbors, and through nothing else: a property [J] of the
    links that such a call keeps holds whenever an algorithm stops. *)
Section Carving.
Variable g : Grid.
Variable J : World -> Prop.
Hypothesis J_ext :
  forall w w', (forall x y, is_linked w' x y = is_linked w x y) -> J w -> J w'.
Hypothesis J_link :
  forall w a b, J w -> in_grid g a -> b ∈ neighbors g a -> J (link a b true w).2.

Lemma safe_draw w (Q : Z -> World -> Prop) :
  J w -> (forall d w', J w' -> Q d w') -> safe draw w Q J.
Proof. intros HJ HQ. unfold safe, draw. apply HQ. by apply (J_ext w). Qed.

Lemma safe_choice {A} (l : list A) w (Q : A -> World -> Prop) :
  J w -> (forall x w', x ∈ l -> J w' -> Q x w') -> safe (choice l) w Q J.
Proof.
  intros HJ HQ. destruct l as [|x0 l]; [done|]. unfold choice.
  apply safe_bind, safe_draw; [done|]. intros d w' HJ'. apply safe_ret, HQ; [|done].
  apply list_elem_of_In, nth_In.
  assert (0 <= d `mod` Z.of_nat (length (x0 :: l)) < Z.of_nat (length (x0 :: l))).
  { apply Z.mod_pos_bound. simpl. lia. }
  lia.
Qed.

Lemma safe_randint a b w (Q : Z -> World -> Prop) :
  J w -> (forall x w', a <= x <= b -> J w' -> Q x w') -> safe (randint a b) w Q J.
Proof.
  intros HJ HQ. unfold randint. case_bool_decide; [done|].
  apply safe_bind, safe_draw; [done|]. intros d w' HJ'. apply safe_ret, HQ; [|done].
  pose proof (Z.mod_pos_bound d (b - a + 1)). lia.
Qed.

Lemma safe_random w (Q : Q -> World -> Prop) :
  J w -> (forall x w', J w' -> Q x w') -> safe random w Q J.
Proof.
  intros HJ HQ. unfold random. apply safe_bind, safe_draw; [done|].
  intros d w' HJ'. by apply safe_ret, HQ.
Qed.

Lemma safe_random_cell w (Q : Cell -> World -> Prop) :
  J w -> (forall c w', in_grid g c -> J w' -> Q c w') -> safe (random_cell g) w Q J.
Proof.
  intros HJ HQ. unfold random_cell.
  apply safe_bind, safe_randint; [done|]. intros r w1 Hr HJ1.
  apply safe_bind, safe_randint; [done|]. intros c w2 Hc HJ2.
  apply safe_ret, HQ; [|done]. unfold in_grid. simpl. lia.
Qed.

Lemma safe_link a b w (Q : unit -> World -> Prop) :
  J w -> in_grid g a -> b ∈ neighbors g a -> (forall w', J w' -> Q tt w') ->
  safe (link a b true) w Q J.
Proof.
  intros HJ Ha Hb HQ. pose proof (J_link w a b HJ Ha Hb) as HJ'.
  unfold safe. destruct (link_run a b w) as (w' & Hrun & _). rewrite Hrun in *.
  by apply HQ.
Qed.

Lemma safe_link_opt self other w (Q : unit -> World -> Prop) :
  J w -> in_grid g self -> (forall o, other = Some o -> o ∈ neighbors g self) ->
  (forall w', J w' -> Q tt w') ->
  safe (link_opt self other) w Q J.
Proof.
  intros HJ Hs Ho HQ. destruct other as [o|]; [|done].
  apply safe_link; auto.
Qed.

Lemma safe_list_remove x l w (Q : list Cell -> World -> Prop) :
  J w -> (forall l', (forall c, c ∈ l' -> c ∈ l) -> Q l' w) ->
  safe (list_remove_M x l) w Q J.
Proof.
  intros HJ HQ. unfold list_remove_M.
  destruct (remove_first x l) as [l'|] eqn:Hr; [|done].
  apply safe_ret, HQ. by apply (remove_first_subseteq x).
Qed.

Lemma safe_assert b w (Q : unit -> World -> Prop) :
  J w -> (b = true -> Q tt w) -> safe (assert b) w Q J.
Proof. intros HJ HQ. destruct b; [by apply HQ|done]. Qed.

Lemma each_row_in_grid row_cells c :
  row_cells ∈ each_row g -> c ∈ row_cells -> in_grid g c.
Proof.
  intros Hrow Hc. apply elem_of_each_cell. unfold each_cell.
  apply list_elem_of_join. eauto.
Qed.

Lemma binary_tree_safe w : J w -> J (binary_tree g w).2.
Proof.
  intros HJ. apply safe_final. unfold binary_tree.
  apply safe_for_each; [|done]. intros cell w1 Hcell HJ1.
  apply elem_of_each_cell in Hcell.
  destruct (binary_tree_neighbors g cell) as [|n0 ns] eqn:Hnb; [by apply safe_ret|].
  apply safe_bind, safe_choice; [done|]. intros n w2 Hn HJ2.
  apply safe_link; [done|done| |done].
  rewrite <- Hnb in Hn. apply elem_of_binary_tree_neighbors in Hn.
  apply elem_of_neighbors. tauto.
Qed.

Lemma sidewinder_rows_safe odds rows w :
  (forall row_cells, row_cells ∈ rows -> row_cells ∈ each_row g) -> J w ->
  safe (for_each rows (fun row_cells =>
          for_fold row_cells [] (sidewinder_cell g odds) ;; mret tt))
       w (fun _ w' => J w') J.
Proof.
  intros Hrows HJ.
  apply safe_for_each; [|done]. intros row_cells w1 Hrow%Hrows HJ1.
  apply safe_bind.
  apply (safe_mono _ _ (fun run w' => (forall c, c ∈ run -> in_grid g c) /\ J w')).
  2:{ intros run w' [_ HJ']. by apply safe_ret. }
  apply safe_for_fold; [|split; [by intros c ?%elem_of_nil|done]].
  intros cell run w2 Hcell [Hrun HJ2].
  assert (in_grid g cell) as Hc by (by apply (each_row_in_grid row_cells)).
  assert (forall c, c ∈ run ++ [cell] -> in_grid g c) as Hrun'.
  { intros c [? | ->%list_elem_of_singleton]%elem_of_app; auto. }
  unfold sidewinder_cell. apply safe_bind.
  apply (safe_mono _ _ (fun _ w' => J w')).
  { case_bool_decide; [by apply safe_ret|].
    apply safe_bind, safe_random; [done|]. intros r w3 HJ3. by apply safe_ret. }
  intros keep w3 HJ3.
  destruct (keep && bool_decide (is_Some (east g cell))).
  - apply safe_bind, safe_link_opt; [done|done| |].
    + intros o Ho. apply elem_of_neighbors. tauto.
    + intros w4 HJ4. by apply safe_ret.
  - case_bool_decide; [|by apply safe_ret].
    apply safe_bind, safe_choice; [done|]. intros cell' w4 Hcell' HJ4.
    apply safe_bind, safe_link_opt; [done|by apply Hrun'| |].
    + intros o Ho. apply elem_of_neighbors. tauto.
    + intros w5 HJ5. apply safe_ret. split; [by intros c ?%elem_of_nil|done].
Qed.

Lemma sidewinder_safe odds w : J w -> J (sidewinder g odds w).2.
Proof.
  intros HJ. apply safe_final. unfold sidewinder.
  apply safe_bind, safe_assert; [done|]. intros _.
  apply safe_bind, safe_assert; [done|]. intros _.
  by apply sidewinder_rows_safe.
Qed.

Lemma aldous_broder_safe fuel w : J w -> J (aldous_broder fuel g w).2.
Proof.
  intros HJ. apply safe_final. unfold aldous_broder.
  apply safe_bind, safe_random_cell; [done|]. intros current w1 Hcur HJ1.
  apply safe_bind.
  apply (safe_mono _ _ (fun s w' => in_grid g s.1 /\ J w')).
  2:{ intros s w' [_ HJ']. by apply safe_ret. }
  apply safe_while; [by intros s w' [_ ?]| |done].
  intros [cur visited] w2 [Hc HJ2] _. simpl in Hc.
  apply safe_bind, safe_choice; [done|]. intros n w3 Hn HJ3.
  pose proof (neighbors_in_grid g cur n Hc Hn) as [Hn' _].
  case_bool_decide; [by apply safe_ret|].
  apply safe_bind, safe_link; [done|done|by apply neighbors_sym|].
  intros w4 HJ4. by apply safe_ret.
Qed.

Lemma erased_walk_safe fuel unvisited start w :
  J w -> in_grid g start ->
  safe (erased_walk fuel g unvisited start) w (fun path w' => path_ok g path /\ J w') J.
Proof.
  intros HJ Hs. unfold erased_walk.
  apply safe_while; [by intros s w' [_ ?]| |].
  - intros path w1 [[Hin Hadj] HJ1] _. destruct path as [|c path]; [done|].
    assert (in_grid g c) as Hc by (apply Hin; left).
    apply safe_bind, safe_choice; [done|]. intros next w2 Hnext HJ2.
    pose proof (neighbors_in_grid g c next Hc Hnext) as [Hnext' _].
    case_bool_decide.
    + unfold safe. destruct (pop_until next (c :: path) w2) as [r w3] eqn:Hpop.
      apply pop_until_suffix in Hpop as [-> Hsuf].
      destruct r as [p'| |]; [|done|done].
      destruct (Hsuf p' eq_refl) as [pre Heq]. split; [|done]. split.
      * intros x Hx. apply Hin. rewrite Heq. apply elem_of_app. by right.
      * intros x y Hxy. apply Hadj. rewrite Heq. by apply consec_suffix.
    + apply safe_ret. split; [|done]. split.
      * intros x [->|Hx]%elem_of_cons; auto.
      * intros x y. rewrite consec_cons.
        intros [[= -> ->]|Hxy]%elem_of_cons; [by apply neighbors_sym|by apply Hadj].
  - split; [|done]. split.
    + by intros c ->%list_elem_of_singleton.
    + by intros x y ?%elem_of_nil.
Qed.

Lemma link_path_safe path :
  forall unvisited w,
  J w -> (forall c, c ∈ unvisited -> in_grid g c) ->
  (forall x y, (x, y) ∈ consec path -> in_grid g x /\ y ∈ neighbors g x) ->
  safe (link_path path unvisited) w
       (fun u w' => (forall c, c ∈ u -> in_grid g c) /\ J w') J.
Proof.
  induction path as [|a path IH]; intros unvisited w HJ Hu Hadj; [by apply safe_ret|].
  destruct path as [|b path]; [by apply safe_ret|].
  change (link_path (a :: b :: path) unvisited) with
    (link a b true ;; unvisited' ← list_remove_M a unvisited;
     link_path (b :: path) unvisited').
  destruct (Hadj a b) as [Ha Hb]; [rewrite consec_cons; left|].
  apply safe_bind, safe_link; [done|done|done|]. intros w1 HJ1.
  apply safe_bind, safe_list_remove; [done|]. intros u' Hu'.
  apply IH; [done|auto|]. intros x y Hxy. apply Hadj. rewrite consec_cons. by right.
Qed.

Lemma wilson_loop_safe fuel unvisited w :
  J w -> (forall c, c ∈ unvisited -> in_grid g c) ->
  safe (wilson_loop fuel g unvisited) w (fun _ w' => J w') J.
Proof.
  intros HJ Hu. unfold wilson_loop.
  apply (safe_mono _ _ (fun u w' => (forall c, c ∈ u -> in_grid g c) /\ J w'));
    [|by intros u w' [_ ?]].
  apply safe_while; [by intros s w' [_ ?]| |done].
  intros u w1 [Hu1 HJ1] _.
  apply safe_bind, safe_choice; [done|]. intros start w2 Hstart HJ2.
  apply safe_bind. eapply safe_mono; [apply erased_walk_safe; auto|].
  intros path w3 [[Hin Hadj] HJ3]. simpl.
  apply link_path_safe; [done|done|].
  intros x y Hxy.
  assert (edge_in (consec (reverse path)) x y = true) as He.
  { apply bool_decide_eq_true. by left. }
  rewrite edge_in_consec_reverse in He. apply bool_decide_eq_true in He.
  assert (forall a b, (a, b) ∈ consec path -> a ∈ path /\ b ∈ path) as Hmem.
  { clear. induction path as [|c p IH]; [by intros a b ?%elem_of_nil|].
    destruct p as [|d p]; [by intros a b ?%elem_of_nil|].
    intros a b. rewrite consec_cons. intros [[= -> ->]|Hab]%elem_of_cons.
    - split; [left|right; left].
    - destruct (IH a b Hab). split; by right. }
  destruct He as [He|He].
  - destruct (Hmem _ _ He) as [Hx _]. split; [auto|by apply Hadj].
  - destruct (Hmem _ _ He) as [Hy Hx]. split; [auto|].
    apply neighbors_sym; [auto|by apply Hadj].
Qed.

Lemma wilson_safe fuel w : J w -> J (wilson fuel g w).2.
Proof.
  intros HJ. apply safe_final. unfold wilson.
  apply safe_bind, safe_random_cell; [done|]. intros first w1 Hfirst HJ1.
  apply safe_bind, safe_list_remove; [done|]. intros u Hu.
  apply safe_bind. eapply safe_mono.
  - apply wilson_loop_safe; [done|]. intros c Hc. by apply elem_of_each_cell, Hu.
  - intros ? w2 HJ2. by apply safe_ret.
Qed.

Lemma hybrid_safe fuel threshold w : J w -> J (hybrid fuel g threshold w).2.
Proof.
  intros HJ. apply safe_final. unfold hybrid.
  apply safe_bind, safe_random_cell; [done|]. intros current w1 Hcur HJ1.
  apply safe_bind, safe_list_remove; [done|]. intros u Hu.
  apply safe_bind.
  apply (safe_mono _ _ (fun s w' =>
           in_grid g s.1 /\ (forall c, c ∈ s.2 -> in_grid g c) /\ J w')).
  - apply safe_while; [by intros s w' (_ & _ & ?)| |].
    + intros [cur unv] w2 (Hc & Hunv & HJ2) _. simpl in Hc, Hunv.
      apply safe_bind, safe_choice; [done|]. intros n w3 Hn HJ3.
      pose proof (neighbors_in_grid g cur n Hc Hn) as [Hn' _].
      case_bool_decide; [|by apply safe_ret].
      apply safe_bind, safe_link; [done|done|by apply neighbors_sym|].
      intros w4 HJ4. apply safe_bind, safe_list_remove; [done|]. intros u' Hu'.
      apply safe_ret. split_and!; [done| |done]. intros c Hc'. simpl in Hc'. auto.
    + split_and!; [done| |done]. intros c Hc. simpl in Hc.
      by apply elem_of_each_cell, Hu.
  - intros [cur unv] w2 (_ & Hunv & HJ2). simpl in Hunv.
    apply safe_bind. eapply safe_mono; [by apply wilson_loop_safe|].
    intros ? w3 HJ3. by apply safe_ret.
Qed.

Lemma recursive_backtracker_safe fuel start_cell w :
  match start_cell with Some c => in_grid g c | None => True end ->
  J w -> J (recursive_backtracker fuel g start_cell w).2.
Proof.
  intros Hstart HJ. apply safe_final. unfold recursive_backtracker.
  apply safe_bind.
  apply (safe_mono _ _ (fun c w' => in_grid g c /\ J w')).
  { destruct start_cell as [c|]; [by apply safe_ret|].
    apply safe_random_cell; [done|]. by intros c w1 Hc HJ1. }
  intros c w1 [Hc HJ1]. apply safe_bind.
  apply (safe_mono _ _ (fun s w' => (forall c, c ∈ s.2 -> in_grid g c) /\ J w')).
  - apply safe_while; [by intros s w' [_ ?]| |].
    + intros [visited stack] w2 [Hstack HJ2] _. simpl in Hstack.
      destruct stack as [|cur stack']; [done|].
      assert (in_grid g cur) as Hcur by (apply Hstack; left).
      destruct (filter (fun n => n ∉ visited) (neighbors g cur)) as [|n0 ns] eqn:Hf.
      * apply safe_ret. split; [|done]. intros x Hx. apply Hstack. by right.
      * apply safe_bind, safe_choice; [done|]. intros n w3 Hn HJ3.
        rewrite <- Hf in Hn. apply list_elem_of_filter in Hn as [_ Hn].
        apply safe_bind, safe_link; [done|done|done|]. intros w4 HJ4.
        apply safe_ret. split; [|done]. simpl.
        intros x [->|Hx]%elem_of_cons; [by apply (neighbors_in_grid g cur)|auto].
    + split; [|done]. simpl. by intros x ->%list_elem_of_singleton.
  - intros s w2 [_ HJ2]. by apply safe_ret.
Qed.
End Carving.

(** Whatever the draws are, and whether the call returns, raises or runs
    out of fuel, the six algorithms only ever link a cell of the grid to
    one of its [neighbors()]: started on links that join neighbors only (in
    particular on a fresh grid) they stop with links that join neighbors
    only. *)
Theorem generation_links_neighbors (g : Grid) (w : World) :
  links_adjacent g w ->
  links_adjacent g (binary_tree g w).2 /\
  (forall odds, links_adjacent g (sidewinder g odds w).2) /\
  (forall fuel, links_adjacent g (aldous_broder fuel g w).2) /\
  (forall fuel, links_adjacent g (wilson fuel g w).2) /\
  (forall fuel threshold, links_adjacent g (hybrid fuel g threshold w).2) /\
  (forall fuel start_cell,
     match start_cell with Some c => in_grid g c | None => True end ->
     links_adjacent g (recursive_backtracker fuel g start_cell w).2).
Proof.
  intros HJ.
  pose proof (links_adjacent_ext g) as Hext. pose proof (links_adjacent_link g) as Hlink.
  split_and!.
  - by apply (binary_tree_safe g).
  - intros odds. by apply (sidewinder_safe g).
  - intros fuel. by apply (aldous_broder_safe g).
  - intros fuel. by apply (wilson_safe g).
  - intros fuel threshold. by apply (hybrid_safe g).
  - intros fuel start_cell Hs. by apply (recursive_backtracker_safe g).
Qed.

Lemma generation_links_neighbors_witness :
  let g := mkGrid 3 3 in
  let w := mkWorld (fun _ => []) (fun n => Z.of_nat n) 0 in
  links_adjacent g (binary_tree g w).2 /\
  links_adjacent g (wilson 5 g w).2.
Proof.
  intros g w.
  destruct (generation_links_neighbors g w) as (Hbt & _ & _ & Hw & _).
  - intros a b Hab. discriminate Hab.
  - split; [exact Hbt|apply Hw].
Defined.

(** ** Dead ends *)

Section FilterCount.
Context {A : Type}.
Implicit Types (P Q : A -> Prop).

Lemma filter_length_split P Q `{!forall x, Decision (P x)} `{!forall x, Decision (Q x)}
    (l : list A) :
  length (filter P l) =
  (length (filter (fun x => P x /\ Q x) l) + length (filter (fun x => P x /\ ~ Q x) l))%nat.
Proof.
  induction l as [|a l IH]; [done|].
  destruct (decide (P a)) as [HP|HP]; destruct (decide (Q a)) as [HQ|HQ];
    rewrite ?(filter_cons_True P), ?(filter_cons_False P) by done;
    rewrite ?(filter_cons_True (fun x => P x /\ Q x)),
            ?(filter_cons_False (fun x => P x /\ Q x)) by tauto;
    rewrite ?(filter_cons_True (fun x => P x /\ ~ Q x)),
            ?(filter_cons_False (fun x => P x /\ ~ Q x)) by tauto;
    simpl; lia.
Qed.

Lemma filter_length_mono P Q `{!forall x, Decision (P x)} `{!forall x, Decision (Q x)}
    (l : list A) :
  (forall x, x ∈ l -> P x -> Q x) -> (length (filter P l) <= length (filter Q l))%nat.
Proof.
  induction l as [|a l IH]; intros HPQ; [done|].
  assert (length (filter P l) <= length (filter Q l))%nat as Hl.
  { apply IH. intros x Hx. apply HPQ. by right. }
  destruct (decide (P a)) as [HP|HP].
  - rewrite (filter_cons_True P), (filter_cons_True Q); [simpl; lia| |done].
    apply HPQ; [left|done].
  - rewrite (filter_cons_False P) by done.
    destruct (decide (Q a)); [rewrite filter_cons_True by done; simpl; lia|].
    by rewrite filter_cons_False.
Qed.

Lemma filter_length_fmap {B} (f : B -> A) P `{!forall x, Decision (P x)} (l : list B) :
  length (filter P (f <$> l)) = length (filter (fun y => P (f y)) l).
Proof.
  induction l as [|b l IH]; [done|]. csimpl.
  destruct (decide (P (f b))).
  - rewrite !filter_cons_True by done. simpl. by rewrite IH.
  - by rewrite !filter_cons_False.
Qed.
End FilterCount.

Lemma sum_filter_list_prod {A B} (P : A * B -> Prop) `{!forall x, Decision (P x)}
    (l1 : list A) (l2 : list B) :
  sum_list_with (fun a => length (filter (fun b => P (a, b)) l2)) l1 =
  length (filter P (list_prod l1 l2)).
Proof.
  induction l1 as [|a l1 IH]; [done|]. simpl.
  rewrite filter_app, length_app, IH. f_equal.
  symmetry. apply (filter_length_fmap (fun y => (a, y)) P).
Qed.

Lemma list_prod_swap {A} (l : list A) :
  NoDup l -> list_prod l l ≡ₚ prod_swap <$> list_prod l l.
Proof.
  intros Hnd. apply NoDup_Permutation.
  - by apply NoDup_list_prod.
  - apply (NoDup_fmap_2 _). by apply NoDup_list_prod.
  - intros [a b]. rewrite list_elem_of_fmap. rewrite <- !list_cprod_list_prod.
    rewrite list_elem_of_cprod. simpl. split.
    + intros [Ha Hb]. exists (b, a). split; [done|]. by apply list_elem_of_cprod.
    + intros ([b' a'] & [= -> ->] & Hin). apply list_elem_of_cprod in Hin. tauto.
Qed.

Lemma sum_ones_bound {A} (f : A -> nat) (l : list A) :
  (forall c, c ∈ l -> (1 <= f c)%nat) ->
  (2 * length l <= sum_list_with f l + length (filter (fun c => f c = 1%nat) l))%nat.
Proof.
  induction l as [|a l IH]; intros Hf; [done|].
  assert (2 * length l <= sum_list_with f l + length (filter (fun c => f c = 1%nat) l))%nat.
  { apply IH. intros c Hc. apply Hf. by right. }
  assert (1 <= f a)%nat by (apply Hf; left).
  destruct (decide (f a = 1%nat)).
  - rewrite filter_cons_True by done. simpl. lia.
  - rewrite filter_cons_False by done. simpl. lia.
Qed.

Lemma link_count_filter g w c :
  dict_ok w -> links_in_grid g w ->
  link_count w c = length (filter (fun b => is_linked w c b = true) (each_cell g)).
Proof.
  intros Hok Hlg. rewrite link_count_all_links. apply Permutation_length.
  apply NoDup_Permutation; [apply Hok|apply NoDup_filter, NoDup_each_cell|].
  intros x. rewrite list_elem_of_filter, elem_of_each_cell, all_links_is_linked.
  split; [|tauto]. intros Hx. split; [done|]. by apply (Hlg c x).
Qed.

Lemma directed_links_bound g w :
  symmetric w ->
  (length (filter (fun p : Cell * Cell => is_linked w p.1 p.2 = true)
                  (list_prod (each_cell g) (each_cell g)))
   <= 2 * length (undirected_links g w))%nat.
Proof.
  intros Hsym.
  rewrite (filter_length_split _ (fun p : Cell * Cell => Cell_lt p.2 p.1 = false)).
  assert (length (undirected_links g w) =
          length (filter (fun p : Cell * Cell =>
                    is_linked w p.1 p.2 = true /\ Cell_lt p.2 p.1 = false)
                         (list_prod (each_cell g) (each_cell g)))) as HU.
  { unfold undirected_links. f_equal. apply filter_ext_in.
    intros [a b] _. unfold undirected. simpl. rewrite (Hsym b a).
    destruct (Cell_lt b a), (is_linked w a b); simpl; intuition congruence. }
  rewrite HU.
  assert (length (filter (fun p : Cell * Cell =>
                    is_linked w p.1 p.2 = true /\ ~ Cell_lt p.2 p.1 = false)
                         (list_prod (each_cell g) (each_cell g)))
          <= length (filter (fun p : Cell * Cell =>
                    is_linked w p.1 p.2 = true /\ Cell_lt p.2 p.1 = false)
                            (list_prod (each_cell g) (each_cell g))))%nat; [|lia].
  rewrite (list_prod_swap (each_cell g) (NoDup_each_cell g)) at 1.
  rewrite filter_length_fmap. apply filter_length_mono.
  intros [a b] _. simpl. rewrite (Hsym b a). intros [Hl Hlt]. split; [done|].
  apply Cell_lt_asym. by destruct (Cell_lt a b).
Qed.

(** A maze whose links form a spanning tree of a grid of at least two
    cells has at least two dead ends. *)
Theorem deadends_at_least_two g w :
  wf_grid g -> 2 <= size g -> dict_ok w -> spanning_tree g w ->
  (2 <= length (deadends g w))%nat.
Proof.
  intros Hwf Hsize Hok (Hlg & Hsym & Hconn & Hcount).
  pose proof (length_each_cell g Hwf) as Hn.
  assert (forall c, c ∈ each_cell g -> (1 <= link_count w c)%nat) as Hdeg.
  { intros c Hc. apply elem_of_each_cell in Hc.
    assert (neighbors g c <> []) as Hnb by (apply neighbors_nonempty; [done|lia]).
    destruct (neighbors g c) as [|n ns] eqn:Hns; [done|].
    assert (n ∈ neighbors g c) as Hn' by (rewrite Hns; left).
    apply (neighbors_in_grid g c n Hc) in Hn' as [Hng Hne].
    pose proof (Hconn c n Hc Hng) as Hr.
    apply rtc_inv in Hr as [->|(x & Hx & _)]; [done|].
    rewrite (link_count_filter g w c Hok Hlg).
    assert (x ∈ filter (fun b => is_linked w c b = true) (each_cell g)) as Hin.
    { apply list_elem_of_filter. split; [done|]. apply elem_of_each_cell.
      by apply (Hlg c x). }
    destruct (filter _ _); [by apply elem_of_nil in Hin|simpl; lia]. }
  pose proof (sum_ones_bound (link_count w) (each_cell g) Hdeg) as Hsum.
  assert (sum_list_with (link_count w) (each_cell g)
          <= 2 * length (undirected_links g w))%nat as Hdir.
  { etrans; [|apply (directed_links_bound g w Hsym)].
    rewrite <- (sum_filter_list_prod
                  (fun p : Cell * Cell => is_linked w p.1 p.2 = true)).
    apply Nat.eq_le_incl. clear Hsum Hdeg.
    induction (each_cell g) as [|c l IH] at 1 3; [done|]. simpl.
    by rewrite IH, (link_count_filter g w c Hok Hlg). }
  unfold deadends. lia.
Qed.

Lemma deadends_at_least_two_witness :
  let g := mkGrid 2 2 in
  let w := (binary_tree g (mkWorld (fun _ => []) (fun n => Z.of_nat n) 0)).2 in
  (2 <= length (deadends g w))%nat.
Proof.
  intros g w.
  assert (wf_grid g) as Hwf by (unfold wf_grid; simpl; lia).
  apply (deadends_at_least_two g w).
  - exact Hwf.
  - vm_compute. discriminate.
  - destruct (post_total_unit _ _ _
                (binary_tree_trace g (mkWorld (fun _ => []) (fun n => Z.of_nat n) 0)))
      as (w' & Hrun & L & (_ & _ & Hok) & _).
    unfold w. rewrite Hrun. apply Hok. intros c. apply NoDup_nil_2.
  - apply binary_tree_world; [exact Hwf|]. intros c. reflexivity.
Defined.

(** * Printing the grid *)

Lemma str_app_nil_l (b : string) : EmptyString +:+ b = b.
Proof. reflexivity. Qed.

Lemma str_app_cons x (a b : string) : String x a +:+ b = String x (a +:+ b).
Proof. reflexivity. Qed.

Lemma str_app_assoc (a b c : string) : (a +:+ b) +:+ c = a +:+ (b +:+ c).
Proof.
  induction a as [|x a IH]; [done|]. rewrite !str_app_cons. by f_equal.
Qed.

Lemma str_app_nil_r (a : string) : a +:+ EmptyString = a.
Proof.
  induction a as [|x a IH]; [done|]. rewrite str_app_cons. by f_equal.
Qed.

Lemma str_length_app (a b : string) :
  String.length (a +:+ b) = (String.length a + String.length b)%nat.
Proof.
  induction a as [|x a IH]; [done|]. rewrite str_app_cons. simpl. by f_equal.
Qed.

Lemma str_length_mul (s : string) (n : nat) :
  String.length (str_mul s n) = (n * String.length s)%nat.
Proof. induction n as [|n IH]; simpl; [done|]. by rewrite str_length_app, IH. Qed.

Lemma center3_length (s : string) :
  (String.length s <= 3)%nat -> String.length (center3 s) = 3%nat.
Proof.
  intros Hs. unfold center3. rewrite !str_length_app, !str_length_mul.
  destruct (String.length s) as [|[|[|[|n]]]]; simpl; lia.
Qed.

Lemma str_join_app (l1 l2 : list string) :
  str_join (l1 ++ l2) = str_join l1 +:+ str_join l2.
Proof.
  induction l1 as [|x l1 IH]; simpl; [done|].
  unfold str_join in *. simpl. by rewrite IH, str_app_assoc.
Qed.

Lemma str_join_cons (x : string) (l : list string) : str_join (x :: l) = x +:+ str_join l.
Proof. reflexivity. Qed.

Lemma str_join_join {A} (F : A -> list string) (h : string -> string) (rows : list A) :
  str_join (h <$> mjoin (F <$> rows)) =
  str_join ((fun row => str_join (h <$> F row)) <$> rows).
Proof.
  induction rows as [|row rows IH]; [done|]. csimpl.
  by rewrite fmap_app, str_join_app, IH.
Qed.

Lemma str_join_const {A} (f : A -> string) (s : string) (l : list A) :
  (forall x, x ∈ l -> f x = s) -> str_join (f <$> l) = str_mul s (length l).
Proof.
  induction l as [|x l IH]; intros Hf; [done|]. unfold str_join in *. simpl.
  rewrite (Hf x) by left. f_equal. apply IH. intros y Hy. apply Hf. by right.
Qed.

Lemma str_length_join (n : nat) (l : list string) :
  (forall x, x ∈ l -> String.length x = n) ->
  String.length (str_join l) = (length l * n)%nat.
Proof.
  induction l as [|x l IH]; intros Hl; [done|]. unfold str_join in *. simpl.
  rewrite str_length_app, (Hl x) by left. f_equal. apply IH.
  intros y Hy. apply Hl. by right.
Qed.

Lemma foldl_append {A} (step : string -> A -> string) (f : A -> string) (l : list A) :
  (forall acc x, step acc x = acc +:+ f x) ->
  forall acc, foldl step acc l = acc +:+ str_join (f <$> l).
Proof.
  intros Hstep. induction l as [|x l IH]; intros acc.
  - symmetry. apply str_app_nil_r.
  - cbn [foldl]. rewrite IH, Hstep, str_app_assoc. done.
Qed.

Section GridStrFacts.
Context {V : Type} (str : V -> string).
Variables (g : Grid) (w : World) (markup : Markup V).

Lemma str_cell_app acc cell :
  str_cell str g w markup acc cell = acc +:+ str_cell str g w markup EmptyString cell.
Proof.
  unfold str_cell. simpl.
  destruct (east g cell) as [e|]; [destruct (is_linked w e cell)|];
    by rewrite str_app_assoc.
Qed.

Lemma str_floor_app acc cell :
  str_floor g w acc cell = acc +:+ str_floor g w EmptyString cell.
Proof.
  unfold str_floor. simpl.
  by destruct (south g cell) as [s|]; [destruct (is_linked w s cell)|].
Qed.

(** The two lines that [__str__] prints for a row. *)
Lemma Grid_str_rows :
  Grid_str str g w markup =
  ("+" +:+ str_mul "---+" (Z.to_nat (num_columns g)) +:+ newline) +:+
  str_join ((fun row =>
               ("|" +:+ str_join (str_cell str g w markup EmptyString <$> row) +:+ newline)
               +:+ ("+" +:+ str_join (str_floor g w EmptyString <$> row) +:+ newline))
            <$> each_row g).
Proof.
  unfold Grid_str. apply foldl_append. intros acc row. cbv zeta.
  rewrite (foldl_append (str_cell str g w markup) _ row str_cell_app).
  rewrite (foldl_append (str_floor g w) _ row str_floor_app).
  by rewrite !str_app_assoc.
Qed.

Lemma str_cell_length cell :
  (String.length (str (getitem markup cell)) <= 3)%nat ->
  String.length (str_cell str g w markup EmptyString cell) = 4%nat.
Proof.
  intros Hs. unfold str_cell. cbv zeta. rewrite str_app_nil_l.
  destruct (east g cell) as [e|]; [destruct (is_linked w e cell)|];
    rewrite str_length_app, center3_length by done; done.
Qed.

Lemma str_floor_length cell :
  String.length (str_floor g w EmptyString cell) = 4%nat.
Proof.
  unfold str_floor.
  by destruct (south g cell) as [s|]; [destruct (is_linked w s cell)|].
Qed.

(** When the text of every cell value has at most 3 characters, the
    picture that [__str__] returns is a rectangle: [2 * num_rows + 1] lines
    of [4 * num_columns + 1] characters, each followed by a newline. *)
Theorem Grid_str_rectangle :
  wf_grid g ->
  (forall c, in_grid g c -> (String.length (str (getitem markup c)) <= 3)%nat) ->
  exists lines : list string,
    Grid_str str g w markup = str_join ((fun l => l +:+ newline) <$> lines) /\
    Z.of_nat (length lines) = 2 * num_rows g + 1 /\
    forall l, l ∈ lines -> Z.of_nat (String.length l) = 4 * num_columns g + 1.
Proof.
  intros [Hr Hc] Hlen.
  exists (("+" +:+ str_mul "---+" (Z.to_nat (num_columns g))) ::
          mjoin ((fun row =>
                    ["|" +:+ str_join (str_cell str g w markup EmptyString <$> row);
                     "+" +:+ str_join (str_floor g w EmptyString <$> row)])
                 <$> each_row g)).
  split_and!.
  - rewrite Grid_str_rows, fmap_cons, str_join_cons, str_join_join.
    rewrite !str_app_assoc. do 4 f_equal. apply list_fmap_ext. intros _ row _.
    rewrite !fmap_cons, fmap_nil, !str_join_cons.
    change (str_join []) with EmptyString.
    by rewrite str_app_nil_r, !str_app_assoc.
  - cbn [length]. rewrite length_join, (sum_list_fmap_same 2).
    + unfold each_row. rewrite !length_fmap, length_seqZ. lia.
    + apply Forall_fmap, Forall_forall. by intros row _.
  - intros l [->|Hl]%elem_of_cons.
    + rewrite str_length_app, str_length_mul. simpl. lia.
    + apply list_elem_of_join in Hl as (ls & Hl & Hls).
      apply list_elem_of_fmap in Hls as (row & -> & Hrow).
      assert (length row = Z.to_nat (num_columns g)) as Hrl.
      { pose proof (each_row_lengths g) as Hall.
        rewrite Forall_forall in Hall. by apply Hall. }
      apply elem_of_cons in Hl as [->|Hl%list_elem_of_singleton].
      * rewrite str_length_app, (str_length_join 4).
        -- rewrite length_fmap, Hrl. simpl. lia.
        -- intros x (c & -> & Hcr)%list_elem_of_fmap. apply str_cell_length, Hlen.
           by apply (each_row_in_grid g row).
      * subst l. rewrite str_length_app, (str_length_join 4).
        -- rewrite length_fmap, Hrl. simpl. lia.
        -- intros x (c & -> & Hcr)%list_elem_of_fmap. apply str_floor_length.
Qed.
End GridStrFacts.

Lemma Grid_str_rectangle_witness :
  let g := mkGrid 2 2 in
  let w := (binary_tree g (mkWorld (fun _ => []) (fun n => Z.of_nat n) 0)).2 in
  exists lines : list string,
    Grid_str id g w (Markup_init " "%string) = str_join ((fun l => l +:+ newline) <$> lines) /\
    Z.of_nat (length lines) = 2 * 2 + 1 /\
    forall l, l ∈ lines -> Z.of_nat (String.length l) = 4 * 2 + 1.
Proof.
  intros g w. apply (Grid_str_rectangle id g w (Markup_init " "%string)).
  - unfold wf_grid. simpl. lia.
  - intros c _. simpl. lia.
Defined.

(** On a grid where no cell is linked, with a markup that holds no mark,
    [__str__] prints the full lattice: every cell shows the default value
    centered and is closed by a wall on its east and on its south. *)
Theorem Grid_str_unlinked {V} (str : V -> string) (g : Grid) (w : World) (dflt : V) :
  unlinked w ->
  Grid_str str g w (Markup_init dflt) =
  ("+" +:+ str_mul "---+" (Z.to_nat (num_columns g)) +:+ newline) +:+
  str_mul (("|" +:+ str_mul (center3 (str dflt) +:+ "|") (Z.to_nat (num_columns g))
                +:+ newline)
           +:+ ("+" +:+ str_mul "---+" (Z.to_nat (num_columns g)) +:+ newline))
          (Z.to_nat (num_rows g)).
Proof.
  intros Hw. rewrite Grid_str_rows. f_equal.
  assert (length (each_row g) = Z.to_nat (num_rows g)) as <-.
  { unfold each_row. by rewrite length_fmap, length_seqZ. }
  apply str_join_const. intros row Hrow.
  assert (length row = Z.to_nat (num_columns g)) as <-.
  { pose proof (each_row_lengths g) as Hall. rewrite Forall_forall in Hall. by apply Hall. }
  rewrite (str_join_const _ (center3 (str dflt) +:+ "|")).
  - rewrite (str_join_const _ "---+"); [done|].
    intros c _. unfold str_floor.
    destruct (south g c) as [s|]; [|done]. by rewrite (unlinked_is_linked w).
  - intros c _. unfold str_cell. cbn.
    destruct (east g c) as [e|]; [|done]. by rewrite (unlinked_is_linked w).
Qed.

Lemma Grid_str_unlinked_witness :
  Grid_str id (mkGrid 1 2) (mkWorld (fun _ => []) (fun _ => 0) 0) (Markup_init "x"%string)
  = ("+---+---+" +:+ newline +:+ "| x | x |" +:+ newline +:+ "+---+---+" +:+ newline)%string.
Proof.
  rewrite (Grid_str_unlinked id (mkGrid 1 2) (mkWorld (fun _ => []) (fun _ => 0) 0) "x"%string).
  - reflexivity.
  - intros c. reflexivity.
Defined.

(** ** Links are never removed *)

Lemma is_linked_link_mono w a b x y :
  is_linked w x y = true -> is_linked (link a b true w).2 x y = true.
Proof.
  intros Hxy. destruct (link_run a b w) as (w' & -> & _ & _ & Hl & _). simpl.
  by rewrite Hl, Hxy.
Qed.

(** Whatever the draws are, and whether the call returns, raises or is
    cut off, none of the six algorithms removes a link: two cells that were
    linked before the call are linked after it. *)
Theorem generation_keeps_links (g : Grid) (w : World) (a b : Cell) :
  is_linked w a b = true ->
  is_linked (binary_tree g w).2 a b = true /\
  (forall odds, is_linked (sidewinder g odds w).2 a b = true) /\
  (forall fuel, is_linked (aldous_broder fuel g w).2 a b = true) /\
  (forall fuel, is_linked (wilson fuel g w).2 a b = true) /\
  (forall fuel threshold, is_linked (hybrid fuel g threshold w).2 a b = true) /\
  (forall fuel start_cell,
     match start_cell with Some c => in_grid g c | None => True end ->
     is_linked (recursive_backtracker fuel g start_cell w).2 a b = true).
Proof.
  intros Hab. set (J := fun w' => is_linked w' a b = true).
  assert (forall w w', (forall x y, is_linked w' x y = is_linked w x y) -> J w -> J w')
    as Hext.
  { intros w1 w2 Hl. unfold J. by rewrite Hl. }
  assert (forall w a' b', J w -> in_grid g a' -> b' ∈ neighbors g a' ->
            J (link a' b' true w).2) as Hlink.
  { intros w1 a' b' HJ _ _. by apply is_linked_link_mono. }
  split_and!.
  - by apply (binary_tree_safe g J).
  - intros odds. by apply (sidewinder_safe g J).
  - intros fuel. by apply (aldous_broder_safe g J).
  - intros fuel. by apply (wilson_safe g J).
  - intros fuel threshold. by apply (hybrid_safe g J).
  - intros fuel start_cell Hs. by apply (recursive_backtracker_safe g J).
Qed.

Lemma generation_keeps_links_witness :
  let g := mkGrid 2 2 in
  let w := (link (mkCell 1 0) (mkCell 1 1) true
              (mkWorld (fun _ => []) (fun n => Z.of_nat n) 0)).2 in
  is_linked (binary_tree g w).2 (mkCell 1 0) (mkCell 1 1) = true /\
  is_linked (aldous_broder 3 g w).2 (mkCell 1 0) (mkCell 1 1) = true.
Proof.
  intros g w.
  destruct (generation_keeps_links g w (mkCell 1 0) (mkCell 1 1)) as (Hbt & _ & Hab & _).
  - reflexivity.
  - split; [exact Hbt|apply Hab].
Defined.

(** ** The top row of sidewinder *)

Lemma sidewinder_first_row g odds (l : list Cell) :
  (forall c, c ∈ l -> row c = 0) ->
  forall run w,
  exists run' w', for_fold l run (sidewinder_cell g odds) w = (Ret run', w') /\
    (forall x y, is_linked w x y = true -> is_linked w' x y = true) /\
    (forall c e, c ∈ l -> east g c = Some e ->
       is_linked w' c e = true /\ is_linked w' e c = true).
Proof.
  induction l as [|c l IH]; intros Hrow run w.
  - exists run, w. split_and!; [done|done|]. by intros c e ?%elem_of_nil.
  - assert (row c = 0) as Hc by (apply Hrow; left).
    assert (exists w1, sidewinder_cell g odds c run w = (Ret (run ++ [c]), w1) /\
              (forall x y, is_linked w x y = true -> is_linked w1 x y = true) /\
              (forall e, east g c = Some e ->
                 is_linked w1 c e = true /\ is_linked w1 e c = true)) as (w1 & Hcell & Hm1 & He1).
    { unfold sidewinder_cell. rewrite (bool_decide_eq_true_2 (row c = 0)) by done.
      rewrite bind_run. cbn [mret M_ret]. cbn [andb].
      destruct (east g c) as [e|] eqn:He.
      - rewrite bool_decide_eq_true_2 by eauto. unfold link_opt.
        destruct (link_run c e w) as (w1 & Hrun & _ & _ & Hl & _).
        exists w1. split_and!.
        + by rewrite (bind_ret_run _ _ _ _ _ Hrun).
        + intros x y Hxy. by rewrite Hl, Hxy.
        + intros e' [= <-]. rewrite !Hl.
          rewrite (bool_decide_eq_true_2 (c = c /\ e = e)) by done.
          rewrite (bool_decide_eq_true_2 (e = e /\ c = c)) by done.
          by rewrite !orb_true_r.
      - rewrite bool_decide_eq_false_2 by (by intros [? ?]).
        rewrite bool_decide_eq_false_2 by lia.
        exists w. split_and!; [done|done|]. by intros e [=]. }
    assert (forall x, x ∈ l -> row x = 0) as Hrow' by (intros x Hx; apply Hrow; by right).
    destruct (IH Hrow' (run ++ [c]) w1) as (run' & w' & Hrun & Hm & He).
    exists run', w'. split_and!.
    + cbn [for_fold]. by rewrite (bind_ret_run _ _ _ _ _ Hcell).
    + auto.
    + intros x e [->|Hx]%elem_of_cons Hxe.
      * destruct (He1 e Hxe). auto.
      * by apply He.
Qed.

(** [sidewinder] on a freshly constructed grid, with [0 <= odds < 1], for
    every sequence of draws: it returns and every cell of the top row is
    linked to its east neighbor, in both directions. *)
Theorem sidewinder_top_row (g : Grid) (w : World) (odds : Q) :
  wf_grid g -> unlinked w -> (0 <= odds)%Q -> (odds < 1)%Q ->
  exists w', sidewinder g odds w = (Ret tt, w') /\
    forall c e, in_grid g c -> row c = 0 -> east g c = Some e ->
      is_linked w' c e = true /\ is_linked w' e c = true.
Proof.
  intros Hwf Hw Ho0 Ho1.
  destruct (post_total_unit _ _ _ (sidewinder_total g odds w Hwf Hw Ho0 Ho1))
    as (w' & Hrun & _).
  exists w'. split; [exact Hrun|].
  unfold sidewinder in Hrun.
  assert (Qle_bool 0 odds = true) as H0 by (by apply Qle_bool_iff).
  assert (Qle_bool 1 odds = false) as H1.
  { destruct (Qle_bool 1 odds) eqn:Hle; [|done].
    apply Qle_bool_iff in Hle. by apply Qlt_not_le in Ho1. }
  rewrite H0, H1 in Hrun. cbn [negb assert] in Hrun.
  rewrite !bind_run in Hrun. cbn [mret M_ret] in Hrun.
  set (row0 := (fun c => mkCell 0 c) <$> seqZ 0 (num_columns g)).
  set (rest := (fun r => (fun c => mkCell r c) <$> seqZ 0 (num_columns g))
                 <$> seqZ (Z.succ 0) (Z.pred (num_rows g))).
  assert (each_row g = row0 :: rest) as Hrows.
  { unfold each_row. destruct Hwf as [Hr _]. rewrite (seqZ_cons 0 (num_rows g)) by done.
    by rewrite fmap_cons. }
  rewrite Hrows in Hrun. cbn [for_each] in Hrun.
  destruct (sidewinder_first_row g odds row0) with (run := @nil Cell) (w := w)
    as (run' & w1 & Hfold & _ & Hcorr).
  { intros c (k & -> & _)%list_elem_of_fmap. done. }
  assert (for_each rest (fun row_cells =>
            for_fold row_cells [] (sidewinder_cell g odds) ;; mret tt) w1 = (Ret tt, w'))
    as Hrest.
  { cbv [mbind M_bind mret M_ret] in Hrun |- *. rewrite Hfold in Hrun. exact Hrun. }
  clear Hrun.
  set (J := fun w'' : World => forall c e, c ∈ row0 -> east g c = Some e ->
                is_linked w'' c e = true /\ is_linked w'' e c = true).
  assert (J w') as HJ.
  { pose proof (sidewinder_rows_safe g J) as Hsafe.
    assert (w' = (for_each rest (fun row_cells =>
                    for_fold row_cells [] (sidewinder_cell g odds) ;; mret tt) w1).2)
      as -> by (by rewrite Hrest).
    apply safe_final, Hsafe.
    - intros w2 w3 Hl HJ c e Hc He. rewrite !Hl. by apply HJ.
    - intros w2 a b HJ _ _ c e Hc He. destruct (HJ c e Hc He).
      split; by apply is_linked_link_mono.
    - intros r Hr. rewrite Hrows. by right.
    - exact Hcorr. }
  intros c e [_ Hc] Hr He. apply HJ; [|done].
  apply list_elem_of_fmap. exists (column c). split.
  - destruct c as [r k]. simpl in *. by subst.
  - apply elem_of_seqZ. lia.
Qed.

Lemma sidewinder_top_row_witness :
  let g := mkGrid 2 3 in
  exists w', sidewinder g (1 # 2) (mkWorld (fun _ => []) (fun n => Z.of_nat n) 0)
             = (Ret tt, w') /\
    is_linked w' (mkCell 0 1) (mkCell 0 2) = true.
Proof.
  intros g.
  destruct (sidewinder_top_row g (mkWorld (fun _ => []) (fun n => Z.of_nat n) 0) (1 # 2))
    as (w' & Hrun & Hrow).
  - unfold wf_grid. simpl. lia.
  - intros c. reflexivity.
  - discriminate.
  - reflexivity.
  - exists w'. split; [exact Hrun|]. clear Hrun.
    apply (Hrow (mkCell 0 1) (mkCell 0 2)); [unfold in_grid; simpl; lia|reflexivity|reflexivity].
Defined.

(** ** hybrid with a threshold of at least 1 *)

(** With [threshold >= 1] the first loop of [hybrid] does not run, and
    [hybrid] is [wilson]: for every fuel and every sequence of draws the
    two calls have the same outcome and leave the same links and the same
    state of [random]. *)
Theorem hybrid_is_wilson (g : Grid) (w : World) (fuel : nat) (threshold : Q) :
  wf_grid g -> (1 <= threshold)%Q ->
  hybrid fuel g threshold w = wilson fuel g w.
Proof.
  intros Hwf Hth. unfold hybrid, wilson.
  destruct (random_cell_run g w Hwf) as (s & w1 & Hrc & Hs & _).
  rewrite !(bind_ret_run _ _ _ _ _ Hrc).
  destruct (remove_first s (each_cell g)) as [u|] eqn:Hrem.
  2: { assert (list_remove_M s (each_cell g) w1 = (Raise ValueError, w1)) as Hlr.
       { unfold list_remove_M. by rewrite Hrem. }
       by rewrite !(bind_raise_run _ _ _ _ _ Hlr). }
  destruct (remove_first_Some s (each_cell g) u Hrem (NoDup_each_cell g)) as (_ & _ & Hlen).
  assert (list_remove_M s (each_cell g) w1 = (Ret u, w1)) as Hlr.
  { unfold list_remove_M. by rewrite Hrem. }
  rewrite !(bind_ret_run _ _ _ _ _ Hlr).
  rewrite bind_run.
  assert (while fuel
            (fun '(_, unvisited) =>
               negb (Qle_bool (inject_Z (Z.of_nat (length unvisited)))
                              (inject_Z (size g) * threshold)))
            (fun '(current, unvisited) =>
               neighbor ← choice (neighbors g current);
               if bool_decide (neighbor ∈ unvisited)
               then link neighbor current true;;
                    unvisited' ← list_remove_M neighbor unvisited;
                    mret (neighbor, unvisited')
               else mret (neighbor, unvisited))
            (s, u) w1 = (Ret (s, u), w1)) as ->; [|done].
  assert (Qle_bool (inject_Z (Z.of_nat (length u))) (inject_Z (size g) * threshold) = true)
    as Hle.
  { apply Qle_bool_iff. pose proof (length_each_cell g Hwf) as Hn.
    assert (inject_Z (Z.of_nat (length u)) <= inject_Z (size g))%Q as H1.
    { rewrite <- Zle_Qle. lia. }
    assert (0 <= inject_Z (size g))%Q as H0.
    { change 0%Q with (inject_Z 0). rewrite <- Zle_Qle. lia. }
    revert H0 H1. generalize (inject_Z (size g)), (inject_Z (Z.of_nat (length u))).
    intros q1 q2 H0 H1. nra. }
  destruct fuel; simpl; by rewrite Hle.
Qed.

Lemma hybrid_is_wilson_witness :
  hybrid 30 (mkGrid 2 2) 1 (mkWorld (fun _ => []) (fun n => Z.of_nat n) 0)
  = wilson 30 (mkGrid 2 2) (mkWorld (fun _ => []) (fun n => Z.of_nat n) 0).
Proof.
  apply (hybrid_is_wilson (mkGrid 2 2)).
  - unfold wf_grid. simpl. lia.
  - discriminate.
Defined.

(** ** The channel of a ColorizedMarkup *)

(** [ColorizedMarkup(grid, channel)] accepts exactly the strings that
    occur in ['RGB'] as a substring, among them the empty string, ['RG'],
    ['GB'] and ['RGB'], and ends in [AssertionError] for every other
    string; the markup it returns holds no mark and has the default [' ']. *)
Theorem ColorizedMarkup_init_spec (ch : string) :
  ((exists pre suf, "RGB"%string = pre +:+ ch +:+ suf) ->
     ColorizedMarkup_init ch = Ret (mkColorized (Markup_init (inl " "%string)) ch)) /\
  (~ (exists pre suf, "RGB"%string = pre +:+ ch +:+ suf) ->
     ColorizedMarkup_init ch = Raise AssertionError).
Proof.
  unfold ColorizedMarkup_init, assert_o.
  assert ((exists pre suf, "RGB"%string = pre +:+ ch +:+ suf) <->
          ch ∈ [EmptyString; "R"; "G"; "B"; "RG"; "GB"; "RGB"]%string) as Hsub.
  { split.
    - intros (pre & suf & Heq).
      destruct pre as [|a [|b [|c [|d pre]]]];
        destruct ch as [|x [|y [|z [|u ch]]]];
        cbv [String.append] in Heq; simplify_eq;
        rewrite ?elem_of_cons; try tauto;
        try (destruct suf; discriminate Heq).
    - rewrite !elem_of_cons, elem_of_nil.
      intros [->|[->|[->|[->|[->|[->|[->|[]]]]]]]].
      + by exists EmptyString, "RGB"%string.
      + by exists EmptyString, "GB"%string.
      + by exists "R"%string, "B"%string.
      + by exists "RG"%string, EmptyString.
      + by exists EmptyString, "B"%string.
      + by exists "R"%string, EmptyString.
      + by exists EmptyString, EmptyString. }
  split.
  - intros H. apply Hsub in H. by rewrite bool_decide_eq_true_2.
  - intros H. rewrite bool_decide_eq_false_2; [done|]. by rewrite <- Hsub.
Qed.

Lemma ColorizedMarkup_init_spec_witness :
  ColorizedMarkup_init "RG" = Ret (mkColorized (Markup_init (inl " "%string)) "RG") /\
  ColorizedMarkup_init "BR" = Raise AssertionError.
Proof.
  split.
  - apply (ColorizedMarkup_init_spec "RG"). by exists EmptyString, "B"%string.
  - apply (ColorizedMarkup_init_spec "BR"). intros (pre & suf & Heq).
    destruct pre as [|a [|b [|c [|d pre]]]]; cbv [String.append] in Heq; discriminate Heq.
Defined.

(** ** The marks of linked cells *)

(** In the markup that [DijkstraMarkup] returns on a grid with symmetric
    links, a cell linked to a marked cell is marked, and the two marks
    differ by at most 1; every marked cell other than the root is linked
    from a cell whose mark is lower by exactly 1, and only the root is
    marked 0. *)
Theorem DijkstraMarkup_gradient (g : Grid) (w : World) (root : Cell) (dflt : Z)
    (fuel : nat) :
  wf_grid g -> links_in_grid g w -> symmetric w -> in_grid g root ->
  size g * size g < Z.of_nat fuel ->
  exists m, DijkstraMarkup fuel w root dflt = Ret m /\
    (forall a b da, is_linked w a b = true -> Dict.get a (marks m) = Some da ->
       exists db, Dict.get b (marks m) = Some db /\ da - 1 <= db <= da + 1) /\
    (forall c d, Dict.get c (marks m) = Some d -> c <> root ->
       0 < d /\ exists p, is_linked w p c = true /\ Dict.get p (marks m) = Some (d - 1)) /\
    (forall c, Dict.get c (marks m) = Some 0 <-> c = root).
Proof.
  intros Hwf Hlg Hsym Hroot Hfuel.
  destruct (DijkstraMarkup_correct_default g w root dflt fuel Hwf Hlg Hroot)
    as (m & Hrun & _ & _ & Hdist & Hwalk).
  { pose proof (length_each_cell g Hwf). nia. }
  exists m. split; [exact Hrun|].
  assert (forall a b da, is_linked w a b = true -> Dict.get a (marks m) = Some da ->
            exists db, Dict.get b (marks m) = Some db /\ db <= da + 1) as Hstep.
  { intros a b da Hl Ha. apply Hdist in Ha as (Hda & Hwa & _).
    destruct (Hwalk b (S (Z.to_nat da))) as (db & Hb & Hle).
    { by apply walk_snoc with a. }
    exists db. split; [done|lia]. }
  assert (forall c, walk w root c 0 -> c = root) as Hzero.
  { intros c Hc. by inversion Hc. }
  split_and!.
  - intros a b da Hl Ha. destruct (Hstep a b da Hl Ha) as (db & Hb & Hle).
    exists db. split; [done|].
    assert (is_linked w b a = true) as Hl' by (by rewrite Hsym).
    destruct (Hstep b a db Hl' Hb) as (da' & Ha' & Hle').
    rewrite Ha in Ha'. injection Ha' as <-. lia.
  - intros c d Hc Hne. pose proof Hc as Hget.
    apply Hdist in Hc as (Hd0 & Hw & Hmin).
    destruct (Z.to_nat d) as [|n] eqn:Hn.
    { by apply Hzero in Hw. }
    split; [lia|].
    inversion Hw as [|p c' n' Hwp Hl]; subst.
    exists p. split; [done|].
    destruct (Hwalk p n Hwp) as (dp & Hp & Hle).
    destruct (Hstep p c dp Hl Hp) as (d' & Hc' & Hle').
    rewrite Hget in Hc'. injection Hc' as <-.
    rewrite Hp. f_equal. lia.
  - intros c. split.
    + intros Hc. apply Hdist in Hc as (_ & Hw & _). by apply Hzero.
    + intros ->. apply Hdist. split_and!; [lia|constructor|lia].
Qed.

Lemma DijkstraMarkup_gradient_witness :
  let w := (link (mkCell 0 0) (mkCell 0 1) true (mkWorld (fun _ => []) (fun _ => 0) 0)).2 in
  exists m, DijkstraMarkup 20 w (mkCell 0 0) 9 = Ret m /\
    Dict.get (mkCell 0 1) (marks m) = Some 1 /\
    exists p, is_linked w p (mkCell 0 1) = true /\ Dict.get p (marks m) = Some 0.
Proof.
  intros w.
  assert (forall x y, is_linked w x y =
            bool_decide (x = mkCell 0 0 /\ y = mkCell 0 1)
            || bool_decide (x = mkCell 0 1 /\ y = mkCell 0 0)) as Hw.
  { intros x y. unfold w.
    destruct (link_run (mkCell 0 0) (mkCell 0 1) (mkWorld (fun _ => []) (fun _ => 0) 0))
      as (w1 & -> & _ & _ & Hl1 & _).
    cbn [snd]. by rewrite Hl1. }
  destruct (DijkstraMarkup_gradient (mkGrid 1 2) w (mkCell 0 0) 9 20)
    as (m & Hrun & _ & Hback & _).
  - unfold wf_grid. simpl. lia.
  - intros a b. rewrite Hw, orb_true_iff, !bool_decide_eq_true. unfold in_grid.
    intros [[-> ->]|[-> ->]]; simpl; lia.
  - intros a b. rewrite !Hw. apply eq_true_iff_eq.
    rewrite !orb_true_iff, !bool_decide_eq_true. tauto.
  - unfold in_grid. simpl. lia.
  - vm_compute. reflexivity.
  - exists m.
    assert (Dict.get (mkCell 0 1) (marks m) = Some 1) as H1.
    { clear Hback Hw. vm_compute in Hrun. injection Hrun as <-. reflexivity. }
    split; [exact Hrun|]. split; [exact H1|].
    destruct (Hback _ _ H1) as (_ & p & Hl & Hp); [done|].
    exists p. by split.
Defined.

















(** ** The boustrophedon path *)

Lemma snake_0 g : wf_grid g -> snake g 0 = mkCell 0 0.
Proof.
  intros [_ Hc]. unfold snake. simpl.
  rewrite Z.div_0_l, Z.mod_0_l by lia. done.
Qed.





(** ** aldous_broder can end *)


(** ** wilson can end *)





(** ** hybrid can end *)


(** ** Walks of wilson and hybrid that never end *)







(** ** C1 *)





(** ** C4: binary_tree on the 3x3 grid *)

(** The run of [binary_tree] on a fresh grid: the links made, in the
    order of the cells, and the spanning tree they form. *)
Lemma binary_tree_run g w :
  wf_grid g -> unlinked w ->
  exists w' L, binary_tree g w = (Ret tt, w') /\
    (forall x y, is_linked w' x y = edge_in L x y) /\
    dict_ok w' /\ bt_trace g (each_cell g) L /\ spanning_tree g w'.
Proof.
  intros Hwf Hw.
  destruct (post_total _ _ _ (binary_tree_trace g w))
    as ([] & w' & Hrun & L & (_ & Hl & Hok) & Htr).
  exists w', L. split; [exact Hrun|].
  assert (forall x y, is_linked w' x y = edge_in L x y) as HE.
  { intros x y. by rewrite Hl, (unlinked_is_linked w) by done. }
  split; [exact HE|]. split; [by apply Hok, unlinked_dict_ok|]. split; [exact Htr|].
  apply (tree_spanning g w' (fun c => bool_decide (in_grid g c)) Hwf).
  - eapply tree_ext; [| |by apply (bt_trace_tree g L)]; [done|].
    intros a b. by rewrite HE.
  - intros c Hc. by apply bool_decide_eq_true_2.
Qed.

(** C4, amended: after [binary_tree] on a fresh 3x3 grid, whatever the
    random choices, the call has returned and
    - the top-right cell (0,2) has exactly two links, to (0,1) and to (1,2);
    - every cell (0,c) with c < 2 is linked with (0,c+1);
    - every cell other than (0,2) is linked with exactly one of its north
      and east neighbors;
    - (0,2) has neither a north nor an east neighbor, and every link of
      the maze joins a cell with its north or its east neighbor: the
      corner (0,2) is the only cell for which the algorithm links nothing,
      and the maze has 8 links, one for each other cell. *)
Theorem binary_tree_3x3 (w : World) :
  unlinked w ->
  let g := mkGrid 3 3 in
  exists w', binary_tree g w = (Ret tt, w') /\
    link_count w' (mkCell 0 2) = 2%nat /\
    (forall x, is_linked w' (mkCell 0 2) x = true <-> x = mkCell 0 1 \/ x = mkCell 1 2) /\
    (forall c, 0 <= c < 2 ->
       is_linked w' (mkCell 0 c) (mkCell 0 (c + 1)) = true /\
       is_linked w' (mkCell 0 (c + 1)) (mkCell 0 c) = true) /\
    (forall cell, in_grid g cell -> cell <> mkCell 0 2 ->
       exists n, (north g cell = Some n \/ east g cell = Some n) /\
         is_linked w' cell n = true /\ is_linked w' n cell = true /\
         forall n', north g cell = Some n' \/ east g cell = Some n' ->
                    is_linked w' cell n' = true -> n' = n) /\
    (north g (mkCell 0 2) = None /\ east g (mkCell 0 2) = None) /\
    (forall a b, is_linked w' a b = true ->
       north g a = Some b \/ east g a = Some b \/ north g b = Some a \/ east g b = Some a) /\
    length (undirected_links g w') = 8%nat.
Proof.
  intros Hw g.
  assert (wf_grid g) as Hwf by (unfold wf_grid; simpl; lia).
  destruct (binary_tree_run g w Hwf Hw) as (w' & L & Hrun & HE & Hok & Htr & Htree).
  exists w'. split; [exact Hrun|]. clear Hrun.
  pose proof Htr as [H1 H2].
  assert (NoDup L.*1) as Hnd.
  { rewrite H1. apply NoDup_filter, NoDup_each_cell. }
  assert (forall c p, (c, p) ∈ L -> north g c = Some p \/ east g c = Some p) as Hne.
  { intros c p Hin. by apply elem_of_binary_tree_neighbors, H2. }
  assert (forall c p, north g c = Some p \/ east g c = Some p ->
            ~ (north g p = Some c \/ east g p = Some c)) as Hasym.
  { intros [r k] [r' k']. unfold north, east. simpl.
    repeat case_bool_decide; intros [[=]|[=]] [[=]|[=]]; lia. }
  assert (forall c p, north g c = Some p \/ east g c = Some p ->
            is_linked w' c p = true -> (c, p) ∈ L) as Hown.
  { intros c p Hcp. rewrite HE, edge_in_true. intros [Hin|Hin]; [done|].
    destruct (Hasym c p Hcp). by apply Hne. }
  assert ((mkCell 0 1, mkCell 0 2) ∈ L) as H01.
  { apply (bt_trace_forced g); [done|unfold in_grid; simpl; lia|done]. }
  assert ((mkCell 1 2, mkCell 0 2) ∈ L) as H12.
  { apply (bt_trace_forced g); [done|unfold in_grid; simpl; lia|done]. }
  assert (forall x, is_linked w' (mkCell 0 2) x = true <->
                    x = mkCell 0 1 \/ x = mkCell 1 2) as Hcorner.
  { intros x. rewrite HE, edge_in_true. split.
    - intros [Hin|Hin].
      + apply Hne in Hin. by destruct Hin.
      + apply H2 in Hin. destruct (top_right_3x3_neighbor_of x) as [?|[->| ->]]; tauto.
    - intros [->| ->]; by right. }
  split_and!.
  - rewrite link_count_all_links.
    assert (all_links w' (mkCell 0 2) ≡ₚ [mkCell 0 1; mkCell 1 2]) as ->; [|done].
    apply NoDup_Permutation.
    + apply Hok.
    + apply NoDup_cons. split; [|apply NoDup_singleton].
      intros Hin%list_elem_of_singleton. discriminate.
    + intros x. unfold all_links. rewrite <- dict_mem_keys.
      fold (is_linked w' (mkCell 0 2) x). rewrite Hcorner.
      rewrite !elem_of_cons, elem_of_nil. tauto.
  - exact Hcorner.
  - intros c Hc. rewrite !HE, (edge_in_sym L (mkCell 0 (c + 1))), edge_in_true.
    assert (c = 0 \/ c = 1) as [-> | ->] by lia; simpl; split; left; try done;
      apply (bt_trace_forced g); done || (unfold in_grid; simpl; lia).
  - intros cell Hcell Hne2.
    assert (cell ∈ L.*1) as Hin.
    { rewrite H1. apply list_elem_of_filter. split; [|by apply elem_of_each_cell].
      by rewrite (binary_tree_neighbors_nil g cell Hcell). }
    apply elem_of_fst in Hin as [n Hn]. exists n. split; [by apply Hne|].
    rewrite !HE, (edge_in_sym L n cell), edge_in_true. split; [by left|].
    split; [by left|].
    intros n' Hn' Hln. apply (NoDup_fst_unique L cell); [done| |done].
    by apply Hown.
  - done.
  - done.
  - intros a b. rewrite HE, edge_in_true. intros [Hin|Hin]; apply Hne in Hin; tauto.
  - destruct Htree as (_ & _ & _ & Hcount). change (size g) with 9 in Hcount. lia.
Qed.

Lemma binary_tree_3x3_witness :
  exists w', binary_tree (mkGrid 3 3) (mkWorld (fun _ => []) (fun n => Z.of_nat n) 0)
             = (Ret tt, w') /\
             link_count w' (mkCell 0 2) = 2%nat /\
             is_linked w' (mkCell 0 2) (mkCell 1 2) = true /\
             length (undirected_links (mkGrid 3 3) w') = 8%nat.
Proof.
  assert (unlinked (mkWorld (fun _ => []) (fun n => Z.of_nat n) 0)) as Hw.
  { intros c. reflexivity. }
  pose proof (binary_tree_3x3 (mkWorld (fun _ => []) (fun n => Z.of_nat n) 0) Hw) as H.
  cbv zeta in H. destruct H as (w' & Hrun & Hcount & Hcorner & _ & _ & _ & _ & Hlen).
  exists w'. split; [exact Hrun|]. split; [exact Hcount|]. split; [|exact Hlen].
  apply Hcorner. by right.
Defined.

(** ** C9: the source of colorize_dijkstra *)

(** [intensity_colorize] of the distances from a cell [s]. *)
Lemma dijkstra_colorize_source fuel g w self s :
  wf_grid g -> links_in_grid g w -> in_grid g s ->
  size g * size g < Z.of_nat fuel ->
  ((forall x, is_linked w s x = true -> x = s) ->
     (dm ← DijkstraMarkup fuel w s 0; intensity_colorize g self dm)
     = Raise ZeroDivisionError) /\
  ((exists x, x <> s /\ is_linked w s x = true) ->
     exists r, (dm ← DijkstraMarkup fuel w s 0; intensity_colorize g self dm) = Ret r /\
       getitem (cm_markup r) s = inr (rgb (channel self) 255 255)).
Proof.
  intros Hwf Hlg Hs Hfuel.
  destruct (DijkstraMarkup_correct g w s fuel Hwf Hlg Hs)
    as (dm & -> & Hdef & _ & Hb & Hdist & Hwalk).
  { pose proof (length_each_cell g Hwf). nia. }
  cbv [mbind outcome_bind].
  assert (Dict.get s (marks dm) = Some 0) as Hs0.
  { apply Hdist. split_and!; [lia|constructor|lia]. }
  assert (Dict.keys (marks dm) <> []) as Hne.
  { apply dict_get_keys in Hs0. intros Hnil. rewrite Hnil in Hs0. inversion Hs0. }
  destruct (extremum_total (fun k kbest => Z.ltb kbest k) (getitem dm) _ Hne)
    as (cmax & Hmax & Hin).
  pose proof (Markup_max_upper dm cmax Hmax) as Hupper.
  split.
  - intros Hiso. apply (intensity_colorize_zero g self dm cmax Hwf Hmax).
    apply dict_mem_keys in Hin. unfold Dict.mem in Hin.
    destruct (Dict.get cmax (marks dm)) as [d|] eqn:Hd; [|done].
    pose proof (proj1 (Hdist _ _) Hd) as (_ & Hw & _).
    apply walk_reach, (reach_isolated w s cmax Hiso) in Hw. subst cmax.
    rewrite Hs0 in Hd. injection Hd as <-. by apply getitem_Some.
  - intros (x & Hx & Hsx).
    destruct (Hwalk x 1%nat) as (dx & Hdx & _).
    { apply (walk_snoc w s s); [constructor|done]. }
    assert (1 <= dx) as Hdx1.
    { pose proof (proj1 (Hdist _ _) Hdx) as (H0 & Hw & _).
      destruct (decide (dx = 0)) as [->|]; [|lia]. simpl in Hw. by inversion Hw. }
    assert (0 < getitem dm cmax) as HM.
    { pose proof (Hupper x (dict_get_keys _ _ _ Hdx)) as Hle.
      rewrite (getitem_Some dm x dx Hdx) in Hle. lia. }
    destruct (intensity_colorize_run g self dm cmax Hmax) as (r & Hrun & _ & Hval);
      [lia|].
    exists r. split; [done|]. rewrite Hval.
    rewrite decide_True by (by apply elem_of_each_cell). cbv zeta.
    rewrite (getitem_Some dm s 0 Hs0).
    pose proof (intensity_bounds (getitem dm cmax) 0 HM) as Hb'.
    cbv zeta in Hb'. destruct Hb' as (_ & _ & _ & Hv0); [lia|].
    destruct Hv0 as [-> ->]; done.
Qed.

(** C9, as stated, fails on a grid with one row: the center row
    [1 // 2] is row 0, so the call with [start_row = 0] runs
    [DijkstraMarkup] from a cell of row 0. *)
Lemma colorize_dijkstra_row0_counterexample :
  ~ (forall fuel g w self start_column s, wf_grid g -> in_grid g s ->
       colorize_dijkstra fuel g w self (Some 0) start_column
       = (dm ← DijkstraMarkup fuel w s 0; intensity_colorize g self dm) ->
       row s <> 0) /\
  ~ (forall g start_column c, wf_grid g ->
       dijkstra_source g (Some 0) start_column = Some c -> row c <> 0).
Proof.
  split.
  - intros H.
    apply (H 0%nat (mkGrid 1 1) (mkWorld (fun _ => []) (fun _ => 0) 0)
             (mkColorized (Markup_init (inl " "%string)) "R") None (mkCell 0 0));
      [done|done|done|done].
  - intros H. apply (H (mkGrid 1 1) None (mkCell 0 0)); [done|done|done].
Qed.

(** C9, amended: [colorize_dijkstra] handles an explicit 0 for [start_row]
    (for [start_column]) exactly as a missing argument: the call runs
    [DijkstraMarkup] from the cell in the center row [num_rows // 2] (the
    center column [num_columns // 2]) and colors its distances.  With
    enough iterations, the call ends in [ZeroDivisionError] when that cell
    is linked to no other cell, whatever the links of row 0 (column 0) are,
    and otherwise returns with that cell at full intensity.  The center
    index is not 0 as soon as the grid has two rows (columns), and is 0
    itself on a grid of one row (column). *)
Theorem colorize_dijkstra_zero_is_center (fuel : nat) (g : Grid) (w : World)
    (self : ColorizedMarkup) (other : option Z) :
  wf_grid g ->
  let by_row := mkCell (num_rows g `div` 2) (or_center other (num_columns g)) in
  let by_column := mkCell (or_center other (num_rows g)) (num_columns g `div` 2) in
  let from s := dm ← DijkstraMarkup fuel w s 0; intensity_colorize g self dm in
  let colors s call :=
    links_in_grid g w -> size g * size g < Z.of_nat fuel ->
    ((forall x, is_linked w s x = true -> x = s) -> call = Raise ZeroDivisionError) /\
    ((exists x, x <> s /\ is_linked w s x = true) ->
       exists r, call = Ret r /\
                 getitem (cm_markup r) s = inr (rgb (channel self) 255 255)) in
  (colorize_dijkstra fuel g w self (Some 0) other
   = colorize_dijkstra fuel g w self None other /\
   colorize_dijkstra fuel g w self other (Some 0)
   = colorize_dijkstra fuel g w self other None) /\
  (in_grid g by_row ->
     colorize_dijkstra fuel g w self (Some 0) other = from by_row /\
     colors by_row (colorize_dijkstra fuel g w self (Some 0) other)) /\
  (in_grid g by_column ->
     colorize_dijkstra fuel g w self other (Some 0) = from by_column /\
     colors by_column (colorize_dijkstra fuel g w self other (Some 0))) /\
  (row by_row = num_rows g `div` 2 /\ (row by_row = 0 <-> num_rows g = 1)) /\
  (column by_column = num_columns g `div` 2 /\
   (column by_column = 0 <-> num_columns g = 1)).
Proof.
  intros Hwf by_row by_column from colors.
  assert (forall n, 0 < n -> n `div` 2 = 0 <-> n = 1) as Hhalf.
  { intros n Hn. rewrite Z.div_small_iff by lia. lia. }
  assert (forall s r c, in_grid g s -> s = mkCell r c ->
            cell_at g r c = Some s) as Hat.
  { intros s r c Hs ->. by apply cell_at_in_grid; apply Hs. }
  split; [by split|]. split; [|split; [|split]].
  - intros Hs.
    assert (colorize_dijkstra fuel g w self (Some 0) other = from by_row) as Hcall.
    { unfold colorize_dijkstra, dijkstra_source.
      change (or_center (Some 0) (num_rows g)) with (num_rows g `div` 2).
      by rewrite (Hat by_row _ _ Hs eq_refl). }
    split; [exact Hcall|]. intros Hlg Hfuel. rewrite Hcall.
    apply (dijkstra_colorize_source fuel g w self by_row Hwf Hlg Hs Hfuel).
  - intros Hs.
    assert (colorize_dijkstra fuel g w self other (Some 0) = from by_column) as Hcall.
    { unfold colorize_dijkstra, dijkstra_source.
      change (or_center (Some 0) (num_columns g)) with (num_columns g `div` 2).
      by rewrite (Hat by_column _ _ Hs eq_refl). }
    split; [exact Hcall|]. intros Hlg Hfuel. rewrite Hcall.
    apply (dijkstra_colorize_source fuel g w self by_column Hwf Hlg Hs Hfuel).
  - split; [done|]. apply Hhalf, Hwf.
  - split; [done|]. apply Hhalf, Hwf.
Qed.

(** On the 3x3 grid where only (0,0) and (0,1) are linked, the call with
    [start_row = 0] and [start_column = 0] starts from the center (1,1),
    which has no link, and so ends in [ZeroDivisionError]; from (0,0) the
    greatest distance would be 1. *)
Lemma colorize_dijkstra_zero_is_center_witness :
  let w := (link (mkCell 0 0) (mkCell 0 1) true (mkWorld (fun _ => []) (fun _ => 0) 0)).2 in
  colorize_dijkstra 100 (mkGrid 3 3) w (mkColorized (Markup_init (inl " "%string)) "R")
                    (Some 0) (Some 0)
  = Raise ZeroDivisionError /\
  num_rows (mkGrid 3 3) `div` 2 <> 0.
Proof.
  intros w.
  assert (forall x y, is_linked w x y =
            bool_decide (x = mkCell 0 0 /\ y = mkCell 0 1)
            || bool_decide (x = mkCell 0 1 /\ y = mkCell 0 0)) as Hw.
  { intros x y. unfold w.
    destruct (link_run (mkCell 0 0) (mkCell 0 1) (mkWorld (fun _ => []) (fun _ => 0) 0))
      as (w1 & -> & _ & _ & Hl1 & _).
    cbn [snd]. by rewrite Hl1. }
  assert (wf_grid (mkGrid 3 3)) as Hwf by (unfold wf_grid; simpl; lia).
  pose proof (colorize_dijkstra_zero_is_center 100 (mkGrid 3 3) w
                (mkColorized (Markup_init (inl " "%string)) "R") (Some 0) Hwf) as H.
  cbv zeta in H. destruct H as (_ & Hrow & _ & [_ Hr0] & _).
  destruct Hrow as [_ Hcol].
  { unfold in_grid. vm_compute. intuition congruence. }
  destruct Hcol as [Hiso _].
  - intros a b. rewrite Hw, orb_true_iff, !bool_decide_eq_true. unfold in_grid.
    intros [[-> ->]|[-> ->]]; simpl; lia.
  - vm_compute. reflexivity.
  - split.
    + apply Hiso. intros x. rewrite Hw, orb_true_iff, !bool_decide_eq_true.
      intros [[Hc _]|[Hc _]]; discriminate Hc.
    + intros H0. apply Hr0 in H0. discriminate H0.
Defined.
